(** * QtSmtpClient: MIME composer and SMTP driver

    A shallow embedding of [utils/rtloghandler.cpp], [utils/smtp/smtp_mime.cpp]
    and [utils/smtp/smtp_client.cpp], followed by the properties of the
    library's specification that were checked against it.

    Layout: the Qt primitives the sources rely on, the collaborators outside
    the library, the embedding of the three translation units, the
    vocabulary of the specification and of the proofs, then the theorems. *)

From Stdlib Require Import String DecimalString Init.Byte.
From Stdlib Require Import ZArith NArith Lia Bool List.
From Equations Require Import Equations.
Import ListNotations.

Local Open Scope Z_scope.

(* ===================================================================== *)
(** * Part I. Qt primitives                                                *)
(* ===================================================================== *)

Module Qt.

(** [QByteArray]: a sequence of 8-bit bytes. *)
Definition QByteArray := list byte.

(** [QChar] is one UTF-16 code unit (a value below 2^16); [QString] is a
    sequence of them, and [QString::size] counts code units. *)
Definition QChar := N.
Definition QString := list QChar.

(** [QByteArrayLiteral("...")] for printable ASCII text. *)
Definition ba (s : string) : QByteArray := list_byte_of_string s.

(** [QStringLiteral("...")] for printable ASCII text. *)
Definition qs (s : string) : QString := map Byte.to_N (list_byte_of_string s).

Definition CR : byte := x0d.
Definition LF : byte := x0a.
Definition CRLF : QByteArray := [CR; LF].
Definition DQUOTE : byte := x22.

(** [size()] as the C++ [int] it returns. *)
Definition size {A} (l : list A) : Z := Z.of_nat (length l).

Definition isEmpty {A} (l : list A) : bool :=
  match l with [] => true | _ :: _ => false end.

Definition byte_of_N (n : N) : byte :=
  match Byte.of_N (n mod 256)%N with Some b => b | None => x00 end.

(** [QByteArray::mid(pos, len)] and [QByteArray::left(len)]: both truncate at
    the end of the array. *)
Definition mid {A} (l : list A) (pos len : nat) : list A := firstn len (skipn pos l).
Definition left {A} (l : list A) (len : nat) : list A := firstn len l.

(** [QByteArray::at(i)]; the callers only index inside the array. *)
Definition at_ (l : QByteArray) (i : nat) : byte := nth i l x00.

Fixpoint bytes_eqb (a b : QByteArray) : bool :=
  match a, b with
  | [], [] => true
  | x :: a', y :: b' => Byte.eqb x y && bytes_eqb a' b'
  | _, _ => false
  end.

Fixpoint qstring_eqb (a b : QString) : bool :=
  match a, b with
  | [], [] => true
  | x :: a', y :: b' => N.eqb x y && qstring_eqb a' b'
  | _, _ => false
  end.

(** [QByteArray::toHex()]: two lowercase hexadecimal digits per byte. *)
Definition hexDigit (n : N) : byte :=
  if (n <? 10)%N then byte_of_N (48 + n) else byte_of_N (97 + (n - 10)).

Definition toHex (a : QByteArray) : QByteArray :=
  flat_map (fun c => [hexDigit (Byte.to_N c / 16); hexDigit (Byte.to_N c mod 16)]) a.

(** [QByteArray::toUpper()]: ASCII letters a-z are mapped to A-Z. *)
Definition upperByte (c : byte) : byte :=
  let n := Byte.to_N c in
  if ((97 <=? n) && (n <=? 122))%N then byte_of_N (n - 32) else c.

Definition toUpper (a : QByteArray) : QByteArray := map upperByte a.

(** [QByteArray::trimmed()]: whitespace removed from both ends. *)
Definition isSpace (c : byte) : bool :=
  let n := Byte.to_N c in (((9 <=? n) && (n <=? 13)) || (n =? 32))%N.

Fixpoint dropSpaces (a : QByteArray) : QByteArray :=
  match a with
  | [] => []
  | c :: a' => if isSpace c then dropSpaces a' else a
  end.

Definition trimmed (a : QByteArray) : QByteArray :=
  rev (dropSpaces (rev (dropSpaces a))).

(** [QByteArrayList::join(sep)]. *)
Fixpoint join (sep : QByteArray) (l : list QByteArray) : QByteArray :=
  match l with
  | [] => []
  | [w] => w
  | w :: l' => w ++ sep ++ join sep l'
  end.

(** [QString::toLatin1()]: code units above 255 become a question mark. *)
Definition toLatin1 (s : QString) : QByteArray :=
  map (fun c => if (c <? 256)%N then byte_of_N c else "?"%byte) s.

(** [QString::toUtf8()]: UTF-16 to UTF-8; a surrogate that is not part of a
    well-formed pair is encoded as a question mark. *)
Definition isHighSurrogate (c : QChar) : bool := ((55296 <=? c) && (c <? 56320))%N.
Definition isLowSurrogate (c : QChar) : bool := ((56320 <=? c) && (c <? 57344))%N.

Definition utf8_2 (c : N) : QByteArray :=
  [byte_of_N (192 + c / 64); byte_of_N (128 + c mod 64)].
Definition utf8_3 (c : N) : QByteArray :=
  [byte_of_N (224 + c / 4096); byte_of_N (128 + (c / 64) mod 64);
   byte_of_N (128 + c mod 64)].
Definition utf8_4 (c : N) : QByteArray :=
  [byte_of_N (240 + c / 262144); byte_of_N (128 + (c / 4096) mod 64);
   byte_of_N (128 + (c / 64) mod 64); byte_of_N (128 + c mod 64)].

Fixpoint toUtf8 (s : QString) : QByteArray :=
  match s with
  | [] => []
  | c :: s' =>
      if (c <? 128)%N then byte_of_N c :: toUtf8 s'
      else if (c <? 2048)%N then utf8_2 c ++ toUtf8 s'
      else if isHighSurrogate c then
        match s' with
        | c2 :: s'' =>
            if isLowSurrogate c2
            then utf8_4 (65536 + (c - 55296) * 1024 + (c2 - 56320)) ++ toUtf8 s''
            else "?"%byte :: toUtf8 s'
        | [] => ["?"%byte]
        end
      else if isLowSurrogate c then "?"%byte :: toUtf8 s'
      else utf8_3 c ++ toUtf8 s'
  end.

(** [QByteArray::toBase64()]: RFC 4648 alphabet, with padding. *)
Definition base64Char (n : N) : byte :=
  if (n <? 26)%N then byte_of_N (65 + n)
  else if (n <? 52)%N then byte_of_N (97 + (n - 26))
  else if (n <? 62)%N then byte_of_N (48 + (n - 52))
  else if (n =? 62)%N then "+"%byte else "/"%byte.

Fixpoint toBase64 (a : QByteArray) : QByteArray :=
  match a with
  | [] => []
  | [x] =>
      let n := Byte.to_N x in
      [base64Char (n / 4); base64Char ((n mod 4) * 16); "="%byte; "="%byte]
  | [x; y] =>
      let n := Byte.to_N x in
      let m := Byte.to_N y in
      [base64Char (n / 4); base64Char ((n mod 4) * 16 + m / 16);
       base64Char ((m mod 16) * 4); "="%byte]
  | x :: y :: z :: a' =>
      let n := Byte.to_N x in
      let m := Byte.to_N y in
      let k := Byte.to_N z in
      [base64Char (n / 4); base64Char ((n mod 4) * 16 + m / 16);
       base64Char ((m mod 16) * 4 + k / 64); base64Char (k mod 64)] ++ toBase64 a'
  end%N.

(** [QString::number(int)]: decimal digits, with a leading minus sign for a
    negative number. *)
Definition number (n : Z) : QString := qs (NilZero.string_of_int (Z.to_int n)).

(** [QString::startsWith]. *)
Fixpoint startsWith (s before : QString) : bool :=
  match before, s with
  | [], _ => true
  | b :: before', c :: s' => N.eqb b c && startsWith s' before'
  | _ :: _, [] => false
  end.

(** [QString::replace(before, after)]: every occurrence of [before], found
    scanning left to right, is replaced by [after]; the inserted text is not
    scanned again by the same call. [skip] counts the code units of an
    occurrence that are still to be dropped. *)
Fixpoint replace_from (before after s : QString) (skip : nat) : QString :=
  match s with
  | [] => []
  | c :: s' =>
      match skip with
      | S k => replace_from before after s' k
      | O =>
          if startsWith s before
          then after ++ replace_from before after s' (length before - 1)
          else c :: replace_from before after s' 0
      end
  end.

Definition replace (s before after : QString) : QString :=
  match before with
  | [] => after ++ flat_map (fun c => c :: after) s
  | _ :: _ => replace_from before after s 0
  end.

(** A place marker [%d] with a single digit 1..9 at the head of [s]. *)
Definition markerAt (s : QString) : option (nat * QString) :=
  match s with
  | 37%N :: d :: s' =>
      if ((49 <=? d) && (d <=? 57))%N then Some (N.to_nat (d - 48), s') else None
  | _ => None
  end.

(** [QString::arg(a1, a2, ...)], the multi-argument overload, for templates
    whose markers are [%1] .. [%9] and are all supplied: the template is
    scanned once and marker [%k] is replaced by the k-th argument; the
    inserted text is not scanned. A marker without an argument stays. *)
Fixpoint arg_from (s : QString) (args : list QString) (skip : nat) : QString :=
  match s with
  | [] => []
  | c :: s' =>
      match skip with
      | S k => arg_from s' args k
      | O =>
          match markerAt s with
          | Some (k, _) =>
              match nth_error args (k - 1) with
              | Some a => a ++ arg_from s' args 1
              | None => c :: arg_from s' args 0
              end
          | None => c :: arg_from s' args 0
          end
      end
  end.

Definition arg (s : QString) (args : list QString) : QString := arg_from s args 0.

End Qt.
Import Qt.

(* ===================================================================== *)
(** * Part II. Collaborators outside the library                           *)
(* ===================================================================== *)

(** What the sources obtain from the platform: regular-expression matching
    of [RexPatterns::Email], the wall clock, the UUID source, UTF-8 and
    Base64 decoding, and HMAC-MD5. The embedding is parametric in them. *)
Record Env := {
  (** [QRegularExpression(RexPatterns::Email).match(s).hasMatch()] *)
  rex_email : QString -> bool;
  (** [QDateTime::currentDateTime().toString(Qt::RFC2822Date).toLatin1()] *)
  currentDateTime : QByteArray;
  (** [QUuid::createUuid().toRfc4122()], for the n-th UUID drawn *)
  createUuid : nat -> QByteArray;
  (** [QString::fromUtf8] *)
  fromUtf8 : QByteArray -> QString;
  (** [QByteArray::fromBase64] *)
  fromBase64 : QByteArray -> QByteArray;
  (** [QMessageAuthenticationCode(Md5)] with [setKey key], [addData msg], [result()] *)
  hmac_md5 : QByteArray -> QByteArray -> QByteArray
}.

(* ===================================================================== *)
(** * Part III. utils/rtloghandler.cpp                                     *)
(* ===================================================================== *)

Inductive RTLogType := Debug | Warning | Critical | Fatal.

(** The members of [RTLogHandler] that formatting touches; the call context
    (file, line, function) is carried along by the source and not modelled. *)
Record RTLogHandler := {
  log_type : RTLogType;
  log_msg : QString;
  log_index : Z
}.

(** [RTLogHandler(context, type, msg)]: [index] starts at 0. *)
Definition RTLogHandler_new (t : RTLogType) (m : QString) : RTLogHandler :=
  {| log_type := t; log_msg := m; log_index := 0 |}.

(** [RTLogHandler::operator%(const QString&)] and
    [RTLogHandler::operator%(const char* )]:
    [msg.replace('%' + QString::number(++index), arg)]. *)
Definition RTLogHandler_arg (h : RTLogHandler) (a : QString) : RTLogHandler :=
  let index := log_index h + 1 in
  {| log_type := log_type h;
     log_msg := replace (log_msg h) (37%N :: number index) a;
     log_index := index |}.

(** [RT_DEBUG(tpl) % a1 % a2 % ...]: the operator is left associative. *)
Definition RTLogHandler_args (h : RTLogHandler) (args : list QString) : RTLogHandler :=
  fold_left RTLogHandler_arg args h.

(** What the destructor hands to the sink: severity and final message. *)
Record LogRecord := {
  rec_type : RTLogType;
  rec_msg : QString
}.

Definition RTLogHandler_emit (h : RTLogHandler) : LogRecord :=
  {| rec_type := log_type h; rec_msg := log_msg h |}.

(* ===================================================================== *)
(** * Part IV. utils/smtp/smtp_mime.cpp                                    *)
(* ===================================================================== *)

(** ** Private helpers *)

(** A byte read as the [qint8] the source iterates with. *)
Definition qint8 (c : byte) : Z :=
  let n := Z.of_N (Byte.to_N c) in if n <? 128 then n else n - 256.

Definition pn_needEscapeForQuotedPrintableEncoding (input : Z) : bool :=
  if (input >=? 48) && (input <=? 57) then false
  else if (input >=? 65) && (input <=? 90) then false
  else if (input >=? 97) && (input <=? 122) then false
  else true.

(** [chunks.last().append(c)]. *)
Fixpoint appendToLast (chunks : list QString) (c : QChar) : list QString :=
  match chunks with
  | [] => []
  | [k] => [k ++ [c]]
  | k :: chunks' => k :: appendToLast chunks' c
  end.

(** The body of the [for] loop of [pn_splitTextIntoChunks]. *)
Definition chunkStep (maxChunkSize : Z) (chunks : list QString) (charVal : QChar)
  : list QString :=
  let chunks :=
    if isEmpty chunks || (size (last chunks []) >=? maxChunkSize)
    then chunks ++ [[]] else chunks in
  appendToLast chunks charVal.

Definition pn_splitTextIntoChunks (text : QString) (maxChunkSize : Z) : list QString :=
  if isEmpty text then []
  else if (maxChunkSize <=? 0) || (maxChunkSize >=? size text) then [text]
  else fold_left (chunkStep maxChunkSize) text [].

(** ** MimeUtils *)

Definition MaxLineSize : Z := 76.
Definition MaxMimeWordSize : Z := 60.

Definition encodeQuotedPrintable (text : QString) : QByteArray :=
  if isEmpty text then []
  else
    fold_left
      (fun output inputChar =>
         if pn_needEscapeForQuotedPrintableEncoding (qint8 inputChar)
         then output ++ ("="%byte :: toUpper (toHex [inputChar]))
         else output ++ [inputChar])
      (toUtf8 text) [].

(** The loop of [formatQuotedPrintableIntoLines]; [fuel] bounds the number of
    iterations, each of which advances [ix] by at least one. The [int]
    counters are kept in [Z]: they stay below the line size plus three and
    the size of the input, far from the 32-bit limit. *)
Fixpoint formatQP_loop (fuel : nat) (encoded : QByteArray) (maxSrcCharsForLine : Z)
  (ix : nat) (lastLineSize : Z) (output : QByteArray) : QByteArray :=
  match fuel with
  | O => output
  | S fuel' =>
      if (ix <? length encoded)%nat then
        let requiredBytes := if Byte.eqb (at_ encoded ix) "="%byte then 3%nat else 1%nat in
        let overflow := (lastLineSize + Z.of_nat requiredBytes) >? maxSrcCharsForLine in
        let output := if overflow then output ++ ("="%byte :: CRLF) else output in
        let lastLineSize := if overflow then 0 else lastLineSize in
        formatQP_loop fuel' encoded maxSrcCharsForLine
          (ix + requiredBytes)%nat
          (lastLineSize + Z.of_nat requiredBytes)
          (output ++ mid encoded ix requiredBytes)
      else output
  end.

Definition formatQuotedPrintableIntoLines (encoded : QByteArray) (maxLineSize : Z)
  : QByteArray :=
  if maxLineSize <=? 0 then encoded
  else if isEmpty encoded then encoded
  else formatQP_loop (length encoded) encoded (maxLineSize - 1) 0 0 [].

Definition formatDataIntoLines (data : QByteArray) (maxLineSize : Z) : QByteArray :=
  if maxLineSize <=? 0 then data
  else if isEmpty data then data
  else
    fst (fold_left
           (fun '(output, lastLineSize) byteVal =>
              let overflow := lastLineSize >=? maxLineSize in
              let output := if overflow then output ++ CRLF else output in
              let lastLineSize := if overflow then 0 else lastLineSize in
              (output ++ [byteVal], lastLineSize + 1))
           data ([], 0)).

(** One encoded word of [encodeMimeWordQ] resp. [encodeMimeWordB]. *)
Definition mimeWordQ (textChunk : QString) : QByteArray :=
  ba "=?utf-8?Q?" ++ encodeQuotedPrintable textChunk ++ ba "?=".

Definition mimeWordB (textChunk : QString) : QByteArray :=
  ba "=?utf-8?B?" ++ toBase64 (toUtf8 textChunk) ++ ba "?=".

(** The body of the inner [for] loop: the word of one chunk is appended and
    the size of the longest word is updated. *)
Definition wordStep (word : QString -> QByteArray) (acc : list QByteArray * Z)
  (textChunk : QString) : list QByteArray * Z :=
  let w := word textChunk in
  (fst acc ++ [w], Z.max (snd acc) (size w)).

(** The inner [for] loop: [words] and [longestWordSize] after all chunks. *)
Definition encodeWords (word : QString -> QByteArray) (chunks : list QString)
  : list QByteArray * Z :=
  fold_left (wordStep word) chunks ([], 0).

(** [maxEncodedTextSize = (maxEncodedTextSize / 2) + (maxEncodedTextSize % 2)],
    with the truncating division of C++. *)
Definition reduceSize (maxEncodedTextSize : Z) : Z :=
  Z.quot maxEncodedTextSize 2 + Z.rem maxEncodedTextSize 2.

Lemma reduceSize_lt (n : Z) : 1 < n -> 0 < reduceSize n < n.
Proof.
  intros H. unfold reduceSize.
  rewrite Z.quot_div_nonneg, Z.rem_mod_nonneg by lia.
  pose proof (Z.div_mod n 2 ltac:(lia)).
  pose proof (Z.mod_pos_bound n 2 ltac:(lia)). lia.
Qed.

(** A value together with the equation that names it, so that the test of the
    loop is available to the termination proof. *)
Definition inspect {A} (a : A) : {b : A | a = b} := exist _ a eq_refl.

(** The [while (true)] loop shared by [encodeMimeWordQ] and [encodeMimeWordB]
    (the two bodies differ only in how a chunk becomes a word). *)
Equations? encodeMimeWord_loop (word : QString -> QByteArray) (text : QString)
  (maxWordSize : Z) (maxEncodedTextSize : Z) : QByteArray
  by wf (Z.to_nat maxEncodedTextSize) lt :=
encodeMimeWord_loop word text maxWordSize maxEncodedTextSize
  with inspect ((snd (encodeWords word (pn_splitTextIntoChunks text maxEncodedTextSize))
                   <=? maxWordSize) || (maxEncodedTextSize <=? 1)) => {
  | exist _ true _ :=
      join (CR :: LF :: ba " ")
        (fst (encodeWords word (pn_splitTextIntoChunks text maxEncodedTextSize)));
  | exist _ false Hgo :=
      encodeMimeWord_loop word text maxWordSize (reduceSize maxEncodedTextSize) }.
Proof.
  apply orb_false_iff in Hgo. destruct Hgo as [_ Hgo].
  apply Z.leb_gt in Hgo. pose proof (reduceSize_lt _ Hgo). lia.
Qed.

Definition encodeMimeWordQ (text : QString) (maxWordSize : Z) : QByteArray :=
  if isEmpty text then []
  else encodeMimeWord_loop mimeWordQ text maxWordSize (size text).

Definition encodeMimeWordB (text : QString) (maxWordSize : Z) : QByteArray :=
  if isEmpty text then []
  else encodeMimeWord_loop mimeWordB text maxWordSize (size text).

(** ** A state monad for the code that writes to a device or a socket *)

Definition ST (S A : Type) : Type := S -> A * S.

Definition ret {S A} (a : A) : ST S A := fun s => (a, s).

Definition bind {S A B} (c : ST S A) (k : A -> ST S B) : ST S B :=
  fun s => k (fst (c s)) (snd (c s)).

Declare Scope st_scope.
Delimit Scope st_scope with st.

Notation "x <- c ;; k" := (bind c (fun x => k))
  (at level 61, c at next level, right associativity) : st_scope.
Notation "c ;; k" := (bind c (fun _ => k))
  (at level 61, right associativity) : st_scope.
(** [if (!c) return f; k] *)
Notation "'unless' c 'fail' f ;; k" := (bind c (fun ok : bool => if ok then k else f))
  (at level 61, c at next level, f at next level, right associativity) : st_scope.
(** [if (!c) return false; k] *)
Notation "'check' c ;; k" := (bind c (fun ok : bool => if ok then k else ret false))
  (at level 61, c at next level, right associativity) : st_scope.

Local Open Scope st_scope.

(** ** The device written to *)

(** A [QIODevice] opened for writing: the bytes it holds and how many more it
    takes ([None]: no limit, as for a [QBuffer]). [write] returns the number
    of bytes it took. *)
Record QIODevice := {
  dev_data : QByteArray;
  dev_room : option nat
}.

Definition QIODevice_write (dev : QIODevice) (data : QByteArray) : Z * QIODevice :=
  match dev_room dev with
  | None => (size data, {| dev_data := dev_data dev ++ data; dev_room := None |})
  | Some room =>
      let taken := firstn room data in
      (size taken,
       {| dev_data := dev_data dev ++ taken;
          dev_room := Some (room - length taken)%nat |})
  end.

(** What serialisation reads and changes: the device, and how many UUIDs the
    process has drawn. *)
Record WriterState := {
  ws_dev : QIODevice;
  ws_uuids : nat
}.

Definition writeDataToDev (data : QByteArray) : ST WriterState bool :=
  fun st =>
    let r := QIODevice_write (ws_dev st) data in
    (fst r =? size data, {| ws_dev := snd r; ws_uuids := ws_uuids st |}).

(** [QUuid::createUuid().toRfc4122().toHex()] *)
Definition newBoundary (E : Env) : ST WriterState QByteArray :=
  fun st =>
    (toHex (createUuid E (ws_uuids st)),
     {| ws_dev := ws_dev st; ws_uuids := S (ws_uuids st) |}).

(** ** EmailAddress *)

Record EmailAddress := {
  d_email : QString;
  d_name : QString
}.

Definition EmailAddress_isEmpty (a : EmailAddress) : bool :=
  isEmpty (d_email a) && isEmpty (d_name a).

Definition EmailAddress_isValid (E : Env) (a : EmailAddress) : bool :=
  if EmailAddress_isEmpty a then false else rex_email E (d_email a).

Definition encodeEmailAddress (E : Env) (email : EmailAddress) (maxWordSize : Z)
  : QByteArray :=
  if negb (EmailAddress_isValid E email) then []
  else
    let encoded := [] in
    let encoded :=
      if negb (isEmpty (d_name email))
      then encoded ++ encodeMimeWordQ (d_name email) maxWordSize ++ (CR :: LF :: ba " <")
      else encoded in
    let encoded := encoded ++ toLatin1 (d_email email) in
    if negb (isEmpty (d_name email)) then encoded ++ ba ">" else encoded.

Definition encodeEmailAddresses (E : Env) (emails : list EmailAddress) (maxWordSize : Z)
  : QByteArray :=
  if isEmpty emails then []
  else if negb (forallb (EmailAddress_isValid E) emails) then []
  else
    snd (fold_left
           (fun '(ix, encoded) email =>
              let encoded := if ix >=? 1 then encoded ++ ba "," ++ CRLF ++ ba " " else encoded in
              (ix + 1, encoded ++ encodeEmailAddress E email maxWordSize))
           emails (0, [])).

(** ** MimePart and its subclasses *)

Inductive ContentTransferEncoding :=
| ContentNotEncoded
| ContentBase64Encoded
| ContentQuotedPrintableEncoded.

(** The members of the base class [MimePart]. *)
Record MimePartData := {
  d_contentType : QByteArray;
  d_contentName : QByteArray;
  d_contentCharset : QByteArray;
  d_contentEncoding : ContentTransferEncoding
}.

Inductive Disposition := NoDisposition | DisposeInline | DisposeAsAttachment.

(** The class hierarchy as a sum: each constructor carries the base-class
    members and the members of the subclass. [MimeInlineFile] and
    [MimeAttachmentFile] are [MimeFile] with their disposition set. *)
#[warnings="-register-all"]
Inductive MimePart :=
| MimeText (base : MimePartData) (d_text : QString)
| MimeHtml (base : MimePartData) (d_html : QString)
| MimeFile (base : MimePartData) (d_fileContent : QByteArray) (d_disposition : Disposition)
| MimeMultiPartMixed (base : MimePartData) (d_parts : list MimePart).

Definition MimePart_base (p : MimePart) : MimePartData :=
  match p with
  | MimeText b _ | MimeHtml b _ | MimeFile b _ _ | MimeMultiPartMixed b _ => b
  end.

(** [MimePart(contentType)] *)
Definition MimePartData_new (contentType : QByteArray) : MimePartData :=
  {| d_contentType := contentType; d_contentName := []; d_contentCharset := [];
     d_contentEncoding := ContentNotEncoded |}.

Definition setContentCharset (b : MimePartData) (charset : QByteArray) : MimePartData :=
  {| d_contentType := d_contentType b; d_contentName := d_contentName b;
     d_contentCharset := charset; d_contentEncoding := d_contentEncoding b |}.

Definition setContentTransferEncoding (b : MimePartData) (enc : ContentTransferEncoding)
  : MimePartData :=
  {| d_contentType := d_contentType b; d_contentName := d_contentName b;
     d_contentCharset := d_contentCharset b; d_contentEncoding := enc |}.

(** [MimeText::MimeText(text)] *)
Definition MimeText_new (text : QString) : MimePart :=
  MimeText
    (setContentTransferEncoding
       (setContentCharset (MimePartData_new (ba "text/plain")) (ba "UTF-8"))
       ContentQuotedPrintableEncoded)
    text.

(** [MimeHtml::MimeHtml(html)] *)
Definition MimeHtml_new (html : QString) : MimePart :=
  MimeHtml
    (setContentTransferEncoding
       (setContentCharset (MimePartData_new (ba "text/html")) (ba "UTF-8"))
       ContentQuotedPrintableEncoded)
    html.

(** [MimeMultiPartMixed::MimeMultiPartMixed()] *)
Definition MimeMultiPartMixed_new : MimePart :=
  MimeMultiPartMixed (MimePartData_new (ba "multipart/mixed")) [].

Definition writeStdHeadersToDev (b : MimePartData) (boundary : QByteArray)
  : ST WriterState bool :=
  if isEmpty (d_contentType b) then ret false
  else
    let fullContentType := ba "Content-Type: " ++ d_contentType b in
    let fullContentType :=
      if negb (isEmpty (d_contentName b))
      then fullContentType ++ ba ";" ++ CRLF ++ ba "  name=" ++ [DQUOTE] ++ d_contentName b ++ [DQUOTE]
      else fullContentType in
    let fullContentType :=
      if negb (isEmpty (d_contentCharset b))
      then fullContentType ++ ba ";" ++ CRLF ++ ba "  charset=" ++ d_contentCharset b
      else fullContentType in
    let fullContentType :=
      if negb (isEmpty boundary)
      then fullContentType ++ ba ";" ++ CRLF ++ ba "  boundary=" ++ boundary
      else fullContentType in
    let fullContentType := fullContentType ++ CRLF in
    check writeDataToDev fullContentType ;;
    let encoding :=
      match d_contentEncoding b with
      | ContentBase64Encoded => ba "Content-Transfer-Encoding: base64" ++ CRLF
      | ContentQuotedPrintableEncoded =>
          ba "Content-Transfer-Encoding: quoted-printable" ++ CRLF
      | ContentNotEncoded => []
      end in
    if negb (isEmpty encoding) then
      check writeDataToDev encoding ;; ret true
    else ret true.

(** [MimeText::writeToDev], [MimeHtml::writeToDev], [MimeFile::writeToDev] and
    [MimeMultiPartMixed::writeToDev], dispatched on the dynamic type. *)
Fixpoint MimePart_writeToDev (E : Env) (p : MimePart) : ST WriterState bool :=
  match p with
  | MimeText base d_text =>
      if isEmpty d_text then ret false
      else
        check writeStdHeadersToDev base [] ;;
        check writeDataToDev CRLF ;;
        let encodedText := encodeQuotedPrintable d_text in
        check writeDataToDev (formatQuotedPrintableIntoLines encodedText MaxLineSize) ;;
        check writeDataToDev CRLF ;;
        ret true
  | MimeHtml base d_html =>
      if isEmpty d_html then ret false
      else
        check writeStdHeadersToDev base [] ;;
        check writeDataToDev CRLF ;;
        let encodedText := encodeQuotedPrintable d_html in
        check writeDataToDev (formatQuotedPrintableIntoLines encodedText MaxLineSize) ;;
        check writeDataToDev CRLF ;;
        ret true
  | MimeFile base d_fileContent d_disposition =>
      (* fileName() is contentName() *)
      if isEmpty (d_contentName base) || isEmpty d_fileContent then ret false
      else
        check writeStdHeadersToDev base [] ;;
        let dispositionVal :=
          match d_disposition with
          | DisposeAsAttachment =>
              ba "Content-Disposition: attachment;" ++ CRLF ++ ba "  filename="
                ++ [DQUOTE] ++ d_contentName base ++ [DQUOTE] ++ CRLF
          | DisposeInline => ba "Content-Disposition: inline" ++ CRLF
          | NoDisposition => []
          end in
        check (if negb (isEmpty dispositionVal)
               then writeDataToDev dispositionVal else ret true) ;;
        check writeDataToDev CRLF ;;
        check writeDataToDev (formatDataIntoLines (toBase64 d_fileContent) MaxLineSize) ;;
        check writeDataToDev CRLF ;;
        ret true
  | MimeMultiPartMixed base d_parts =>
      if isEmpty d_parts then ret false
      else if size d_parts =? 1 then
        match d_parts with
        | first :: _ => MimePart_writeToDev E first
        | [] => ret false
        end
      else
        boundaryStr <- newBoundary E ;;
        let boundaryPrefix := ba "--" ++ boundaryStr ++ CRLF in
        let boundarySuffix := ba "--" ++ boundaryStr ++ ba "--" ++ CRLF in
        check writeStdHeadersToDev base boundaryStr ;;
        check writeDataToDev CRLF ;;
        check (fix each (parts : list MimePart) : ST WriterState bool :=
                 match parts with
                 | [] => ret true
                 | part :: parts' =>
                     check writeDataToDev boundaryPrefix ;;
                     check MimePart_writeToDev E part ;;
                     each parts'
                 end) d_parts ;;
        check writeDataToDev boundarySuffix ;;
        ret true
  end.

(** ** MimeMessage *)

(** [d_messageBody] is a pointer to the part that [setMessageBodyText] or
    [setMessageBodyHtml] put first in [d_multiPart]. The class hands out no
    reference to that part or to [d_multiPart], so the pointee never changes
    after construction and the pointer is modelled by the part's value
    ([None] for [nullptr]); that it equals the first part is the invariant
    [MimeMessage_inv] below. *)
Record MimeMessage := {
  d_senderAddress : EmailAddress;
  d_replyToAddress : EmailAddress;
  d_toAddresses : list EmailAddress;
  d_ccAddresses : list EmailAddress;
  d_messageSubject : QString;
  d_messageBody : option MimePart;
  d_multiPart : MimePart
}.

Definition EmailAddress_new : EmailAddress := {| d_email := []; d_name := [] |}.

(** [MimeMessage() = default] *)
Definition MimeMessage_new : MimeMessage :=
  {| d_senderAddress := EmailAddress_new; d_replyToAddress := EmailAddress_new;
     d_toAddresses := []; d_ccAddresses := []; d_messageSubject := [];
     d_messageBody := None; d_multiPart := MimeMultiPartMixed_new |}.

(** [d_multiPart.parts()] and an update of it. *)
Definition parts (mp : MimePart) : list MimePart :=
  match mp with MimeMultiPartMixed _ ps => ps | _ => [] end.

Definition withParts (mp : MimePart) (f : list MimePart -> list MimePart) : MimePart :=
  match mp with MimeMultiPartMixed b ps => MimeMultiPartMixed b (f ps) | _ => mp end.

Definition setSenderAddress (m : MimeMessage) (sender : EmailAddress) : MimeMessage :=
  {| d_senderAddress := sender; d_replyToAddress := d_replyToAddress m;
     d_toAddresses := d_toAddresses m; d_ccAddresses := d_ccAddresses m;
     d_messageSubject := d_messageSubject m; d_messageBody := d_messageBody m;
     d_multiPart := d_multiPart m |}.

Definition setReplyToAddress (m : MimeMessage) (replyTo : EmailAddress) : MimeMessage :=
  {| d_senderAddress := d_senderAddress m; d_replyToAddress := replyTo;
     d_toAddresses := d_toAddresses m; d_ccAddresses := d_ccAddresses m;
     d_messageSubject := d_messageSubject m; d_messageBody := d_messageBody m;
     d_multiPart := d_multiPart m |}.

Definition setToRecipients (m : MimeMessage) (to : list EmailAddress) : MimeMessage :=
  {| d_senderAddress := d_senderAddress m; d_replyToAddress := d_replyToAddress m;
     d_toAddresses := to; d_ccAddresses := d_ccAddresses m;
     d_messageSubject := d_messageSubject m; d_messageBody := d_messageBody m;
     d_multiPart := d_multiPart m |}.

Definition addToRecipient (m : MimeMessage) (to : EmailAddress) : MimeMessage :=
  setToRecipients m (d_toAddresses m ++ [to]).

Definition setCcRecipients (m : MimeMessage) (cc : list EmailAddress) : MimeMessage :=
  {| d_senderAddress := d_senderAddress m; d_replyToAddress := d_replyToAddress m;
     d_toAddresses := d_toAddresses m; d_ccAddresses := cc;
     d_messageSubject := d_messageSubject m; d_messageBody := d_messageBody m;
     d_multiPart := d_multiPart m |}.

Definition addCcRecipient (m : MimeMessage) (cc : EmailAddress) : MimeMessage :=
  setCcRecipients m (d_ccAddresses m ++ [cc]).

Definition setMessageSubject (m : MimeMessage) (text : QString) : MimeMessage :=
  {| d_senderAddress := d_senderAddress m; d_replyToAddress := d_replyToAddress m;
     d_toAddresses := d_toAddresses m; d_ccAddresses := d_ccAddresses m;
     d_messageSubject := text; d_messageBody := d_messageBody m;
     d_multiPart := d_multiPart m |}.

Definition setBody (m : MimeMessage) (body : option MimePart) (mp : MimePart)
  : MimeMessage :=
  {| d_senderAddress := d_senderAddress m; d_replyToAddress := d_replyToAddress m;
     d_toAddresses := d_toAddresses m; d_ccAddresses := d_ccAddresses m;
     d_messageSubject := d_messageSubject m; d_messageBody := body;
     d_multiPart := mp |}.

(** The first half of both body setters: [if (d_messageBody) { dropFirst();
    d_messageBody = nullptr; }]. *)
Definition dropBody (m : MimeMessage) : MimeMessage :=
  match d_messageBody m with
  | Some _ => setBody m None (withParts (d_multiPart m) (@tl MimePart))
  | None => m
  end.

Definition setMessageBodyText (m : MimeMessage) (text : QString) : MimeMessage :=
  let m := dropBody m in
  if negb (isEmpty text) then
    let body := MimeText_new text in
    setBody m (Some body) (withParts (d_multiPart m) (cons body))
  else m.

Definition setMessageBodyHtml (m : MimeMessage) (html : QString) : MimeMessage :=
  let m := dropBody m in
  if negb (isEmpty html) then
    let body := MimeHtml_new html in
    setBody m (Some body) (withParts (d_multiPart m) (cons body))
  else m.

(** [dynamic_cast<MimeText*>(d_messageBody)] and its HTML twin. *)
Definition messageBodyText (m : MimeMessage) : QString :=
  match d_messageBody m with Some (MimeText _ t) => t | _ => [] end.

Definition messageBodyHtml (m : MimeMessage) : QString :=
  match d_messageBody m with Some (MimeHtml _ t) => t | _ => [] end.

(** [addMimePart(part)]: [d_multiPart.appendPart(part)]. *)
Definition addMimePart (m : MimeMessage) (part : MimePart) : MimeMessage :=
  setBody m (d_messageBody m) (withParts (d_multiPart m) (fun ps => ps ++ [part])).

Definition MimeMessage_isValid (E : Env) (m : MimeMessage) : bool :=
  if negb (EmailAddress_isValid E (d_senderAddress m)) then false
  else if negb (EmailAddress_isEmpty (d_replyToAddress m))
          && negb (EmailAddress_isValid E (d_replyToAddress m)) then false
  else if isEmpty (d_toAddresses m) then false
  else if negb (forallb (EmailAddress_isValid E) (d_toAddresses m)) then false
  else if negb (forallb (EmailAddress_isValid E) (d_ccAddresses m)) then false
  else if isEmpty (d_messageSubject m) then false
  else if isEmpty (messageBodyText m) && isEmpty (messageBodyHtml m) then false
  else true.

(** The header block that [MimeMessage::writeToDev] assembles. *)
Definition MimeMessage_header (E : Env) (m : MimeMessage) : QByteArray :=
  let msgHeader := ba "MIME-Version: 1.0" ++ CRLF in
  let msgHeader := msgHeader ++ ba "Date: " ++ currentDateTime E ++ CRLF in
  let msgHeader :=
    if negb (EmailAddress_isEmpty (d_senderAddress m))
    then msgHeader ++ ba "From: "
           ++ encodeEmailAddress E (d_senderAddress m) MaxMimeWordSize ++ CRLF
    else msgHeader in
  let msgHeader :=
    if negb (EmailAddress_isEmpty (d_replyToAddress m))
    then msgHeader ++ ba "Reply-To: "
           ++ encodeEmailAddress E (d_replyToAddress m) MaxMimeWordSize ++ CRLF
    else msgHeader in
  let msgHeader :=
    if negb (isEmpty (d_toAddresses m))
    then msgHeader ++ ba "To: "
           ++ encodeEmailAddresses E (d_toAddresses m) MaxMimeWordSize ++ CRLF
    else msgHeader in
  let msgHeader :=
    if negb (isEmpty (d_ccAddresses m))
    then msgHeader ++ ba "Cc: "
           ++ encodeEmailAddresses E (d_ccAddresses m) MaxMimeWordSize ++ CRLF
    else msgHeader in
  if negb (isEmpty (d_messageSubject m))
  then msgHeader ++ ba "Subject: "
         ++ encodeMimeWordQ (d_messageSubject m) MaxMimeWordSize ++ CRLF
  else msgHeader.

Definition MimeMessage_writeToDev (E : Env) (m : MimeMessage) : ST WriterState bool :=
  if negb (MimeMessage_isValid E m) then ret false
  else
    check writeDataToDev (MimeMessage_header E m) ;;
    check MimePart_writeToDev E (d_multiPart m) ;;
    check writeDataToDev (CRLF ++ ba "." ++ CRLF) ;;
    ret true.

(** The messages a caller can build: the default constructor followed by
    calls of the public mutators. *)
Inductive MimeMessage_built : MimeMessage -> Prop :=
| built_new : MimeMessage_built MimeMessage_new
| built_sender m a : MimeMessage_built m -> MimeMessage_built (setSenderAddress m a)
| built_replyTo m a : MimeMessage_built m -> MimeMessage_built (setReplyToAddress m a)
| built_to m l : MimeMessage_built m -> MimeMessage_built (setToRecipients m l)
| built_cc m l : MimeMessage_built m -> MimeMessage_built (setCcRecipients m l)
| built_subject m t : MimeMessage_built m -> MimeMessage_built (setMessageSubject m t)
| built_text m t : MimeMessage_built m -> MimeMessage_built (setMessageBodyText m t)
| built_html m t : MimeMessage_built m -> MimeMessage_built (setMessageBodyHtml m t)
| built_part m p : MimeMessage_built m -> MimeMessage_built (addMimePart m p).

(** An accept-all device with nothing written yet. *)
Definition emptyBuffer : WriterState :=
  {| ws_dev := {| dev_data := []; dev_room := None |}; ws_uuids := 0 |}.

(** An instance of the collaborators, for running the model: the address
    pattern [^[A-Za-z0-9._%+-]+@[A-Za-z0-9.-]+\.[A-Za-z]+$] on ASCII input
    without a trailing newline, a fixed clock, UUIDs that count up, and
    stand-ins for the decoders and the MAC. *)
Definition isAlpha (c : QChar) : bool :=
  (((65 <=? c) && (c <=? 90)) || ((97 <=? c) && (c <=? 122)))%N.
Definition isDigit (c : QChar) : bool := ((48 <=? c) && (c <=? 57))%N.
Definition isLocalChar (c : QChar) : bool :=
  isAlpha c || isDigit c || existsb (N.eqb c) (qs "._%+-").
Definition isDomainChar (c : QChar) : bool :=
  isAlpha c || isDigit c || existsb (N.eqb c) (qs ".-").

(** Splits at the last occurrence of [sep]. *)
Fixpoint splitLast (sep : QChar) (s : QString) : option (QString * QString) :=
  match s with
  | [] => None
  | c :: s' =>
      match splitLast sep s' with
      | Some (a, b) => Some (c :: a, b)
      | None => if N.eqb c sep then Some ([], s') else None
      end
  end.

Definition sampleEmailMatch (s : QString) : bool :=
  match splitLast 64%N s with
  | Some (loc, dom) =>
      negb (isEmpty loc) && forallb isLocalChar loc &&
      match splitLast 46%N dom with
      | Some (host, tld) =>
          negb (isEmpty host) && forallb isDomainChar host &&
          negb (isEmpty tld) && forallb isAlpha tld
      | None => false
      end
  | None => false
  end.

Definition sampleEnv : Env :=
  {| rex_email := sampleEmailMatch;
     currentDateTime := ba "Fri, 30 Oct 2026 10:00:00 +0000";
     createUuid := fun n => repeat (byte_of_N (N.of_nat n)) 16;
     fromUtf8 := map Byte.to_N;
     fromBase64 := fun a => a;
     hmac_md5 := fun _ _ => repeat x00 16 |}.

Definition sampleMessage : MimeMessage :=
  setMessageBodyText
    (setMessageSubject
       (addToRecipient
          (setSenderAddress MimeMessage_new {| d_email := qs "a@b.co"; d_name := qs "Ann" |})
          {| d_email := qs "c@d.co"; d_name := [] |})
       (qs "Hello"))
    (qs "hi").

(* ===================================================================== *)
(** * Part V. utils/smtp/smtp_client.cpp                                   *)
(* ===================================================================== *)

Inductive Status := ST_Disconnected | ST_Connected.
Inductive AuthMethod := AuthNone | AuthPlain | AuthLogin | AuthCramMd5.
Inductive ConnectionType :=
| UnknownConnection | TcpConnection | SslConnection | TlsConnection.

Definition Status_eqb (a b : Status) : bool :=
  match a, b with
  | ST_Disconnected, ST_Disconnected | ST_Connected, ST_Connected => true
  | _, _ => false
  end.

Definition AuthMethod_eqb (a b : AuthMethod) : bool :=
  match a, b with
  | AuthNone, AuthNone | AuthPlain, AuthPlain
  | AuthLogin, AuthLogin | AuthCramMd5, AuthCramMd5 => true
  | _, _ => false
  end.

Definition ConnectionType_eqb (a b : ConnectionType) : bool :=
  match a, b with
  | UnknownConnection, UnknownConnection | TcpConnection, TcpConnection
  | SslConnection, SslConnection | TlsConnection, TlsConnection => true
  | _, _ => false
  end.

(** ** The socket *)

(** What one blocking wait for input brings: complete lines (possibly none),
    or nothing before the timeout. *)
Inductive PeerEvent :=
| Arrives (lines : list QByteArray)
| TimesOut.

(** A write as seen on the wire, with the lines that were buffered for reading
    when it was made (kept for the statement of the send invariant). *)
Record WireWrite := {
  ww_data : QByteArray;
  ww_pending : list QByteArray
}.

(** A [QTcpSocket] / [QSslSocket] and the peer behind it. Input reaches the
    read buffer only inside a blocking wait, as in Qt without a running event
    loop. [close()] also drops the read buffer. *)
Record QTcpSocket := {
  sk_open : bool;
  sk_connects : bool;                (* outcome of waitForConnected *)
  sk_encrypts : bool;                (* outcome of waitForEncrypted *)
  sk_errorString : QString;
  sk_readBuffer : list QByteArray;   (* complete lines, oldest first *)
  sk_peer : list PeerEvent;          (* what the coming waits will bring *)
  sk_written : list WireWrite        (* everything written so far *)
}.

Definition QTcpSocket_new (connects encrypts : bool) (peer : list PeerEvent) : QTcpSocket :=
  {| sk_open := false; sk_connects := connects; sk_encrypts := encrypts;
     sk_errorString := []; sk_readBuffer := []; sk_peer := peer; sk_written := [] |}.

Definition sk_canReadLine (sk : QTcpSocket) : bool := negb (isEmpty (sk_readBuffer sk)).

Definition sk_readLine (sk : QTcpSocket) : QByteArray * QTcpSocket :=
  (hd [] (sk_readBuffer sk),
   {| sk_open := sk_open sk; sk_connects := sk_connects sk; sk_encrypts := sk_encrypts sk;
      sk_errorString := sk_errorString sk; sk_readBuffer := tl (sk_readBuffer sk);
      sk_peer := sk_peer sk; sk_written := sk_written sk |}).

Definition sk_write (data : QByteArray) (sk : QTcpSocket) : unit * QTcpSocket :=
  (tt,
   {| sk_open := sk_open sk; sk_connects := sk_connects sk; sk_encrypts := sk_encrypts sk;
      sk_errorString := sk_errorString sk; sk_readBuffer := sk_readBuffer sk;
      sk_peer := sk_peer sk;
      sk_written := sk_written sk
                      ++ [{| ww_data := data; ww_pending := sk_readBuffer sk |}] |}).

Definition sk_close (sk : QTcpSocket) : unit * QTcpSocket :=
  (tt,
   {| sk_open := false; sk_connects := sk_connects sk; sk_encrypts := sk_encrypts sk;
      sk_errorString := sk_errorString sk; sk_readBuffer := [];
      sk_peer := sk_peer sk; sk_written := sk_written sk |}).

(** [connectToHost] / [connectToHostEncrypted] followed by [waitForConnected]. *)
Definition sk_waitForConnected (sk : QTcpSocket) : bool * QTcpSocket :=
  (sk_connects sk,
   {| sk_open := sk_connects sk; sk_connects := sk_connects sk;
      sk_encrypts := sk_encrypts sk; sk_errorString := sk_errorString sk;
      sk_readBuffer := sk_readBuffer sk; sk_peer := sk_peer sk;
      sk_written := sk_written sk |}).

(** [startClientEncryption] followed by [waitForEncrypted]. *)
Definition sk_waitForEncrypted (sk : QTcpSocket) : bool * QTcpSocket :=
  (sk_encrypts sk, sk).

(** [waitForReadyRead] when the peer's next move is [ev] and [rest] is what
    it does afterwards. *)
Definition sk_waitForReadyRead (ev : PeerEvent) (rest : list PeerEvent) (sk : QTcpSocket)
  : bool * QTcpSocket :=
  (match ev with Arrives _ => true | TimesOut => false end,
   {| sk_open := sk_open sk; sk_connects := sk_connects sk; sk_encrypts := sk_encrypts sk;
      sk_errorString := sk_errorString sk;
      sk_readBuffer :=
        match ev with
        | Arrives lines => sk_readBuffer sk ++ lines
        | TimesOut => sk_readBuffer sk
        end;
      sk_peer := rest; sk_written := sk_written sk |}).

(** ** Client::PrivateData *)

Record PrivateData := {
  status : Status;
  serverHost : QString;
  serverPort : Z;
  clientHost : QString;
  connectionType : ConnectionType;
  accountUsername : QString;
  accountPassword : QString;
  authMethod : AuthMethod;
  connectionTimout : Z;
  responseTimeout : Z;
  sendTimeout : Z;
  socket : option QTcpSocket;
  logSocketTraffic : bool
}.

(** [new PrivateData()], given [QHostInfo::localHostName()]. *)
Definition PrivateData_new (localHostName : QString) : PrivateData :=
  {| status := ST_Disconnected; serverHost := []; serverPort := 0;
     clientHost := localHostName; connectionType := UnknownConnection;
     accountUsername := []; accountPassword := []; authMethod := AuthNone;
     connectionTimout := 15000; responseTimeout := 15000; sendTimeout := 60000;
     socket := None; logSocketTraffic := false |}.

Definition set_status (d : PrivateData) (v : Status) : PrivateData :=
  {| status := v; serverHost := serverHost d; serverPort := serverPort d;
     clientHost := clientHost d; connectionType := connectionType d;
     accountUsername := accountUsername d; accountPassword := accountPassword d;
     authMethod := authMethod d; connectionTimout := connectionTimout d;
     responseTimeout := responseTimeout d; sendTimeout := sendTimeout d;
     socket := socket d; logSocketTraffic := logSocketTraffic d |}.

Definition set_serverHost (d : PrivateData) (v : QString) : PrivateData :=
  {| status := status d; serverHost := v; serverPort := serverPort d;
     clientHost := clientHost d; connectionType := connectionType d;
     accountUsername := accountUsername d; accountPassword := accountPassword d;
     authMethod := authMethod d; connectionTimout := connectionTimout d;
     responseTimeout := responseTimeout d; sendTimeout := sendTimeout d;
     socket := socket d; logSocketTraffic := logSocketTraffic d |}.

Definition set_serverPort (d : PrivateData) (v : Z) : PrivateData :=
  {| status := status d; serverHost := serverHost d; serverPort := v;
     clientHost := clientHost d; connectionType := connectionType d;
     accountUsername := accountUsername d; accountPassword := accountPassword d;
     authMethod := authMethod d; connectionTimout := connectionTimout d;
     responseTimeout := responseTimeout d; sendTimeout := sendTimeout d;
     socket := socket d; logSocketTraffic := logSocketTraffic d |}.

Definition set_clientHost (d : PrivateData) (v : QString) : PrivateData :=
  {| status := status d; serverHost := serverHost d; serverPort := serverPort d;
     clientHost := v; connectionType := connectionType d;
     accountUsername := accountUsername d; accountPassword := accountPassword d;
     authMethod := authMethod d; connectionTimout := connectionTimout d;
     responseTimeout := responseTimeout d; sendTimeout := sendTimeout d;
     socket := socket d; logSocketTraffic := logSocketTraffic d |}.

Definition set_connectionType (d : PrivateData) (v : ConnectionType) : PrivateData :=
  {| status := status d; serverHost := serverHost d; serverPort := serverPort d;
     clientHost := clientHost d; connectionType := v;
     accountUsername := accountUsername d; accountPassword := accountPassword d;
     authMethod := authMethod d; connectionTimout := connectionTimout d;
     responseTimeout := responseTimeout d; sendTimeout := sendTimeout d;
     socket := socket d; logSocketTraffic := logSocketTraffic d |}.

Definition set_accountUsername (d : PrivateData) (v : QString) : PrivateData :=
  {| status := status d; serverHost := serverHost d; serverPort := serverPort d;
     clientHost := clientHost d; connectionType := connectionType d;
     accountUsername := v; accountPassword := accountPassword d;
     authMethod := authMethod d; connectionTimout := connectionTimout d;
     responseTimeout := responseTimeout d; sendTimeout := sendTimeout d;
     socket := socket d; logSocketTraffic := logSocketTraffic d |}.

Definition set_accountPassword (d : PrivateData) (v : QString) : PrivateData :=
  {| status := status d; serverHost := serverHost d; serverPort := serverPort d;
     clientHost := clientHost d; connectionType := connectionType d;
     accountUsername := accountUsername d; accountPassword := v;
     authMethod := authMethod d; connectionTimout := connectionTimout d;
     responseTimeout := responseTimeout d; sendTimeout := sendTimeout d;
     socket := socket d; logSocketTraffic := logSocketTraffic d |}.

Definition set_authMethod (d : PrivateData) (v : AuthMethod) : PrivateData :=
  {| status := status d; serverHost := serverHost d; serverPort := serverPort d;
     clientHost := clientHost d; connectionType := connectionType d;
     accountUsername := accountUsername d; accountPassword := accountPassword d;
     authMethod := v; connectionTimout := connectionTimout d;
     responseTimeout := responseTimeout d; sendTimeout := sendTimeout d;
     socket := socket d; logSocketTraffic := logSocketTraffic d |}.

Definition set_connectionTimout (d : PrivateData) (v : Z) : PrivateData :=
  {| status := status d; serverHost := serverHost d; serverPort := serverPort d;
     clientHost := clientHost d; connectionType := connectionType d;
     accountUsername := accountUsername d; accountPassword := accountPassword d;
     authMethod := authMethod d; connectionTimout := v;
     responseTimeout := responseTimeout d; sendTimeout := sendTimeout d;
     socket := socket d; logSocketTraffic := logSocketTraffic d |}.

Definition set_responseTimeout (d : PrivateData) (v : Z) : PrivateData :=
  {| status := status d; serverHost := serverHost d; serverPort := serverPort d;
     clientHost := clientHost d; connectionType := connectionType d;
     accountUsername := accountUsername d; accountPassword := accountPassword d;
     authMethod := authMethod d; connectionTimout := connectionTimout d;
     responseTimeout := v; sendTimeout := sendTimeout d;
     socket := socket d; logSocketTraffic := logSocketTraffic d |}.

Definition set_sendTimeout (d : PrivateData) (v : Z) : PrivateData :=
  {| status := status d; serverHost := serverHost d; serverPort := serverPort d;
     clientHost := clientHost d; connectionType := connectionType d;
     accountUsername := accountUsername d; accountPassword := accountPassword d;
     authMethod := authMethod d; connectionTimout := connectionTimout d;
     responseTimeout := responseTimeout d; sendTimeout := v;
     socket := socket d; logSocketTraffic := logSocketTraffic d |}.

Definition set_socket (d : PrivateData) (v : option QTcpSocket) : PrivateData :=
  {| status := status d; serverHost := serverHost d; serverPort := serverPort d;
     clientHost := clientHost d; connectionType := connectionType d;
     accountUsername := accountUsername d; accountPassword := accountPassword d;
     authMethod := authMethod d; connectionTimout := connectionTimout d;
     responseTimeout := responseTimeout d; sendTimeout := sendTimeout d;
     socket := v; logSocketTraffic := logSocketTraffic d |}.

Definition set_logSocketTraffic (d : PrivateData) (v : bool) : PrivateData :=
  {| status := status d; serverHost := serverHost d; serverPort := serverPort d;
     clientHost := clientHost d; connectionType := connectionType d;
     accountUsername := accountUsername d; accountPassword := accountPassword d;
     authMethod := authMethod d; connectionTimout := connectionTimout d;
     responseTimeout := responseTimeout d; sendTimeout := sendTimeout d;
     socket := socket d; logSocketTraffic := v |}.

(** ** The configuration setters of [Client] *)

Definition setServerHost (d : PrivateData) (host : QString) : PrivateData :=
  if negb (Status_eqb (status d) ST_Disconnected) then d
  else set_serverHost d host.

(** [quint16 port]: the argument is reduced modulo 2^16 by the conversion. *)
Definition setServerPort (d : PrivateData) (port : Z) : PrivateData :=
  if negb (Status_eqb (status d) ST_Disconnected) then d
  else set_serverPort d (port mod 65536).

Definition setClientHost (d : PrivateData) (host : QString) : PrivateData :=
  if negb (Status_eqb (status d) ST_Disconnected) then d
  else set_clientHost d host.

Definition setAccountUser (d : PrivateData) (user : QString) : PrivateData :=
  if negb (Status_eqb (status d) ST_Disconnected) then d
  else
    let d := set_accountUsername d user in
    if AuthMethod_eqb (authMethod d) AuthNone then set_authMethod d AuthPlain else d.

Definition setAccountPassword (d : PrivateData) (password : QString) : PrivateData :=
  if negb (Status_eqb (status d) ST_Disconnected) then d
  else
    let d := set_accountPassword d password in
    if AuthMethod_eqb (authMethod d) AuthNone then set_authMethod d AuthPlain else d.

Definition setAuthMethod (d : PrivateData) (method : AuthMethod) : PrivateData :=
  if negb (Status_eqb (status d) ST_Disconnected) then d
  else set_authMethod d method.

Definition setConnectionTimeout (d : PrivateData) (msec : Z) : PrivateData :=
  if negb (Status_eqb (status d) ST_Disconnected) then d
  else set_connectionTimout d msec.

Definition setResponseTimeout (d : PrivateData) (msec : Z) : PrivateData :=
  if negb (Status_eqb (status d) ST_Disconnected) then d
  else set_responseTimeout d msec.

Definition setSendTimeout (d : PrivateData) (msec : Z) : PrivateData :=
  if negb (Status_eqb (status d) ST_Disconnected) then d
  else set_sendTimeout d msec.

Definition setSocketTrafficLogEnabled (d : PrivateData) (on : bool) : PrivateData :=
  set_logSocketTraffic d on.

(** [setConnectionType]: [None] when one of the two [RT_CHECK]s fails, which
    logs a fatal record and aborts the process. [sk] is the socket that
    [new QTcpSocket] / [new QSslSocket] yields. *)
Definition setConnectionType (d : PrivateData) (connectionType : ConnectionType)
  (sk : QTcpSocket) : option PrivateData :=
  match socket d with
  | Some _ => None
  | None =>
      match connectionType with
      | UnknownConnection => None
      | _ => Some (set_socket (set_connectionType d connectionType) (Some sk))
      end
  end.

(** The setters the specification lists as gated by the status. *)
Inductive Setter :=
| SetServerHost (host : QString)
| SetServerPort (port : Z)
| SetClientHost (host : QString)
| SetAuthMethod (method : AuthMethod)
| SetAccountUser (user : QString)
| SetAccountPassword (password : QString)
| SetConnectionTimeout (msec : Z)
| SetResponseTimeout (msec : Z)
| SetSendTimeout (msec : Z)
| SetSocketTrafficLogEnabled (on : bool).

Definition callSetter (d : PrivateData) (s : Setter) : PrivateData :=
  match s with
  | SetServerHost host => setServerHost d host
  | SetServerPort port => setServerPort d port
  | SetClientHost host => setClientHost d host
  | SetAuthMethod method => setAuthMethod d method
  | SetAccountUser user => setAccountUser d user
  | SetAccountPassword password => setAccountPassword d password
  | SetConnectionTimeout msec => setConnectionTimeout d msec
  | SetResponseTimeout msec => setResponseTimeout d msec
  | SetSendTimeout msec => setSendTimeout d msec
  | SetSocketTrafficLogEnabled on => setSocketTrafficLogEnabled d on
  end.

(** ** The driver *)

(** What the driver reads and changes: the client's private data (with the
    socket in it), the records handed to the log sink, and the number of
    UUIDs the process has drawn. *)
Record World := {
  w_d : PrivateData;
  w_log : list LogRecord;
  w_uuids : nat
}.

Definition w_setD (w : World) (d : PrivateData) : World :=
  {| w_d := d; w_log := w_log w; w_uuids := w_uuids w |}.

Definition w_setSocket (w : World) (sk : QTcpSocket) : World :=
  w_setD w (set_socket (w_d w) (Some sk)).

Definition w_addLog (w : World) (r : LogRecord) : World :=
  {| w_d := w_d w; w_log := w_log w ++ [r]; w_uuids := w_uuids w |}.

Definition getD : ST World PrivateData := fun w => (w_d w, w).

Definition modifyD (f : PrivateData -> PrivateData) : ST World unit :=
  fun w => (tt, w_setD w (f (w_d w))).

(** The destructor of a temporary [RTLogHandler]: the record reaches the sink. *)
Definition logRecord (r : LogRecord) : ST World unit :=
  fun w => (tt, w_addLog w r).

(** [d->socket->op(...)]. The driver dereferences [d->socket] only on paths
    where [connectToServer] has found it non-null; for a null socket the
    model leaves the world alone and yields [dflt]. *)
Definition onSocket {A} (op : QTcpSocket -> A * QTcpSocket) (dflt : A) : ST World A :=
  fun w =>
    match socket (w_d w) with
    | Some sk => (fst (op sk), w_setSocket w (snd (op sk)))
    | None => (dflt, w)
    end.

Definition canReadLine : ST World bool := onSocket (fun sk => (sk_canReadLine sk, sk)) false.
Definition readLine : ST World QByteArray := onSocket sk_readLine [].
Definition socketWrite (data : QByteArray) : ST World unit := onSocket (sk_write data) tt.
Definition socketClose : ST World unit := onSocket sk_close tt.
Definition errorString : ST World QString := onSocket (fun sk => (sk_errorString sk, sk)) [].
Definition readBuffer : ST World (list QByteArray) :=
  onSocket (fun sk => (sk_readBuffer sk, sk)) [].
Definition peerScript : ST World (list PeerEvent) :=
  onSocket (fun sk => (sk_peer sk, sk)) [].

Definition pn_fail (err : QString) : ST World bool :=
  logRecord (RTLogHandler_emit (RTLogHandler_new Warning err)) ;;
  ret false.

Definition pn_closeAndFail : ST World bool :=
  modifyD (fun d => set_status d ST_Disconnected) ;;
  socketClose ;;
  ret false.

(** [RT_DEBUG("log-traffic > %1: %2") % who % msg]: both arguments are byte
    arrays and pass through [QVariant::toString]. *)
Definition pn_logTraffic (E : Env) (who msg : QByteArray) : ST World unit :=
  d <- getD ;;
  if negb (logSocketTraffic d) then ret tt
  else
    logRecord
      (RTLogHandler_emit
         (RTLogHandler_args (RTLogHandler_new Debug (qs "log-traffic > %1: %2"))
            [fromUtf8 E who; fromUtf8 E msg])).

(** The inner [while (d->socket->canReadLine())] of [pn_isAllowedToSend]; one
    iteration per line that is buffered when the loop starts. *)
Fixpoint drainLines (E : Env) (buffered : list QByteArray) : ST World unit :=
  match buffered with
  | [] => ret tt
  | _ :: buffered' =>
      line <- readLine ;;
      pn_fail (arg (qs " > msg-line: %1") [fromUtf8 E line]) ;;
      drainLines E buffered'
  end.

Definition pn_isAllowedToSend (E : Env) : ST World bool :=
  can <- canReadLine ;;
  if can then
    pn_fail (qs "send fail, found unexpected data available to be read, was:") ;;
    buffered <- readBuffer ;;
    drainLines E buffered ;;
    ret false
  else ret true.

(** [pn_sendMessage(d, const QByteArray&)] *)
Definition pn_sendMessage (E : Env) (data : QByteArray) : ST World bool :=
  check pn_isAllowedToSend E ;;
  pn_logTraffic E (ba "C") data ;;
  socketWrite (data ++ CRLF) ;;
  ret true.

(** [msg.writeToDev(writer)] on a fresh [QBuffer] over [dataToSend]. *)
Definition writeToBuffer (E : Env) (msg : MimeMessage) : ST World (bool * QByteArray) :=
  fun w =>
    let r := MimeMessage_writeToDev E msg
               {| ws_dev := {| dev_data := []; dev_room := None |};
                  ws_uuids := w_uuids w |} in
    ((fst r, dev_data (ws_dev (snd r))),
     {| w_d := w_d w; w_log := w_log w; w_uuids := ws_uuids (snd r) |}).

(** [pn_sendMessage(d, const Smtp::MimeMessage&)] *)
Definition pn_sendMimeMessage (E : Env) (msg : MimeMessage) : ST World bool :=
  check pn_isAllowedToSend E ;;
  written <- writeToBuffer E msg ;;
  if negb (fst written) then ret false
  else
    let dataToSend := snd written in
    pn_logTraffic E (ba "C") (toBase64 dataToSend) ;;
    socketWrite dataToSend ;;
    ret true.

(** The inner [while (d->socket->canReadLine())] of [pn_waitForResponse]; one
    iteration per buffered line, unless a terminal line ends the function.
    [Some (ok, body)]: the function returns; [None]: the buffer is used up. *)
Fixpoint readReplyLines (E : Env) (expectedCode : QByteArray) (buffered : list QByteArray)
  : ST World (option (bool * QByteArray)) :=
  match buffered with
  | [] => ret None
  | _ :: buffered' =>
      raw <- readLine ;;
      let line := trimmed raw in
      pn_logTraffic E (ba "S") line ;;
      let code := left line 3 in
      let codeToMsgSep := mid line 3 1 in
      if bytes_eqb codeToMsgSep (ba " ") then
        if negb (bytes_eqb code expectedCode) then
          pn_fail (arg (qs "invalid response, expected %1, received: %2")
                     [fromUtf8 E expectedCode; fromUtf8 E line]) ;;
          ret (Some (false, []))
        else ret (Some (true, skipn 4 line))
      else readReplyLines E expectedCode buffered'
  end.

(** The outer [while (true)] of [pn_waitForResponse], along the moves the
    peer has left: each iteration is one [waitForReadyRead]. With no move
    left the wait times out. *)
Fixpoint waitForReply (E : Env) (expectedCode : QByteArray) (peer : list PeerEvent)
  : ST World (bool * QByteArray) :=
  match peer with
  | [] =>
      pn_fail (qs "unable to wait for server response, connection timout") ;;
      ret (false, [])
  | ev :: peer' =>
      ready <- onSocket (sk_waitForReadyRead ev peer') false ;;
      if negb ready then
        pn_fail (qs "unable to wait for server response, connection timout") ;;
        ret (false, [])
      else
        buffered <- readBuffer ;;
        reply <- readReplyLines E expectedCode buffered ;;
        match reply with
        | Some r => ret r
        | None => waitForReply E expectedCode peer'
        end
  end.

(** [pn_waitForResponse(d, expectedCode, receivedMessageBody)]: the result
    and the message body. *)
Definition pn_waitForResponse (E : Env) (expectedCode : QByteArray)
  : ST World (bool * QByteArray) :=
  peer <- peerScript ;;
  waitForReply E expectedCode peer.

Definition pn_sendAndWaitFor (E : Env) (dataToSend expectedResCode : QByteArray)
  : ST World bool :=
  check pn_sendMessage E dataToSend ;;
  r <- pn_waitForResponse E expectedResCode ;;
  ret (fst r).

(** The three authentication branches of [connectToServer]; [false] means
    that [pn_closeAndFail] has run. *)
Definition authenticate (E : Env) (d : PrivateData) : ST World bool :=
  if AuthMethod_eqb (authMethod d) AuthPlain then
    let encodedUserAndPswd :=
      toBase64 (toLatin1 ([0%N] ++ accountUsername d ++ [0%N] ++ accountPassword d)) in
    unless pn_sendAndWaitFor E (ba "AUTH PLAIN " ++ encodedUserAndPswd) (ba "235")
      fail pn_closeAndFail ;;
    ret true
  else if AuthMethod_eqb (authMethod d) AuthLogin then
    unless pn_sendAndWaitFor E (ba "AUTH LOGIN") (ba "334") fail pn_closeAndFail ;;
    unless pn_sendAndWaitFor E (toBase64 (toLatin1 (accountUsername d))) (ba "334")
      fail pn_closeAndFail ;;
    unless pn_sendAndWaitFor E (toBase64 (toUtf8 (accountPassword d))) (ba "235")
      fail pn_closeAndFail ;;
    ret true
  else if AuthMethod_eqb (authMethod d) AuthCramMd5 then
    unless pn_sendMessage E (ba "AUTH CRAM-MD5") fail pn_closeAndFail ;;
    challenge <- pn_waitForResponse E (ba "334") ;;
    if negb (fst challenge) then pn_closeAndFail
    else
      let msgBody := snd challenge in
      let authCode := hmac_md5 E (toLatin1 (accountPassword d)) (fromBase64 E msgBody) in
      let authToken := toLatin1 (accountUsername d) ++ ba " " ++ toHex authCode in
      unless pn_sendAndWaitFor E (toBase64 authToken) (ba "235") fail pn_closeAndFail ;;
      ret true
  else ret true.

(** The STARTTLS upgrade of [connectToServer]; [false] means that
    [pn_closeAndFail] has run. *)
Definition upgradeToTls (E : Env) (d : PrivateData) : ST World bool :=
  if ConnectionType_eqb (connectionType d) TlsConnection then
    unless pn_sendAndWaitFor E (ba "STARTTLS") (ba "220") fail pn_closeAndFail ;;
    encrypted <- onSocket sk_waitForEncrypted false ;;
    if negb encrypted then
      err <- errorString ;;
      pn_fail (arg (qs "unable to upgrade to encrypted mode, error: %1") [err]) ;;
      pn_closeAndFail
    else
      unless pn_sendAndWaitFor E (ba "EHLO " ++ toLatin1 (clientHost d)) (ba "250")
        fail pn_closeAndFail ;;
      ret true
  else ret true.

Definition connectToServer (E : Env) : ST World bool :=
  d <- getD ;;
  if negb (Status_eqb (status d) ST_Disconnected) then
    pn_fail (qs "connection not allowed, client is already connected")
  else if match socket d with None => true | Some _ => false end then
    pn_fail (qs "unable to connect, call setConnectionType first")
  else if isEmpty (serverHost d) || (serverPort d =? 0) then
    pn_fail (qs "unable to connect, missing server host / port")
  else if isEmpty (clientHost d) then
    pn_fail (qs "unable to connect, missing client host")
  else if negb (AuthMethod_eqb (authMethod d) AuthNone)
          && (isEmpty (accountUsername d) || isEmpty (accountPassword d)) then
    pn_fail (qs "unable to connect, missing account credentials")
  else
    connected <- onSocket sk_waitForConnected false ;;
    if negb connected then
      err <- errorString ;;
      pn_fail (arg (qs "unable to connect, connection timeout with error: %1") [err])
    else
      greeting <- pn_waitForResponse E (ba "220") ;;
      if negb (fst greeting) then pn_closeAndFail
      else
        unless pn_sendAndWaitFor E (ba "EHLO " ++ toLatin1 (clientHost d)) (ba "250")
          fail pn_closeAndFail ;;
        check upgradeToTls E d ;;
        check authenticate E d ;;
        modifyD (fun d => set_status d ST_Connected) ;;
        ret true.

Definition closeConnection : ST World unit :=
  d <- getD ;;
  if negb (Status_eqb (status d) ST_Connected) then ret tt
  else pn_closeAndFail ;; ret tt.

(** The two [for] loops of [sendMessage] over the recipients; [false] means
    that [pn_closeAndFail] has run and [sendMessage] returns its result. *)
Fixpoint sendRecipients (E : Env) (recipients : list EmailAddress) : ST World bool :=
  match recipients with
  | [] => ret true
  | to :: recipients' =>
      let toMsg := toLatin1 (arg (qs "RCPT TO:<%1>") [d_email to]) in
      unless pn_sendAndWaitFor E toMsg (ba "250") fail pn_closeAndFail ;;
      sendRecipients E recipients'
  end.

(** The body of [sendMessage] after its two precondition checks: MAIL FROM,
    RCPT TO for the To and the Cc recipients, DATA, the message, and the wait
    for the final reply. *)
Definition submitMessage (E : Env) (msg : MimeMessage) : ST World bool :=
  let senderMsg :=
    toLatin1 (arg (qs "MAIL FROM:<%1>") [d_email (d_senderAddress msg)]) in
  unless pn_sendAndWaitFor E senderMsg (ba "250") fail pn_closeAndFail ;;
  check sendRecipients E (d_toAddresses msg) ;;
  check sendRecipients E (d_ccAddresses msg) ;;
  unless pn_sendAndWaitFor E (ba "DATA") (ba "354") fail pn_closeAndFail ;;
  sent <- pn_sendMimeMessage E msg ;;
  if negb sent then
    pn_fail (qs "unexpected error, unable to write msg to socket") ;;
    pn_closeAndFail
  else
    ack <- pn_waitForResponse E (ba "250") ;;
    if negb (fst ack) then pn_closeAndFail
    else ret true.

Definition sendMessage (E : Env) (msg : MimeMessage) : ST World bool :=
  if negb (MimeMessage_isValid E msg) then
    pn_fail (qs "unable to send, message is not valid")
  else
    d <- getD ;;
    if negb (Status_eqb (status d) ST_Connected) then
      pn_fail (qs "unable to send, client is not connected")
    else submitMessage E msg.

(** ** Sample runs *)

Definition line (s : string) : QByteArray := ba s ++ CRLF.

(** The scripted server of the happy path: greeting, EHLO reply over two
    lines, and one reply per envelope command. *)
Definition happyPeer : list PeerEvent :=
  [Arrives [line "220 x"]; Arrives [line "250-x"; line "250 OK"];
   Arrives [line "250 ok"]; Arrives [line "250 ok"]; Arrives [line "354 go"];
   Arrives [line "250 queued"]].

Definition sampleClient (peer : list PeerEvent) : PrivateData :=
  set_socket
    (set_connectionType
       (setServerPort (setServerHost (PrivateData_new (qs "h")) (qs "mail.b.co")) 25)
       TcpConnection)
    (Some (QTcpSocket_new true true peer)).

Definition sampleWorld (peer : list PeerEvent) : World :=
  {| w_d := sampleClient peer; w_log := []; w_uuids := 0 |}.

Definition connectedWorld (peer : list PeerEvent) : World :=
  snd (connectToServer sampleEnv (sampleWorld peer)).

Definition written (w : World) : list WireWrite :=
  match socket (w_d w) with Some sk => sk_written sk | None => [] end.

(** A connected client on whose socket the server has left an unsolicited
    reply line. *)
Definition crosstalkSocket : QTcpSocket :=
  {| sk_open := true; sk_connects := true; sk_encrypts := true; sk_errorString := [];
     sk_readBuffer := [line "250 ok"]; sk_peer := [Arrives [line "250 ok"]];
     sk_written := [] |}.

Definition crosstalkWorld : World :=
  {| w_d := set_status (set_socket (sampleClient []) (Some crosstalkSocket)) ST_Connected;
     w_log := []; w_uuids := 0 |}.

(* ===================================================================== *)
(** * Part V-A. More of utils/smtp/smtp_mime.cpp                           *)
(* ===================================================================== *)

(** ** MimePart::setContentName and the file parts *)

Definition setContentType (b : MimePartData) (type : QByteArray) : MimePartData :=
  {| d_contentType := type; d_contentName := d_contentName b;
     d_contentCharset := d_contentCharset b; d_contentEncoding := d_contentEncoding b |}.

(** The subject check of the regular-expression engine. [QRegularExpression]
    compiles its pattern for UTF-16 and has every subject checked: on a
    subject that is not well-formed UTF-16 (a surrogate without its partner)
    the engine reports an error instead of a match, and [QString::replace]
    and [QString::remove] then find nothing to change. [expectLow] tells
    that the previous code unit was a high surrogate. *)
Fixpoint validUtf16From (s : QString) (expectLow : bool) : bool :=
  match s with
  | [] => negb expectLow
  | c :: s' =>
      if expectLow then isLowSurrogate c && validUtf16From s' false
      else if isHighSurrogate c then validUtf16From s' true
      else if isLowSurrogate c then false
      else validUtf16From s' false
  end.

Definition isValidUtf16 (s : QString) : bool := validUtf16From s false.

(** Membership in the class [\s]. The engine tests characters, not code
    units: [ws] is the class on the characters of the basic plane, and no
    character outside of it (a surrogate pair) is white space. *)
Definition inClassS (ws : QChar -> bool) (c : QChar) : bool :=
  negb (isHighSurrogate c || isLowSurrogate c) && ws c.

(** On a well-formed subject, what replacing [\s+] by an underscore gives:
    every maximal run of characters of the class [\s] becomes one
    underscore. [inRun] tells that the previous character was in the
    class. *)
Fixpoint replaceSpaceRuns (ws : QChar -> bool) (s : QString) (inRun : bool) : QString :=
  match s with
  | [] => []
  | c :: s' =>
      if inClassS ws c then
        if inRun then replaceSpaceRuns ws s' true
        else 95%N :: replaceSpaceRuns ws s' true
      else c :: replaceSpaceRuns ws s' false
  end.

(** [QString(name).replace(QRegularExpression("\\s+"), "_")] *)
Definition replaceSpaces (ws : QChar -> bool) (s : QString) : QString :=
  if isValidUtf16 s then replaceSpaceRuns ws s false else s.

(** The class [[A-Za-z0-9\-_\.]] of the second expression. *)
Definition isNameChar (c : QChar) : bool :=
  (((65 <=? c) && (c <=? 90)) || ((97 <=? c) && (c <=? 122))
   || ((48 <=? c) && (c <=? 57)) || (c =? 45) || (c =? 95) || (c =? 46))%N.

(** [parsed.remove(QRegularExpression("[^A-Za-z0-9\\-_\\.]"))]: on a
    well-formed subject every character outside the class goes, a surrogate
    pair with both its code units. *)
Definition removeUnallowed (s : QString) : QString :=
  if isValidUtf16 s then filter isNameChar s else s.

(** [setContentName]: both expressions in turn, then [toUtf8]. *)
Definition sanitiseName (ws : QChar -> bool) (name : QString) : QByteArray :=
  toUtf8 (removeUnallowed (replaceSpaces ws name)).

Definition setContentName (ws : QChar -> bool) (b : MimePartData) (name : QString)
  : MimePartData :=
  {| d_contentType := d_contentType b; d_contentName := sanitiseName ws name;
     d_contentCharset := d_contentCharset b; d_contentEncoding := d_contentEncoding b |}.

(** The ASCII white space, the class [\s] without Unicode properties. *)
Definition asciiSpace (c : QChar) : bool := (((9 <=? c) && (c <=? 13)) || (c =? 32))%N.

(** [MimeFile::MimeFile(fileContent, fileName)]. [mimeTypes] stands for
    [QMimeDatabase().mimeTypesForFileName(...)], giving the names of the
    types found, in Latin-1. *)
Definition MimeFile_new (ws : QChar -> bool) (mimeTypes : QByteArray -> list QByteArray)
  (fileContent : QByteArray) (fileName : QString) : MimePart :=
  let base := MimePartData_new (ba "application/octet-stream") in
  let base := setContentName ws base fileName in
  let base := setContentTransferEncoding base ContentBase64Encoded in
  let typesFromFileName := mimeTypes (d_contentName base) in
  let base :=
    if size typesFromFileName =? 1
    then setContentType base (hd [] typesFromFileName) else base in
  MimeFile base fileContent NoDisposition.

(** [setDisposition] on a file part. *)
Definition setDisposition (p : MimePart) (d : Disposition) : MimePart :=
  match p with
  | MimeFile base content _ => MimeFile base content d
  | _ => p
  end.

(** [MimeInlineFile::MimeInlineFile] and [MimeAttachmentFile::MimeAttachmentFile] *)
Definition MimeInlineFile_new (ws : QChar -> bool) (mimeTypes : QByteArray -> list QByteArray)
  (fileContent : QByteArray) (fileName : QString) : MimePart :=
  setDisposition (MimeFile_new ws mimeTypes fileContent fileName) DisposeInline.

Definition MimeAttachmentFile_new (ws : QChar -> bool)
  (mimeTypes : QByteArray -> list QByteArray)
  (fileContent : QByteArray) (fileName : QString) : MimePart :=
  setDisposition (MimeFile_new ws mimeTypes fileContent fileName) DisposeAsAttachment.

(* ===================================================================== *)
(** * Part V-B. utils/pointers/scopedptrlist.h                             *)
(* ===================================================================== *)

Module ScopedPtrList.

Section Ops.

(** The list holds pointers; [A] is the type of the pointers. *)
Context {A : Type}.

(** The [ScopedPtrList] objects of a program, each with the list it holds,
    by the address of the object. The functions that move items between two
    lists are given the addresses of [this] and of [other]: the source
    compares them, and a list moved into itself is one object. *)
Definition Lists : Type := nat -> list A.

(** The object at [p] holds [d] from now on. *)
Definition setList (h : Lists) (p : nat) (d : list A) : Lists :=
  fun q => if (q =? p)%nat then d else h q.

Definition append (d : list A) (elem : A) : list A := d ++ [elem].
Definition prepend (d : list A) (elem : A) : list A := elem :: d.

(** [QList::takeFirst] on a non-empty list. *)
Definition takeFirst (d : list A) : option (A * list A) :=
  match d with
  | x :: d' => Some (x, d')
  | [] => None
  end.

(** [while (--toImportCount >= 0) d.append(other.d.takeFirst());] on two
    different lists: the list that grows and the list that shrinks. *)
Fixpoint importLoop (toImportCount : nat) (d other : list A) : list A * list A :=
  match toImportCount with
  | O => (d, other)
  | S n =>
      match takeFirst other with
      | Some (x, other') => importLoop n (append d x) other'
      | None => (d, other)
      end
  end.

(** [swap(other)]: [d.swap(other.d)]. *)
Definition swap (h : Lists) (this other : nat) : Lists :=
  setList (setList h this (h other)) other (h this).

(** [appendFrom(other, upTo)] *)
Definition appendFrom (h : Lists) (this other : nat) (upTo : Z) : Lists :=
  if (upTo =? 0) || isEmpty (h other) || (this =? other)%nat then h
  else if (upTo <? 0) || (upTo >=? size (h other)) then
    if isEmpty (h this) then swap h this other
    else
      (* d.append(other.d); other.d.clear() *)
      setList (setList h this (h this ++ h other)) other []
  else
    let toImportCount := Z.min (size (h other)) upTo in
    let r := importLoop (Z.to_nat toImportCount) (h this) (h other) in
    setList (setList h this (fst r)) other (snd r).

(** [prependFrom(other, upTo)] *)
Definition prependFrom (h : Lists) (this other : nat) (upTo : Z) : Lists :=
  if (upTo =? 0) || isEmpty (h other) || (this =? other)%nat then h
  else if (upTo <? 0) || (upTo >=? size (h other)) then
    if isEmpty (h this) then swap h this other
    else
      (* other.d.append(d); d.clear(); d.swap(other.d) *)
      swap (setList (setList h other (h other ++ h this)) this []) this other
  else
    let toImportCount := Z.min (size (h other)) upTo in
    (* newData takes the items; newData.append(d); d.swap(newData) *)
    let r := importLoop (Z.to_nat toImportCount) [] (h other) in
    setList (setList h other (snd r)) this (fst r ++ h this).

(** [appendTo(other, upTo)] and [prependTo(other, upTo)] *)
Definition appendTo (h : Lists) (this other : nat) (upTo : Z) : Lists :=
  appendFrom h other this upTo.

Definition prependTo (h : Lists) (this other : nat) (upTo : Z) : Lists :=
  prependFrom h other this upTo.

End Ops.

End ScopedPtrList.

(* ===================================================================== *)
(** * Part VI. Vocabulary of the specification                             *)
(* ===================================================================== *)

(** These definitions follow the wording of the specification, not the code;
    the theorems state the code's behaviour in their terms. *)

(** A byte in [[0-9A-Za-z]]. *)
Definition isAlnumByte (c : byte) : bool :=
  let n := Byte.to_N c in
  (((48 <=? n) && (n <=? 57)) || ((65 <=? n) && (n <=? 90))
   || ((97 <=? n) && (n <=? 122)))%N.

(** The uppercase hexadecimal digit of a value below 16. *)
Definition hexUpper (n : N) : byte := nth (N.to_nat n) (ba "0123456789ABCDEF") "0"%byte.

(** What quoted-printable encoding makes of one byte: the byte itself, or the
    escape [=HH]. *)
Definition qpUnit (c : byte) : QByteArray :=
  if isAlnumByte c then [c]
  else ["="%byte; hexUpper (Byte.to_N c / 16); hexUpper (Byte.to_N c mod 16)].

(** The soft line break. *)
Definition softBreak : QByteArray := "="%byte :: CRLF.

(** The emitter of the specification: units are written left to right, and
    before a unit that would exceed [maxLine - 1] on the current line the
    soft break is written and a new line starts. *)
Fixpoint foldUnits (maxLine : Z) (units : list QByteArray) (lineSize : Z) : QByteArray :=
  match units with
  | [] => []
  | u :: units' =>
      if lineSize + size u >? maxLine - 1
      then softBreak ++ u ++ foldUnits maxLine units' (size u)
      else u ++ foldUnits maxLine units' (lineSize + size u)
  end.

(** An output in which every unit is whole: each unit is preceded by a soft
    break or by nothing. *)
Definition unitsWithBreaks (breaks : list bool) (units : list QByteArray) : QByteArray :=
  concat (map (fun bu : bool * QByteArray =>
                 (if fst bu then softBreak else []) ++ snd bu)
              (combine breaks units)).

(** The lines of a byte stream: the pieces between CRLF pairs. [cur] is the
    line being read. *)
Fixpoint linesFrom (cur a : QByteArray) : list QByteArray :=
  match a with
  | [] => [cur]
  | c :: a' =>
      match a' with
      | c2 :: a'' =>
          if Byte.eqb c CR && Byte.eqb c2 LF then cur :: linesFrom [] a''
          else linesFrom (cur ++ [c]) a'
      | [] => [cur ++ [c]]
      end
  end.

Definition linesOf (a : QByteArray) : list QByteArray := linesFrom [] a.

(** The chunk size reduction of the specification: n becomes ceil(n/2). *)
Definition ceilHalf (n : Z) : Z := (n + 1) / 2.

(** The encoded words for chunk size [n]. *)
Definition wordsAt (word : QString -> QByteArray) (text : QString) (n : Z)
  : list QByteArray :=
  map word (pn_splitTextIntoChunks text n).

Definition allFit (maxWordSize : Z) (words : list QByteArray) : Prop :=
  Forall (fun w => size w <= maxWordSize) words.

(** The outcome the specification describes for an encoded-word run: after
    [k] reductions of the chunk size the words are joined by CRLF and a
    space; they all fit or the chunk size is 1; and no earlier chunk size
    would have done. *)
Definition mimeWordOutcome (word : QString -> QByteArray) (text : QString)
  (maxWordSize : Z) (out : QByteArray) : Prop :=
  exists k : nat,
    let n := Nat.iter k ceilHalf (size text) in
    out = join (CR :: LF :: ba " ") (wordsAt word text n)
    /\ (allFit maxWordSize (wordsAt word text n) \/ n = 1)
    /\ Forall (fun chunk => 1 <= size chunk <= n) (pn_splitTextIntoChunks text n)
    /\ forall j : nat, (j < k)%nat ->
         1 < Nat.iter j ceilHalf (size text)
         /\ ~ allFit maxWordSize (wordsAt word text (Nat.iter j ceilHalf (size text))).

(** The consecutive pieces of [n] characters of a text, the last one with
    what is left. [fuel] bounds the number of pieces. *)
Fixpoint piecesFrom (fuel n : nat) (s : QString) : list QString :=
  match fuel, s with
  | O, _ => []
  | _, [] => []
  | S fuel', _ :: _ => firstn n s :: piecesFrom fuel' n (skipn n s)
  end.

Definition piecesOf (n : Z) (s : QString) : list QString :=
  piecesFrom (length s) (Z.to_nat n) s.

(** The encoded word of a piece of text, as RFC 2047 and the specification
    have it: the charset, the encoding letter, and the quoted-printable
    encoding (each UTF-8 byte as itself or as [=HH]) or the Base64 encoding
    of its UTF-8 bytes. *)
Definition encodedWordQ (piece : QString) : QByteArray :=
  ba "=?utf-8?Q?" ++ flat_map qpUnit (toUtf8 piece) ++ ba "?=".

Definition encodedWordB (piece : QString) : QByteArray :=
  ba "=?utf-8?B?" ++ toBase64 (toUtf8 piece) ++ ba "?=".

(** The outcome of the halving loop in the words of the specification, with
    nothing taken from the code: after [k] reductions n -> ceil(n/2) of the
    chunk size, starting from the length of the text, the result is the
    encoded words of the consecutive pieces of [n] characters, joined by
    CRLF and a space; the pieces together are the text; all words fit the
    budget or [n] is 1; and at every earlier chunk size, which was above 1,
    some word of the pieces of that size did not fit. *)
Definition halvingOutcome (word : QString -> QByteArray) (text : QString)
  (maxWordSize : Z) (out : QByteArray) : Prop :=
  exists k : nat,
    let n := Nat.iter k ceilHalf (size text) in
    1 <= n
    /\ concat (piecesOf n text) = text
    /\ Forall (fun piece => 1 <= size piece <= n) (piecesOf n text)
    /\ out = join (CR :: LF :: ba " ") (map word (piecesOf n text))
    /\ (allFit maxWordSize (map word (piecesOf n text)) \/ n = 1)
    /\ forall j : nat, (j < k)%nat ->
         1 < Nat.iter j ceilHalf (size text)
         /\ ~ allFit maxWordSize
                (map word (piecesOf (Nat.iter j ceilHalf (size text)) text)).

(** A device that accepts every write. *)
Definition accepting (st : WriterState) : Prop := dev_room (ws_dev st) = None.

(** The parts of a message that came in through [addMimePart]: all parts but
    the primary body. *)
Definition extraParts (m : MimeMessage) : list MimePart :=
  match d_messageBody m with
  | Some _ => tl (parts (d_multiPart m))
  | None => parts (d_multiPart m)
  end.

(** A part that serialises successfully on every accepting device. *)
Definition serialisable (E : Env) (p : MimePart) : Prop :=
  forall st, accepting st -> fst (MimePart_writeToDev E p st) = true.

(** The dot-terminator of SMTP. *)
Definition dotTerminator : QByteArray := CRLF ++ ba "." ++ CRLF.

(** The log records the driver writes for the lines it finds pending. *)
Definition pendingLineRecords (E : Env) (pending : list QByteArray) : list LogRecord :=
  {| rec_type := Warning;
     rec_msg := qs "send fail, found unexpected data available to be read, was:" |}
  :: map (fun l => {| rec_type := Warning;
                      rec_msg := qs " > msg-line: " ++ fromUtf8 E l |}) pending.

(** A write made while no line was buffered for reading. *)
Definition cleanWrite (x : WireWrite) : Prop := ww_pending x = [].

(** [w'] differs from [w] on the wire by writes that were all clean. *)
Definition onlyCleanWrites (w w' : World) : Prop :=
  exists ws, written w' = written w ++ ws /\ Forall cleanWrite ws.

(** The connection is closed: status Disconnected and the socket not open. *)
Definition connectionClosed (w : World) : Prop :=
  status (w_d w) = ST_Disconnected
  /\ forall sk, socket (w_d w) = Some sk -> sk_open sk = false.

(* ===================================================================== *)
(** * Part VII. Vocabulary of the proofs                                   *)
(* ===================================================================== *)

(** What decides whether a part serialises on an accepting device: a content
    type, and a text, or a file name and content, or parts that do. *)
Fixpoint partOk (p : MimePart) : bool :=
  match p with
  | MimeText base t | MimeHtml base t =>
      negb (isEmpty t) && negb (isEmpty (d_contentType base))
  | MimeFile base content _ =>
      negb (isEmpty (d_contentName base) || isEmpty content)
      && negb (isEmpty (d_contentType base))
  | MimeMultiPartMixed base ps =>
      match ps with
      | [] => false
      | [q] => partOk q
      | _ => negb (isEmpty (d_contentType base)) && forallb partOk ps
      end
  end.

(** The invariant of [MimeMessage]: [d_multiPart] is the multipart the
    constructor made, and the primary body, when there is one, is a text or
    HTML part with content and is the first part. *)
Definition MimeMessage_inv (m : MimeMessage) : Prop :=
  exists ps,
    d_multiPart m = MimeMultiPartMixed (MimePartData_new (ba "multipart/mixed")) ps
    /\ match d_messageBody m with
       | None => True
       | Some body =>
           (exists t, t <> [] /\ (body = MimeText_new t \/ body = MimeHtml_new t))
           /\ exists rest, ps = body :: rest
       end.

(** What a step of serialisation does on an accepting device: it yields [b],
    leaves the device accepting, and only appends to it. *)
Definition yields (c : ST WriterState bool) (b : bool) : Prop :=
  forall st, accepting st ->
    fst (c st) = b
    /\ accepting (snd (c st))
    /\ exists out, dev_data (ws_dev (snd (c st))) = dev_data (ws_dev st) ++ out.

(** [w'] has the socket [w] has (or none, as [w]), and its writes are those
    of [w] followed by clean ones. *)
Definition wireStep (w w' : World) : Prop :=
  match socket (w_d w), socket (w_d w') with
  | Some sk, Some sk' =>
      exists ws, sk_written sk' = sk_written sk ++ ws /\ Forall cleanWrite ws
  | None, None => True
  | _, _ => False
  end.

(** A step of the driver that only adds clean writes. *)
Definition preserves {A} (c : ST World A) : Prop := forall w, wireStep w (snd (c w)).

(** No line is buffered for reading. *)
Definition bufferEmpty (w : World) : Prop :=
  match socket (w_d w) with Some sk => sk_readBuffer sk = [] | None => True end.

(** A step that, when it fails, leaves the connection closed. *)
Definition failsClosed (c : ST World bool) : Prop :=
  forall w, fst (c w) = false -> connectionClosed (snd (c w)).

(* ===================================================================== *)
(** * Part VII-A. Vocabulary of the further properties                     *)
(* ===================================================================== *)

(** The value of a hexadecimal digit. *)
Definition hexValue (c : byte) : option N :=
  let n := Byte.to_N c in
  if ((48 <=? n) && (n <=? 57))%N then Some (n - 48)%N
  else if ((65 <=? n) && (n <=? 70))%N then Some (n - 55)%N
  else if ((97 <=? n) && (n <=? 102))%N then Some (n - 87)%N
  else None.

(** A quoted-printable decoder (RFC 2045, 6.7): a soft line break vanishes,
    an escape gives its byte, every other byte stands for itself. *)
Fixpoint decodeQuotedPrintable (a : QByteArray) : QByteArray :=
  match a with
  | [] => []
  | c :: a' =>
      if Byte.eqb c "="%byte then
        match a' with
        | h :: l :: a'' =>
            if Byte.eqb h CR && Byte.eqb l LF then decodeQuotedPrintable a''
            else
              match hexValue h, hexValue l with
              | Some x, Some y => byte_of_N (16 * x + y) :: decodeQuotedPrintable a''
              | _, _ => c :: decodeQuotedPrintable a'
              end
        | _ => c :: decodeQuotedPrintable a'
        end
      else c :: decodeQuotedPrintable a'
  end.

(** Pieces of [m] items each, but for the last, which has at most [m]. *)
Fixpoint blocked {A} (m : Z) (pieces : list (list A)) : Prop :=
  match pieces with
  | [] => True
  | piece :: pieces' =>
      match pieces' with
      | [] => size piece <= m
      | _ :: _ => size piece = m /\ blocked m pieces'
      end
  end.

(** Hard folding written front to back: a CRLF before every byte that finds
    the current line full. *)
Fixpoint hardFold (maxLine : Z) (data : QByteArray) (lineSize : Z) : QByteArray :=
  match data with
  | [] => []
  | c :: data' =>
      if lineSize >=? maxLine then CRLF ++ c :: hardFold maxLine data' 1
      else c :: hardFold maxLine data' (lineSize + 1)
  end.

(** A code unit that is not half of a surrogate pair. *)
Definition notSurrogate (c : QChar) : Prop :=
  isHighSurrogate c = false /\ isLowSurrogate c = false.

(** The invariant of the splitting loop: full chunks, then one chunk that is
    being filled, and together they are the characters read so far. *)
Definition chunksSoFar (n : Z) (done : QString) (chunks : list QString) : Prop :=
  (chunks = [] /\ done = [])
  \/ exists full k,
       chunks = full ++ [k]
       /\ Forall (fun piece => size piece = n) full
       /\ 1 <= size k <= n
       /\ concat chunks = done.

(** A byte of the class [[A-Za-z0-9\-_\.]]. *)
Definition isNameByte (c : byte) : bool :=
  isAlnumByte c || Byte.eqb c "-"%byte || Byte.eqb c "_"%byte || Byte.eqb c "."%byte.

(** What a step of serialisation does on every device: it only appends to
    the device, draws UUIDs but gives none back, and yields true only if
    [b] holds. *)
Definition sound (c : ST WriterState bool) (b : bool) : Prop :=
  forall st,
    (exists out, dev_data (ws_dev (snd (c st))) = dev_data (ws_dev st) ++ out)
    /\ (ws_uuids st <= ws_uuids (snd (c st)))%nat
    /\ (fst (c st) = true -> b = true).

(** The bytes of the standard headers of a part, as one string. *)
Definition stdHeaderBytes (b : MimePartData) (boundary : QByteArray) : QByteArray :=
  ba "Content-Type: " ++ d_contentType b
  ++ (if isEmpty (d_contentName b) then []
      else ba ";" ++ CRLF ++ ba "  name=" ++ [DQUOTE] ++ d_contentName b ++ [DQUOTE])
  ++ (if isEmpty (d_contentCharset b) then []
      else ba ";" ++ CRLF ++ ba "  charset=" ++ d_contentCharset b)
  ++ (if isEmpty boundary then []
      else ba ";" ++ CRLF ++ ba "  boundary=" ++ boundary)
  ++ CRLF
  ++ match d_contentEncoding b with
     | ContentBase64Encoded => ba "Content-Transfer-Encoding: base64" ++ CRLF
     | ContentQuotedPrintableEncoded =>
         ba "Content-Transfer-Encoding: quoted-printable" ++ CRLF
     | ContentNotEncoded => []
     end.

(** The disposition header of a file part. *)
Definition dispositionBytes (b : MimePartData) (d : Disposition) : QByteArray :=
  match d with
  | DisposeAsAttachment =>
      ba "Content-Disposition: attachment;" ++ CRLF ++ ba "  filename="
        ++ [DQUOTE] ++ d_contentName b ++ [DQUOTE] ++ CRLF
  | DisposeInline => ba "Content-Disposition: inline" ++ CRLF
  | NoDisposition => []
  end.

(** The bytes of a complete part as one string, with the number of UUIDs
    drawn so far going in and coming out: a multipart of two parts or more
    draws one for its boundary, before its parts draw theirs. *)
Fixpoint partBytes (E : Env) (p : MimePart) (uuids : nat) : QByteArray * nat :=
  match p with
  | MimeText b t | MimeHtml b t =>
      (stdHeaderBytes b [] ++ CRLF
         ++ formatQuotedPrintableIntoLines (encodeQuotedPrintable t) MaxLineSize ++ CRLF,
       uuids)
  | MimeFile b content d =>
      (stdHeaderBytes b [] ++ dispositionBytes b d ++ CRLF
         ++ formatDataIntoLines (toBase64 content) MaxLineSize ++ CRLF,
       uuids)
  | MimeMultiPartMixed b ps =>
      match ps with
      | [] => ([], uuids)
      | [q] => partBytes E q uuids
      | _ =>
          let boundary := toHex (createUuid E uuids) in
          let inner :=
            (fix each (ps : list MimePart) (k : nat) : QByteArray * nat :=
               match ps with
               | [] => ([], k)
               | q :: ps' =>
                   let r := partBytes E q k in
                   let r' := each ps' (snd r) in
                   (ba "--" ++ boundary ++ CRLF ++ fst r ++ fst r', snd r')
               end) ps (S uuids) in
          (stdHeaderBytes b boundary ++ CRLF ++ fst inner
             ++ ba "--" ++ boundary ++ ba "--" ++ CRLF,
           snd inner)
      end
  end.

(** A step of serialisation writes [f]: given the number of UUIDs drawn so
    far, [f] gives the bytes and the number of UUIDs afterwards. On a device
    that takes everything all the bytes arrive; on a device with room for
    [room] bytes the first [room] of them arrive, and the step yields true
    exactly if all of them did. *)
Definition renders (c : ST WriterState bool) (f : nat -> QByteArray * nat) : Prop :=
  forall st,
    let out := fst (f (ws_uuids st)) in
    let st' := snd (c st) in
    match dev_room (ws_dev st) with
    | None =>
        fst (c st) = true
        /\ dev_data (ws_dev st') = dev_data (ws_dev st) ++ out
        /\ dev_room (ws_dev st') = None
        /\ ws_uuids st' = snd (f (ws_uuids st))
    | Some room =>
        fst (c st) = (length out <=? room)%nat
        /\ dev_data (ws_dev st') = dev_data (ws_dev st) ++ firstn room out
        /\ dev_room (ws_dev st') = Some (room - length out)%nat
        /\ (fst (c st) = true -> ws_uuids st' = snd (f (ws_uuids st)))
    end.

(** A mixed part of a text and an attached file, and a message that carries
    it; a buffer with room for [room] bytes. *)
Definition sampleMixed : MimePart :=
  MimeMultiPartMixed (MimePartData_new (ba "multipart/mixed"))
    [MimeText_new (qs "hi");
     MimeAttachmentFile_new asciiSpace (fun _ => [ba "text/plain"]) (ba "data") (qs "a.txt")].

Definition sampleMixedMessage : MimeMessage := addMimePart sampleMessage sampleMixed.


(** The bytes of a valid message as one string. *)
Definition messageBytes (E : Env) (m : MimeMessage) (uuids : nat) : QByteArray :=
  MimeMessage_header E m ++ fst (partBytes E (d_multiPart m) uuids) ++ dotTerminator.

(** A string with no percent sign. *)
Definition noPercent (s : QString) : bool := forallb (fun c => negb (c =? 37)%N) s.

(** A template in which every percent sign begins a place marker [%1] ..
    [%9]. *)
Fixpoint wellMarked (s : QString) : bool :=
  match s with
  | [] => true
  | c :: s' =>
      if (c =? 37)%N then
        match s' with
        | d :: s'' => (49 <=? d)%N && (d <=? 57)%N && wellMarked s''
        | [] => false
        end
      else wellMarked s'
  end.

(** Two lists of numbers at the addresses 0 and 1, and empty lists
    elsewhere. *)
Definition sampleLists : nat -> list nat :=
  fun p => match p with O => [1; 2] | S O => [3; 4; 5] | _ => [] end%nat.

(** How many items [appendFrom] and [prependFrom] move: all of them for a
    negative [upTo], and [upTo] of them or all otherwise. *)
Definition movedCount {A} (other : list A) (upTo : Z) : nat :=
  if upTo <? 0 then length other else Nat.min (Z.to_nat upTo) (length other).

(** The configuration of a client: its private data without the status and
    the socket. *)
Definition configOf (d : PrivateData) : PrivateData :=
  set_status (set_socket d None) ST_Disconnected.

(** The byte strings written to the socket so far, oldest first. *)
Definition wireData (w : World) : list QByteArray := map ww_data (written w).

(** A step of the driver that writes nothing and changes neither the
    configuration nor the status. *)
Definition quietStep (w w' : World) : Prop :=
  configOf (w_d w') = configOf (w_d w)
  /\ status (w_d w') = status (w_d w)
  /\ written w' = written w
  /\ (socket (w_d w) = None <-> socket (w_d w') = None).

Definition quietly {A} (c : ST World A) : Prop := forall w, quietStep w (snd (c w)).

(** A step of the driver on a client with a socket. It leaves the
    configuration alone and only adds to what was written. When it yields
    true the status before and after are related by [S] and the strings
    added satisfy [P]; when it yields false the status is as before or
    Disconnected. *)
Definition sendsTo (S : Status -> Status -> Prop) (c : ST World bool)
  (P : list QByteArray -> Prop) : Prop :=
  forall w, socket (w_d w) <> None ->
    configOf (w_d (snd (c w))) = configOf (w_d w)
    /\ socket (w_d (snd (c w))) <> None
    /\ exists out,
         wireData (snd (c w)) = wireData w ++ out
         /\ if fst (c w)
            then S (status (w_d w)) (status (w_d (snd (c w)))) /\ P out
            else status (w_d (snd (c w))) = status (w_d w)
                 \/ status (w_d (snd (c w))) = ST_Disconnected.

(** The strings of one step followed by the strings of the next. *)
Definition thenP (P Q : list QByteArray -> Prop) (out : list QByteArray) : Prop :=
  exists o1 o2, out = o1 ++ o2 /\ P o1 /\ Q o2.

(** The status after a successful connect. *)
Definition becomesConnected (s s' : Status) : Prop := s' = ST_Connected.

(** The commands of the envelope as they go on the wire. *)
Definition mailFromCommand (a : EmailAddress) : QByteArray :=
  toLatin1 (qs "MAIL FROM:<" ++ d_email a ++ qs ">") ++ CRLF.

Definition rcptToCommand (a : EmailAddress) : QByteArray :=
  toLatin1 (qs "RCPT TO:<" ++ d_email a ++ qs ">") ++ CRLF.

Definition ehloCommand (d : PrivateData) : QByteArray :=
  ba "EHLO " ++ toLatin1 (clientHost d) ++ CRLF.

(** A serialisation of the message: what [writeToDev] leaves in a fresh
    buffer when it succeeds, for some state of the UUID source. *)
Definition serialisationOf (E : Env) (msg : MimeMessage) (data : QByteArray) : Prop :=
  exists uuids,
    let r := MimeMessage_writeToDev E msg
               {| ws_dev := {| dev_data := []; dev_room := None |}; ws_uuids := uuids |} in
    fst r = true /\ data = dev_data (ws_dev (snd r)).

(** The strings written by the STARTTLS upgrade and by each authentication
    method, replies left aside: a bound on what goes out, used for the
    status and the configuration. For CRAM-MD5 it says no more than that
    the second string answers some challenge; which one, [authTranscript]
    says, with the replies in the run of events. *)
Definition tlsCommands (d : PrivateData) : list QByteArray :=
  if ConnectionType_eqb (connectionType d) TlsConnection
  then [ba "STARTTLS" ++ CRLF; ehloCommand d] else [].

Definition authCommands (E : Env) (d : PrivateData) (out : list QByteArray) : Prop :=
  match authMethod d with
  | AuthNone => out = []
  | AuthPlain =>
      out = [ba "AUTH PLAIN "
               ++ toBase64 (toLatin1 ([0%N] ++ accountUsername d ++ [0%N] ++ accountPassword d))
               ++ CRLF]
  | AuthLogin =>
      out = [ba "AUTH LOGIN" ++ CRLF;
             toBase64 (toLatin1 (accountUsername d)) ++ CRLF;
             toBase64 (toUtf8 (accountPassword d)) ++ CRLF]
  | AuthCramMd5 =>
      exists challenge,
        out = [ba "AUTH CRAM-MD5" ++ CRLF;
               toBase64 (toLatin1 (accountUsername d) ++ ba " "
                           ++ toHex (hmac_md5 E (toLatin1 (accountPassword d))
                                        (fromBase64 E challenge)))
                 ++ CRLF]
  end.

(** What makes [connectToServer] refuse before it touches the socket. *)
Definition notReadyToConnect (d : PrivateData) : bool :=
  negb (Status_eqb (status d) ST_Disconnected)
  || match socket d with None => true | Some _ => false end
  || isEmpty (serverHost d) || (serverPort d =? 0)
  || isEmpty (clientHost d)
  || (negb (AuthMethod_eqb (authMethod d) AuthNone)
      && (isEmpty (accountUsername d) || isEmpty (accountPassword d))).

(** The first line of a reply that ends it: trimmed, its fourth byte is a
    space. The lines before it are continuation lines or too short; the
    lines behind it are returned untouched. *)
Fixpoint firstTerminal (lines : list QByteArray) : option (QByteArray * list QByteArray) :=
  match lines with
  | [] => None
  | raw :: rest =>
      if bytes_eqb (mid (trimmed raw) 3 1) (ba " ") then Some (trimmed raw, rest)
      else firstTerminal rest
  end.

(** The reply that a wait finds: each move of the peer adds its lines to
    the buffer, and the buffer is searched for a terminal line after each
    move that brought something. A timeout, or a peer with no move left,
    ends the wait without a reply. *)
Fixpoint replyFrom (buffer : list QByteArray) (peer : list PeerEvent)
  : option (QByteArray * list QByteArray * list PeerEvent) :=
  match peer with
  | [] => None
  | TimesOut :: _ => None
  | Arrives lines :: rest =>
      match firstTerminal (buffer ++ lines) with
      | Some (l, after) => Some (l, after, rest)
      | None => replyFrom [] rest
      end
  end.

(** What the caller gets for a terminal line. *)
Definition replyVerdict (expectedCode l : QByteArray) : bool * QByteArray :=
  if bytes_eqb (left l 3) expectedCode then (true, skipn 4 l) else (false, []).

(** The socket with another read buffer and another script of the peer. *)
Definition withInput (sk : QTcpSocket) (buffer : list QByteArray) (peer : list PeerEvent)
  : QTcpSocket :=
  {| sk_open := sk_open sk; sk_connects := sk_connects sk; sk_encrypts := sk_encrypts sk;
     sk_errorString := sk_errorString sk; sk_readBuffer := buffer;
     sk_peer := peer; sk_written := sk_written sk |}.

(** The record that [pn_logTraffic] hands to the log when traffic logging
    is on. *)
Definition trafficRecord (E : Env) (who msg : QByteArray) : LogRecord :=
  RTLogHandler_emit
    (RTLogHandler_args (RTLogHandler_new Debug (qs "log-traffic > %1: %2"))
       [fromUtf8 E who; fromUtf8 E msg]).

(** A fresh buffer device, as [pn_sendMessage] opens one for a message. *)
Definition freshBuffer (uuids : nat) : WriterState :=
  {| ws_dev := {| dev_data := []; dev_room := None |}; ws_uuids := uuids |}.

(** What a step of the driver hands to the log. The traffic-log switch is
    left alone and records are only added. A step that succeeds ([ok]) adds
    debug records only, and none when traffic logging is off; a step that
    fails adds a warning. *)
Definition appended (w w' : World) : Prop :=
  logSocketTraffic (w_d w') = logSocketTraffic (w_d w)
  /\ exists l, w_log w' = w_log w ++ l.

Definition logStep (ok : bool) (w w' : World) : Prop :=
  logSocketTraffic (w_d w') = logSocketTraffic (w_d w)
  /\ exists l,
       w_log w' = w_log w ++ l
       /\ if ok
          then Forall (fun r => rec_type r = Debug) l
               /\ (logSocketTraffic (w_d w) = false -> l = [])
          else Exists (fun r => rec_type r = Warning) l.

(** [ok] tells which results count as success. *)
Definition reports {A} (ok : A -> bool) (c : ST World A) : Prop :=
  forall w, logStep (ok (fst (c w))) w (snd (c w)).

Definition appendsLog {A} (c : ST World A) : Prop :=
  forall w, appended w (snd (c w)).

(** Every result counts as success, and none does. *)
Definition anyResult {A} (a : A) : bool := true.
Definition noResult {A} (a : A) : bool := false.

(** The reply of [readReplyLines] that is a mismatch. *)
Definition replyOk (r : option (bool * QByteArray)) : bool :=
  match r with Some (false, _) => false | _ => true end.

(** A boolean result counts as success when it is true. *)
Definition isTrue (b : bool) : bool := b.

(** The result of a wait counts as success when its first component is
    true. *)
Definition replyTrue (r : bool * QByteArray) : bool := fst r.

(** A step that reports its successes only: it adds to the log, and debug
    records only when it succeeds; a failure may go without a warning. *)
Definition reportsSuccess {A} (ok : A -> bool) (c : ST World A) : Prop :=
  forall w, appended w (snd (c w))
            /\ (ok (fst (c w)) = true -> logStep true w (snd (c w))).

(** What passes between the client and the server, as the client sees it:
    a string it wrote, or the terminal line of a reply it read. *)
Inductive Event :=
| Sent (data : QByteArray)
| Got (line : QByteArray).

(** The traffic state of a socket: the lines buffered for reading, what the
    peer will do, and the strings written so far. *)
Record Traffic := {
  t_buffer : list QByteArray;
  t_peer : list PeerEvent;
  t_written : list QByteArray
}.

Definition trafficOf (sk : QTcpSocket) : Traffic :=
  {| t_buffer := sk_readBuffer sk; t_peer := sk_peer sk;
     t_written := map ww_data (sk_written sk) |}.

(** A run of events from one traffic state to another. A string is sent
    while nothing is buffered, and is added to what was written. A reply is
    the one that [replyFrom] finds in the buffer and in the moves of the
    peer: its terminal line is the event, the lines behind it stay
    buffered, and the peer goes on from there. *)
Fixpoint dialogue (t : Traffic) (events : list Event) (t' : Traffic) : Prop :=
  match events with
  | [] => t' = t
  | Sent data :: events' =>
      t_buffer t = []
      /\ dialogue {| t_buffer := []; t_peer := t_peer t;
                     t_written := t_written t ++ [data] |} events' t'
  | Got l :: events' =>
      exists after rest,
        replyFrom (t_buffer t) (t_peer t) = Some (l, after, rest)
        /\ dialogue {| t_buffer := after; t_peer := rest;
                       t_written := t_written t |} events' t'
  end.

(** The strings sent in a run of events. *)
Definition sentData (events : list Event) : list QByteArray :=
  flat_map (fun e => match e with Sent data => [data] | Got _ => [] end) events.

(** A reply line with the given code: its first three bytes. The text of
    the reply is what stands behind the code and the separator. *)
Definition replied (code l : QByteArray) : Prop := left l 3 = code.
Definition replyText (l : QByteArray) : QByteArray := skipn 4 l.

(** A command and the reply to it. *)
Definition exchange (data code : QByteArray) (events : list Event) : Prop :=
  exists l, events = [Sent (data ++ CRLF); Got l] /\ replied code l.

(** The events of the STARTTLS upgrade. *)
Definition tlsTranscript (d : PrivateData) (events : list Event) : Prop :=
  if ConnectionType_eqb (connectionType d) TlsConnection
  then exists l1 l2,
         events = [Sent (ba "STARTTLS" ++ CRLF); Got l1; Sent (ehloCommand d); Got l2]
         /\ replied (ba "220") l1 /\ replied (ba "250") l2
  else events = [].

(** The answer to a CRAM-MD5 challenge: the user name, a space, and the
    HMAC-MD5 of the decoded challenge under the password, in hexadecimal;
    all of it in Base64. *)
Definition cramAnswer (E : Env) (d : PrivateData) (challenge : QByteArray) : QByteArray :=
  toBase64 (toLatin1 (accountUsername d) ++ ba " "
              ++ toHex (hmac_md5 E (toLatin1 (accountPassword d))
                          (fromBase64 E challenge))).

(** The events of each authentication method. For CRAM-MD5 the client
    answers the challenge that is the text of the 334 reply it got. *)
Definition authTranscript (E : Env) (d : PrivateData) (events : list Event) : Prop :=
  match authMethod d with
  | AuthNone => events = []
  | AuthPlain =>
      exchange (ba "AUTH PLAIN "
                  ++ toBase64 (toLatin1 ([0%N] ++ accountUsername d ++ [0%N]
                                           ++ accountPassword d)))
               (ba "235") events
  | AuthLogin =>
      exists l1 l2 l3,
        events = [Sent (ba "AUTH LOGIN" ++ CRLF); Got l1;
                  Sent (toBase64 (toLatin1 (accountUsername d)) ++ CRLF); Got l2;
                  Sent (toBase64 (toUtf8 (accountPassword d)) ++ CRLF); Got l3]
        /\ replied (ba "334") l1 /\ replied (ba "334") l2 /\ replied (ba "235") l3
  | AuthCramMd5 =>
      exists challenge l,
        events = [Sent (ba "AUTH CRAM-MD5" ++ CRLF); Got challenge;
                  Sent (cramAnswer E d (replyText challenge) ++ CRLF); Got l]
        /\ replied (ba "334") challenge /\ replied (ba "235") l
  end.

(** The events of a successful [connectToServer]. *)
Definition connectTranscript (E : Env) (d : PrivateData) (events : list Event) : Prop :=
  exists greeting hello tls auth,
    events = Got greeting :: Sent (ehloCommand d) :: Got hello :: tls ++ auth
    /\ replied (ba "220") greeting /\ replied (ba "250") hello
    /\ tlsTranscript d tls /\ authTranscript E d auth.

(** A step of the driver that, when it yields true on a client with a
    socket, has run events that satisfy [P]. *)
Definition talks (c : ST World bool) (P : list Event -> Prop) : Prop :=
  forall w sk,
    socket (w_d w) = Some sk -> fst (c w) = true ->
    exists sk' events,
      socket (w_d (snd (c w))) = Some sk'
      /\ dialogue (trafficOf sk) events (trafficOf sk')
      /\ P events.

(** A step that leaves the traffic state alone. *)
Definition keepsTraffic {A} (c : ST World A) : Prop :=
  forall w sk,
    socket (w_d w) = Some sk ->
    exists sk', socket (w_d (snd (c w))) = Some sk' /\ trafficOf sk' = trafficOf sk.

(** The events of one step followed by the events of the next. *)
Definition thenE (P Q : list Event -> Prop) (events : list Event) : Prop :=
  exists e1 e2, events = e1 ++ e2 /\ P e1 /\ Q e2.

(** Collaborators under which the answer to a challenge shows the
    challenge: the HMAC of a message is the message. *)
Definition echoEnv : Env :=
  {| rex_email := rex_email sampleEnv; currentDateTime := currentDateTime sampleEnv;
     createUuid := createUuid sampleEnv; fromUtf8 := fromUtf8 sampleEnv;
     fromBase64 := fun a => a; hmac_md5 := fun _ msg => msg |}.

(** A client set up for CRAM-MD5, and a server that greets, answers EHLO,
    sends a challenge and accepts the answer. *)
Definition cramPeer : list PeerEvent :=
  [Arrives [line "220 x"]; Arrives [line "250 OK"]; Arrives [line "334 abc"];
   Arrives [line "235 ok"]].

Definition cramWorld : World :=
  {| w_d :=
       set_socket
         (set_connectionType
            (setAccountPassword
               (setAccountUser
                  (setAuthMethod
                     (setServerPort
                        (setServerHost (PrivateData_new (qs "h")) (qs "mail.b.co")) 25)
                     AuthCramMd5)
                  (qs "u"))
               (qs "p"))
            TcpConnection)
         (Some (QTcpSocket_new true true cramPeer));
     w_log := []; w_uuids := 0 |}.

(* ===================================================================== *)
(** * Part VIII. Theorems                                                  *)
(* ===================================================================== *)

(** ** Logging: positional substitution *)

(** C9. The claim asks for single-pass substitution in which text brought in
    by an earlier argument is never substituted again. The code re-scans:
    with the template [%1-%2] and the arguments [%2] and [x], the [%2] that
    the first argument brought in is replaced by the second argument, so the
    message is [x-x]; the single-pass formatter of Qt ([QString::arg] with
    several arguments) gives [%2-x]. *)
Theorem RTLogHandler_arg_rescans :
  log_msg (RTLogHandler_args (RTLogHandler_new Debug (qs "%1-%2")) [qs "%2"; qs "x"])
    = qs "x-x"
  /\ arg (qs "%1-%2") [qs "%2"; qs "x"] = qs "%2-x".
Proof. split; vm_compute; reflexivity. Qed.

(** ** Client configuration *)

Lemma Status_eqb_eq (a b : Status) : Status_eqb a b = true <-> a = b.
Proof. destruct a, b; simpl; split; congruence. Qed.

Lemma AuthMethod_eqb_eq (a b : AuthMethod) : AuthMethod_eqb a b = true <-> a = b.
Proof. destruct a, b; simpl; split; congruence. Qed.

(** C3, as stated, fails: the traffic-log switch is not gated by the status. *)
Lemma trafficLog_setter_not_gated :
  let d := set_status (PrivateData_new (qs "h")) ST_Connected in
  status d = ST_Connected
  /\ callSetter d (SetSocketTrafficLogEnabled true) <> d.
Proof. simpl. split; [reflexivity | discriminate]. Qed.

(** C3, amended. While the status is Connected, every listed setter other
    than the traffic-log switch leaves the whole private data as it is; the
    traffic-log switch stores its argument whatever the status. *)
Theorem setters_ignored_while_connected (d : PrivateData) (s : Setter) :
  status d = ST_Connected ->
  match s with
  | SetSocketTrafficLogEnabled on => callSetter d s = set_logSocketTraffic d on
  | _ => callSetter d s = d
  end.
Proof.
  intros Hc. destruct s; simpl;
    unfold setServerHost, setServerPort, setClientHost, setAuthMethod, setAccountUser,
      setAccountPassword, setConnectionTimeout, setResponseTimeout, setSendTimeout,
      setSocketTrafficLogEnabled;
    rewrite ?Hc; reflexivity.
Qed.

Lemma setters_ignored_while_connected_witness :
  callSetter (set_status (PrivateData_new (qs "h")) ST_Connected)
             (SetServerHost (qs "mail.b.co"))
  = set_status (PrivateData_new (qs "h")) ST_Connected.
Proof.
  apply (setters_ignored_while_connected
           (set_status (PrivateData_new (qs "h")) ST_Connected)
           (SetServerHost (qs "mail.b.co"))).
  reflexivity.
Defined.

(** C10. On a Disconnected client, [setAccountUser] and [setAccountPassword]
    switch the authentication method from AuthNone to AuthPlain, and leave
    any other method as it is. *)
Theorem setAccount_switches_AuthNone_to_AuthPlain (d : PrivateData) (v : QString) :
  status d = ST_Disconnected ->
  (authMethod d = AuthNone ->
     authMethod (setAccountUser d v) = AuthPlain
     /\ authMethod (setAccountPassword d v) = AuthPlain)
  /\ (authMethod d <> AuthNone ->
        authMethod (setAccountUser d v) = authMethod d
        /\ authMethod (setAccountPassword d v) = authMethod d)
  /\ accountUsername (setAccountUser d v) = v
  /\ accountPassword (setAccountPassword d v) = v.
Proof.
  intros Hd. unfold setAccountUser, setAccountPassword. rewrite Hd. simpl.
  split; [| split; [| split]].
  - intros Hn. rewrite Hn. split; reflexivity.
  - intros Hn. destruct (authMethod d) eqn:Ha; simpl; rewrite ?Ha;
      try congruence; split; reflexivity.
  - destruct (authMethod d); reflexivity.
  - destruct (authMethod d); reflexivity.
Qed.

Lemma setAccount_switches_AuthNone_to_AuthPlain_witness :
  authMethod (setAccountUser (PrivateData_new (qs "h")) (qs "ann")) = AuthPlain
  /\ authMethod (setAccountPassword (set_authMethod (PrivateData_new (qs "h")) AuthLogin)
                   (qs "secret")) = AuthLogin.
Proof.
  split.
  - apply (setAccount_switches_AuthNone_to_AuthPlain
             (PrivateData_new (qs "h")) (qs "ann")); reflexivity.
  - apply (setAccount_switches_AuthNone_to_AuthPlain
             (set_authMethod (PrivateData_new (qs "h")) AuthLogin) (qs "secret"));
      [reflexivity | discriminate].
Defined.

(** ** Quoted-printable encoding *)

(** The body of the encoding loop, byte by byte, is the unit of the
    specification. *)
Lemma encode_step_qpUnit (c : byte) :
  (if pn_needEscapeForQuotedPrintableEncoding (qint8 c)
   then "="%byte :: toUpper (toHex [c]) else [c]) = qpUnit c.
Proof. destruct c; reflexivity. Qed.

Lemma encode_loop_flat_map (bytes acc : QByteArray) :
  fold_left
    (fun output inputChar =>
       if pn_needEscapeForQuotedPrintableEncoding (qint8 inputChar)
       then output ++ ("="%byte :: toUpper (toHex [inputChar]))
       else output ++ [inputChar])
    bytes acc
  = acc ++ flat_map qpUnit bytes.
Proof.
  revert acc. induction bytes as [| c bytes IH]; intros acc; simpl.
  - now rewrite app_nil_r.
  - rewrite IH, <- encode_step_qpUnit.
    destruct (pn_needEscapeForQuotedPrintableEncoding (qint8 c));
      now rewrite <- app_assoc.
Qed.

Lemma encodeQuotedPrintable_flat_map (text : QString) :
  encodeQuotedPrintable text = flat_map qpUnit (toUtf8 text).
Proof.
  unfold encodeQuotedPrintable. destruct text as [| c text]; [reflexivity |].
  cbn [isEmpty]. now rewrite encode_loop_flat_map.
Qed.

(** C4. [encodeQuotedPrintable] maps the UTF-8 bytes of its input, in order,
    to themselves when they are in [[0-9A-Za-z]] and to [=HH] with uppercase
    hexadecimal digits otherwise; the input a=b followed by a line feed
    gives a=3Db=0A. *)
Theorem encodeQuotedPrintable_bytewise :
  (forall text : QString,
      encodeQuotedPrintable text = flat_map qpUnit (toUtf8 text))
  /\ (forall c : byte,
        qpUnit c = if isAlnumByte c then [c]
                   else ["="%byte; hexUpper (Byte.to_N c / 16);
                         hexUpper (Byte.to_N c mod 16)])
  /\ encodeQuotedPrintable (qs "a=b" ++ [10%N]) = ba "a=3Db=0A".
Proof.
  split; [exact encodeQuotedPrintable_flat_map |].
  split; [reflexivity | vm_compute; reflexivity].
Qed.

(** ** Multipart collapse *)

(** A step of serialisation that draws no UUID. *)
Lemma writeDataToDev_uuids (data : QByteArray) (st : WriterState) :
  ws_uuids (snd (writeDataToDev data st)) = ws_uuids st.
Proof. reflexivity. Qed.

Lemma check_uuids (c k : ST WriterState bool) :
  (forall st, ws_uuids (snd (c st)) = ws_uuids st) ->
  (forall st, ws_uuids (snd (k st)) = ws_uuids st) ->
  forall st, ws_uuids (snd ((check c ;; k) st)) = ws_uuids st.
Proof.
  intros Hc Hk st. unfold bind. destruct (fst (c st)).
  - now rewrite Hk, Hc.
  - cbn. apply Hc.
Qed.

Lemma writeStdHeadersToDev_uuids (base : MimePartData) (boundary : QByteArray)
  (st : WriterState) :
  ws_uuids (snd (writeStdHeadersToDev base boundary st)) = ws_uuids st.
Proof.
  unfold writeStdHeadersToDev. destruct (isEmpty (d_contentType base)); [reflexivity |].
  apply check_uuids; [intros; apply writeDataToDev_uuids |].
  intros st'. destruct (negb (isEmpty _)); [| reflexivity].
  apply check_uuids; [intros; apply writeDataToDev_uuids | reflexivity].
Qed.

(** Text, HTML and file parts draw no UUID. *)
Lemma leaf_writeToDev_uuids (E : Env) (p : MimePart) (st : WriterState) :
  match p with MimeMultiPartMixed _ _ => False | _ => True end ->
  ws_uuids (snd (MimePart_writeToDev E p st)) = ws_uuids st.
Proof.
  destruct p as [base t | base t | base content disp | base ps]; intros Hleaf;
    [| | | contradiction]; cbn [MimePart_writeToDev].
  - destruct (isEmpty t); [reflexivity |].
    repeat (apply check_uuids;
            [intros; first [apply writeStdHeadersToDev_uuids | apply writeDataToDev_uuids] |]).
    reflexivity.
  - destruct (isEmpty t); [reflexivity |].
    repeat (apply check_uuids;
            [intros; first [apply writeStdHeadersToDev_uuids | apply writeDataToDev_uuids] |]).
    reflexivity.
  - destruct (isEmpty (d_contentName base) || isEmpty content); [reflexivity |].
    apply check_uuids; [intros; apply writeStdHeadersToDev_uuids |].
    apply check_uuids.
    + intros st'. destruct (negb (isEmpty _)); [apply writeDataToDev_uuids | reflexivity].
    + repeat (apply check_uuids; [intros; apply writeDataToDev_uuids |]). reflexivity.
Qed.

(** C7. A multipart with the single child [p] serialises exactly as [p]
    does: same result, same bytes on the device, same number of UUIDs drawn,
    from every state of the device; so when [p] is a text, HTML or file part
    no boundary is generated at all. An empty multipart fails and writes
    nothing. With the text part [hi] as only child the bytes written are
    those of the text part, without a multipart header or boundary line. *)
Theorem multipart_single_child_transparent (E : Env) (base : MimePartData)
  (p : MimePart) (st : WriterState) :
  MimePart_writeToDev E (MimeMultiPartMixed base [p]) st = MimePart_writeToDev E p st
  /\ (match p with MimeMultiPartMixed _ _ => False | _ => True end ->
      ws_uuids (snd (MimePart_writeToDev E (MimeMultiPartMixed base [p]) st))
      = ws_uuids st)
  /\ MimePart_writeToDev E (MimeMultiPartMixed base []) st = (false, st)
  /\ MimePart_writeToDev E (MimeMultiPartMixed base [MimeText_new (qs "hi")]) emptyBuffer
     = (true,
        {| ws_dev :=
             {| dev_data :=
                  ba "Content-Type: text/plain;" ++ CRLF ++ ba "  charset=UTF-8" ++ CRLF
                  ++ ba "Content-Transfer-Encoding: quoted-printable" ++ CRLF
                  ++ CRLF ++ ba "hi" ++ CRLF;
                dev_room := None |};
           ws_uuids := 0 |}).
Proof.
  split; [reflexivity |]. split; [| split].
  - intros Hleaf.
    change (MimePart_writeToDev E (MimeMultiPartMixed base [p]) st)
      with (MimePart_writeToDev E p st).
    now apply leaf_writeToDev_uuids.
  - reflexivity.
  - vm_compute. reflexivity.
Qed.

Lemma multipart_single_child_transparent_witness :
  ws_uuids (snd (MimePart_writeToDev sampleEnv
                   (MimeMultiPartMixed (MimePartData_new (ba "multipart/mixed"))
                      [MimeHtml_new (qs "x")])
                   emptyBuffer))
  = 0%nat.
Proof.
  apply (multipart_single_child_transparent sampleEnv
           (MimePartData_new (ba "multipart/mixed")) (MimeHtml_new (qs "x")) emptyBuffer).
  exact I.
Defined.

(** ** Quoted-printable line folding *)

(** A unit is one plain byte, or an escape of three bytes that starts with
    the equals sign. *)
Lemma qpUnit_shape (c : byte) :
  (qpUnit c = [c] /\ Byte.eqb c "="%byte = false)
  \/ (exists h l, qpUnit c = ["="%byte; h; l]).
Proof.
  destruct c;
    first [ left; split; reflexivity
          | right; eexists; eexists; reflexivity ].
Qed.

Lemma qpUnit_noCR (c : byte) : Forall (fun x => Byte.eqb x CR = false) (qpUnit c).
Proof. destruct c; repeat constructor. Qed.

Lemma qpUnit_size (c : byte) : 1 <= size (qpUnit c) <= 3.
Proof.
  destruct (qpUnit_shape c) as [[-> _] | (h & l & ->)]; unfold size; simpl; lia.
Qed.

(** The loop of the code, started at the end of [pre] with the units of
    [bytes] ahead, writes what the emitter of the specification writes. *)
Lemma formatQP_loop_foldUnits (maxLine : Z) (bytes : QByteArray) :
  forall (fuel : nat) (pre : QByteArray) (last : Z) (out : QByteArray),
    (length (flat_map qpUnit bytes) <= fuel)%nat ->
    formatQP_loop fuel (pre ++ flat_map qpUnit bytes) (maxLine - 1) (length pre) last out
    = out ++ foldUnits maxLine (map qpUnit bytes) last.
Proof.
  induction bytes as [| c bytes IH]; intros fuel pre last out Hfuel.
  - simpl. rewrite !app_nil_r.
    destruct fuel; simpl; [reflexivity |].
    now rewrite Nat.ltb_irrefl.
  - cbn [flat_map map foldUnits] in *.
    rewrite length_app in Hfuel.
    pose proof (qpUnit_size c) as Hsz. unfold size in Hsz.
    destruct fuel as [| fuel]; [lia |].
    cbn [formatQP_loop].
    replace (length pre <? length (pre ++ qpUnit c ++ flat_map qpUnit bytes))%nat
      with true by (symmetry; apply Nat.ltb_lt; rewrite !length_app; lia).
    assert (Hat : at_ (pre ++ qpUnit c ++ flat_map qpUnit bytes) (length pre)
                  = hd x00 (qpUnit c)).
    { unfold at_. rewrite app_nth2, Nat.sub_diag by lia.
      destruct (qpUnit c); [simpl in Hsz; lia | reflexivity]. }
    rewrite Hat.
    assert (Hmid : forall n, n = length (qpUnit c) ->
              mid (pre ++ qpUnit c ++ flat_map qpUnit bytes) (length pre) n = qpUnit c).
    { intros n ->. unfold mid. rewrite skipn_app, Nat.sub_diag, skipn_all. simpl.
      rewrite firstn_app, Nat.sub_diag, firstn_all. simpl. now rewrite app_nil_r. }
    assert (Hreq : (if Byte.eqb (hd x00 (qpUnit c)) "="%byte then 3%nat else 1%nat)
                   = length (qpUnit c)).
    { destruct (qpUnit_shape c) as [[-> Hne] | (h & l & ->)]; simpl;
        [now rewrite Hne | reflexivity]. }
    rewrite Hreq, Hmid by reflexivity.
    replace (pre ++ qpUnit c ++ flat_map qpUnit bytes)
      with ((pre ++ qpUnit c) ++ flat_map qpUnit bytes) by now rewrite app_assoc.
    replace (length pre + length (qpUnit c))%nat with (length (pre ++ qpUnit c))
      by now rewrite length_app.
    rewrite IH by lia. unfold size, softBreak.
    destruct (last + Z.of_nat (length (qpUnit c)) >? maxLine - 1);
      rewrite <- ?app_assoc; simpl; rewrite ?Z.add_0_l; reflexivity.
Qed.

Lemma flat_map_qpUnit_nil (bytes : QByteArray) :
  flat_map qpUnit bytes = [] -> bytes = [].
Proof.
  destruct bytes as [| c bytes]; [reflexivity |]. simpl.
  pose proof (qpUnit_size c) as Hsz. unfold size in Hsz.
  destruct (qpUnit c); simpl in *; [lia | discriminate].
Qed.

Lemma formatQuotedPrintableIntoLines_foldUnits (maxLine : Z) (bytes : QByteArray) :
  0 < maxLine ->
  formatQuotedPrintableIntoLines (flat_map qpUnit bytes) maxLine
  = foldUnits maxLine (map qpUnit bytes) 0.
Proof.
  intros Hpos. unfold formatQuotedPrintableIntoLines.
  replace (maxLine <=? 0) with false by (symmetry; apply Z.leb_gt; lia).
  destruct (flat_map qpUnit bytes) eqn:Hflat.
  - apply flat_map_qpUnit_nil in Hflat. now subst.
  - cbn [isEmpty]. rewrite <- Hflat.
    apply (formatQP_loop_foldUnits maxLine bytes _ [] 0 []). lia.
Qed.

(** Reading lines: a byte other than CR joins the current line, and the soft
    break ends it after its equals sign. *)
Lemma linesFrom_cons_noCR (c : byte) (cur rest : QByteArray) :
  Byte.eqb c CR = false -> linesFrom cur (c :: rest) = linesFrom (cur ++ [c]) rest.
Proof. intros Hc. simpl. rewrite Hc. destruct rest; reflexivity. Qed.

Lemma linesFrom_app_noCR (u cur rest : QByteArray) :
  Forall (fun x => Byte.eqb x CR = false) u ->
  linesFrom cur (u ++ rest) = linesFrom (cur ++ u) rest.
Proof.
  revert cur. induction u as [| c u IH]; intros cur Hu.
  - now rewrite app_nil_r.
  - inversion Hu; subst. rewrite <- app_comm_cons, linesFrom_cons_noCR by assumption.
    rewrite IH by assumption. now rewrite <- app_assoc.
Qed.

Lemma linesFrom_softBreak (cur rest : QByteArray) :
  linesFrom cur (softBreak ++ rest) = (cur ++ ["="%byte]) :: linesFrom [] rest.
Proof. reflexivity. Qed.

(** The invariant of the emitter: the line being written never exceeds
    [maxLine - 1] bytes, so that a soft break still fits. *)
Lemma foldUnits_lines (maxLine : Z) (bytes : QByteArray) :
  4 <= maxLine ->
  forall cur : QByteArray,
    size cur <= maxLine - 1 ->
    Forall (fun l => size l <= maxLine)
           (linesFrom cur (foldUnits maxLine (map qpUnit bytes) (size cur))).
Proof.
  intros Hmax. induction bytes as [| c bytes IH]; intros cur Hcur.
  - simpl. constructor; [lia | constructor].
  - cbn [map foldUnits].
    pose proof (qpUnit_size c) as Hsz.
    destruct (size cur + size (qpUnit c) >? maxLine - 1) eqn:Hov.
    + rewrite linesFrom_softBreak. constructor.
      * unfold size in *. rewrite length_app. simpl. lia.
      * rewrite linesFrom_app_noCR by apply qpUnit_noCR. simpl.
        apply IH. lia.
    + rewrite linesFrom_app_noCR by apply qpUnit_noCR.
      replace (size cur + size (qpUnit c)) with (size (cur ++ qpUnit c))
        by (unfold size; rewrite length_app; lia).
      apply IH. unfold size in *. rewrite length_app.
      rewrite Z.gtb_ltb in Hov. apply Z.ltb_ge in Hov. lia.
Qed.

Lemma foldUnits_unitsWithBreaks (maxLine : Z) (units : list QByteArray) :
  forall last : Z,
    exists breaks : list bool,
      length breaks = length units
      /\ foldUnits maxLine units last = unitsWithBreaks breaks units.
Proof.
  induction units as [| u units IH]; intros last.
  - exists []. split; reflexivity.
  - cbn [foldUnits].
    destruct (last + size u >? maxLine - 1).
    + destruct (IH (size u)) as (breaks & Hlen & ->).
      exists (true :: breaks). split; [simpl; congruence |].
      unfold unitsWithBreaks. reflexivity.
    + destruct (IH (last + size u)) as (breaks & Hlen & ->).
      exists (false :: breaks). split; [simpl; congruence | reflexivity].
Qed.

(** The fuel of the folding loop is enough for every input: fuel beyond the
    number of bytes left does not change the result. *)
Lemma formatQP_loop_fuel (encoded : QByteArray) (maxSrc : Z) :
  forall (fuel extra ix : nat) (last : Z) (out : QByteArray),
    (length encoded - ix <= fuel)%nat ->
    formatQP_loop (fuel + extra) encoded maxSrc ix last out
    = formatQP_loop fuel encoded maxSrc ix last out.
Proof.
  induction fuel as [| fuel IH]; intros extra ix last out Hfuel.
  - destruct extra as [| extra]; [reflexivity |]. cbn [Nat.add formatQP_loop].
    replace (ix <? length encoded)%nat with false
      by (symmetry; apply Nat.ltb_ge; lia).
    reflexivity.
  - cbn [Nat.add formatQP_loop].
    destruct (ix <? length encoded)%nat; [| reflexivity].
    apply IH. destruct (Byte.eqb (at_ encoded ix) "="%byte); lia.
Qed.

(** C5, as stated, fails for line sizes below 4: with [maxLine = 3] two
    escapes in a row give the line [=3D=], which has four bytes. *)
Lemma formatQuotedPrintableIntoLines_overlong_line :
  0 < 3 <= 998
  /\ ~ Forall (fun l => size l <= 3)
         (linesOf (formatQuotedPrintableIntoLines (encodeQuotedPrintable (qs "==")) 3)).
Proof.
  split; [lia |]. intros H. vm_compute in H.
  inversion H as [| ? ? _ H1]; subst. inversion H1 as [| ? ? H2 _]; subst.
  apply H2. reflexivity.
Qed.

(** C5, amended to line sizes from 4 to 998. For quoted-printable input the
    code writes what the emitter of the specification writes (a soft break
    before each unit that would exceed [maxLine - 1] on the current line);
    every line of the output has at most [maxLine] bytes; and every unit,
    so every escape, is written whole. *)
Theorem formatQuotedPrintableIntoLines_bounded (text : QString) (maxLine : Z) :
  4 <= maxLine <= 998 ->
  let units := map qpUnit (toUtf8 text) in
  let out := formatQuotedPrintableIntoLines (encodeQuotedPrintable text) maxLine in
  out = foldUnits maxLine units 0
  /\ Forall (fun l => size l <= maxLine) (linesOf out)
  /\ exists breaks : list bool,
       length breaks = length units /\ out = unitsWithBreaks breaks units.
Proof.
  intros Hmax units out.
  assert (Hout : out = foldUnits maxLine units 0).
  { unfold out. rewrite encodeQuotedPrintable_flat_map.
    apply formatQuotedPrintableIntoLines_foldUnits. lia. }
  split; [exact Hout |]. rewrite Hout. split.
  - apply (foldUnits_lines maxLine (toUtf8 text) ltac:(lia) []). unfold size. simpl. lia.
  - apply foldUnits_unitsWithBreaks.
Qed.

Lemma formatQuotedPrintableIntoLines_bounded_witness :
  Forall (fun l => size l <= 4)
    (linesOf (formatQuotedPrintableIntoLines (encodeQuotedPrintable (qs "a==b")) 4)).
Proof.
  apply (formatQuotedPrintableIntoLines_bounded (qs "a==b") 4). lia.
Defined.

(** ** Encoded words *)

Lemma encodeMimeWord_loop_step (word : QString -> QByteArray) (text : QString)
  (maxWordSize n : Z) :
  encodeMimeWord_loop word text maxWordSize n =
  if (snd (encodeWords word (pn_splitTextIntoChunks text n)) <=? maxWordSize) || (n <=? 1)
  then join (CR :: LF :: ba " ") (fst (encodeWords word (pn_splitTextIntoChunks text n)))
  else encodeMimeWord_loop word text maxWordSize (reduceSize n).
Proof.
  rewrite encodeMimeWord_loop_equation_1.
  unfold encodeMimeWord_loop_unfold_clause_1.
  destruct (inspect _) as [[] H]; rewrite H; reflexivity.
Qed.

Lemma reduceSize_ceilHalf (n : Z) : 0 <= n -> reduceSize n = ceilHalf n.
Proof.
  intros H. unfold reduceSize, ceilHalf.
  rewrite Z.quot_div_nonneg, Z.rem_mod_nonneg by lia.
  Z.div_mod_to_equations. lia.
Qed.

Lemma wordStep_fold (word : QString -> QByteArray) (chunks : list QString) :
  forall (ws : list QByteArray) (m : Z),
    fst (fold_left (wordStep word) chunks (ws, m)) = ws ++ map word chunks
    /\ forall M, snd (fold_left (wordStep word) chunks (ws, m)) <= M
                 <-> m <= M /\ allFit M (map word chunks).
Proof.
  unfold allFit. induction chunks as [| c chunks IH]; intros ws m.
  - simpl. split; [now rewrite app_nil_r |]. intros M. split.
    + intros H. split; [exact H | constructor].
    + intros [H _]. exact H.
  - cbn [fold_left map]. unfold wordStep at 2 4. cbn [fst snd].
    destruct (IH (ws ++ [word c]) (Z.max m (size (word c)))) as [Hf Hs].
    split; [rewrite Hf; now rewrite <- app_assoc |].
    intros M. rewrite Hs. split.
    + intros [Hm Hall]. split; [lia |]. constructor; [lia | exact Hall].
    + intros [Hm Hall]. inversion Hall; subst. split; [lia | assumption].
Qed.

Lemma encodeWords_fst (word : QString -> QByteArray) (chunks : list QString) :
  fst (encodeWords word chunks) = map word chunks.
Proof. unfold encodeWords. now rewrite (proj1 (wordStep_fold word chunks [] 0)). Qed.

(** With at least one chunk, the longest word fits exactly when all do. *)
Lemma encodeWords_snd (word : QString -> QByteArray) (chunks : list QString) (M : Z) :
  chunks <> [] ->
  (snd (encodeWords word chunks) <=? M) = true <-> allFit M (map word chunks).
Proof.
  intros Hne. unfold encodeWords. rewrite Z.leb_le.
  rewrite (proj2 (wordStep_fold word chunks [] 0)). split; [intros [_ H]; exact H |].
  intros H. split; [| exact H].
  destruct chunks as [| c chunks]; [congruence |].
  inversion H; subst. unfold size in *. lia.
Qed.

Lemma appendToLast_snoc (l : list QString) (k : QString) (c : QChar) :
  appendToLast (l ++ [k]) c = l ++ [k ++ [c]].
Proof.
  induction l as [| x l IH]; [reflexivity |].
  simpl. rewrite IH. destruct (l ++ [k]) eqn:Hl; [| reflexivity].
  destruct l; discriminate.
Qed.

(** Every step of the splitting loop leaves chunks of 1 to [n] characters,
    and at least one of them. *)
Lemma chunkStep_inv (n : Z) (chunks : list QString) (c : QChar) :
  1 <= n ->
  Forall (fun k => 1 <= size k <= n) chunks ->
  Forall (fun k => 1 <= size k <= n) (chunkStep n chunks c)
  /\ chunkStep n chunks c <> [].
Proof.
  intros Hn Hall. unfold chunkStep.
  destruct (isEmpty chunks || (size (last chunks []) >=? n)) eqn:Hnew.
  - rewrite appendToLast_snoc. split.
    + apply Forall_app. split; [exact Hall |].
      constructor; [unfold size; simpl; lia | constructor].
    + destruct chunks; discriminate.
  - apply orb_false_iff in Hnew. destruct Hnew as [Hne Hlast].
    destruct chunks as [| x chunks]; [discriminate |].
    assert (Hx : x :: chunks <> []) by discriminate.
    destruct (exists_last Hx) as (l & k & Heq). rewrite Heq in *.
    rewrite last_last in Hlast.
    rewrite appendToLast_snoc. apply Forall_app in Hall. destruct Hall as [Hl Hk].
    split.
    + apply Forall_app. split; [exact Hl |].
      inversion Hk; subst. constructor; [| constructor].
      unfold size in *. rewrite length_app. simpl.
      rewrite Z.geb_leb in Hlast. apply Z.leb_gt in Hlast. lia.
    + destruct l; discriminate.
Qed.

Lemma chunkStep_fold_inv (n : Z) (text : QString) :
  1 <= n ->
  forall chunks,
    Forall (fun k => 1 <= size k <= n) chunks ->
    Forall (fun k => 1 <= size k <= n) (fold_left (chunkStep n) text chunks)
    /\ (text <> [] -> fold_left (chunkStep n) text chunks <> []).
Proof.
  intros Hn. induction text as [| c text IH]; intros chunks Hall.
  - simpl. split; [exact Hall | congruence].
  - cbn [fold_left].
    destruct (chunkStep_inv n chunks c Hn Hall) as [Hall' Hne'].
    destruct (IH _ Hall') as [Hres Hres'].
    split; [exact Hres |]. intros _.
    destruct text as [| c' text]; [exact Hne' | apply Hres'; discriminate].
Qed.

Lemma pn_splitTextIntoChunks_sizes (text : QString) (n : Z) :
  text <> [] -> 1 <= n ->
  Forall (fun k => 1 <= size k <= n) (pn_splitTextIntoChunks text n)
  /\ pn_splitTextIntoChunks text n <> [].
Proof.
  intros Hne Hn. unfold pn_splitTextIntoChunks.
  destruct text as [| c text]; [congruence |]. cbn [isEmpty].
  destruct ((n <=? 0) || (n >=? size (c :: text))) eqn:Hall.
  - split; [| discriminate]. constructor; [| constructor].
    apply orb_true_iff in Hall. destruct Hall as [H | H].
    + apply Z.leb_le in H. lia.
    + rewrite Z.geb_leb in H. apply Z.leb_le in H.
      unfold size in *. simpl length in *. lia.
  - destruct (chunkStep_fold_inv n (c :: text) Hn [] (Forall_nil _)) as [H1 H2].
    split; [exact H1 | apply H2; discriminate].
Qed.

Lemma iter_ceilHalf_succ (k : nat) (n : Z) :
  Nat.iter (S k) ceilHalf n = Nat.iter k ceilHalf (ceilHalf n).
Proof. induction k as [| k IH]; [reflexivity |]. simpl in *. now rewrite IH. Qed.

Lemma ceilHalf_bounds (n : Z) : 1 < n -> 1 <= ceilHalf n < n.
Proof. intros H. unfold ceilHalf. Z.div_mod_to_equations. lia. Qed.

(** The loop, started with chunk size [n >= 1], stops after finitely many
    reductions with the outcome the specification describes. *)
Lemma encodeMimeWord_loop_outcome (word : QString -> QByteArray) (text : QString)
  (maxWordSize : Z) :
  text <> [] ->
  forall (bound : nat) (n : Z),
    (Z.to_nat n <= bound)%nat -> 1 <= n ->
    exists k : nat,
      let n' := Nat.iter k ceilHalf n in
      encodeMimeWord_loop word text maxWordSize n
      = join (CR :: LF :: ba " ") (wordsAt word text n')
      /\ (allFit maxWordSize (wordsAt word text n') \/ n' = 1)
      /\ 1 <= n'
      /\ forall j : nat, (j < k)%nat ->
           1 < Nat.iter j ceilHalf n
           /\ ~ allFit maxWordSize (wordsAt word text (Nat.iter j ceilHalf n)).
Proof.
  intros Hne. induction bound as [| bound IH]; intros n Hb Hn; [lia |].
  rewrite encodeMimeWord_loop_step.
  destruct (pn_splitTextIntoChunks_sizes text n Hne Hn) as [_ Hchunks].
  destruct (snd (encodeWords word (pn_splitTextIntoChunks text n)) <=? maxWordSize)
    eqn:Hfit.
  - exists 0%nat. cbn [orb]. unfold Nat.iter. cbn [nat_rect]. rewrite encodeWords_fst.
    split; [reflexivity |]. split; [| split; [exact Hn | intros j Hj; lia]].
    left. now apply encodeWords_snd.
  - cbn [orb]. destruct (n <=? 1) eqn:Hone.
    + exists 0%nat. unfold Nat.iter. cbn [nat_rect]. rewrite encodeWords_fst.
      split; [reflexivity |]. split; [| split; [exact Hn | intros j Hj; lia]].
      right. apply Z.leb_le in Hone. lia.
    + apply Z.leb_gt in Hone. pose proof (ceilHalf_bounds n Hone) as Hc.
      rewrite reduceSize_ceilHalf by lia.
      assert (Hb' : (Z.to_nat (ceilHalf n) <= bound)%nat) by lia.
      assert (Hn' : 1 <= ceilHalf n) by lia.
      destruct (IH (ceilHalf n) Hb' Hn') as (k & Hout & Hstop & Hpos & Hearlier).
      exists (S k). rewrite iter_ceilHalf_succ.
      split; [exact Hout |]. split; [exact Hstop |]. split; [exact Hpos |].
      intros j Hj. destruct j as [| j].
      * unfold Nat.iter at 1 2. cbn [nat_rect]. split; [exact Hone |].
        intros Hall. apply (encodeWords_snd word _ maxWordSize Hchunks) in Hall.
        congruence.
      * rewrite iter_ceilHalf_succ. apply Hearlier. lia.
Qed.

Lemma encodeMimeWord_outcome (word : QString -> QByteArray) (text : QString)
  (maxWordSize : Z) :
  text <> [] ->
  mimeWordOutcome word text maxWordSize
    (encodeMimeWord_loop word text maxWordSize (size text)).
Proof.
  intros Hne.
  assert (Hsz : 1 <= size text).
  { destruct text; [congruence | unfold size; simpl length; lia]. }
  destruct (encodeMimeWord_loop_outcome word text maxWordSize Hne
              (Z.to_nat (size text)) (size text) (le_n _) Hsz)
    as (k & Hout & Hstop & Hpos & Hearlier).
  exists k. cbn zeta. split; [exact Hout |]. split; [exact Hstop |].
  split; [| exact Hearlier].
  apply pn_splitTextIntoChunks_sizes; assumption.
Qed.

Lemma blocked_snoc {A} (m : Z) (full : list (list A)) (k : list A) :
  Forall (fun piece => size piece = m) full -> size k <= m -> blocked m (full ++ [k]).
Proof.
  intros Hfull Hk. induction Hfull as [| piece full Hp _ IH]; [exact Hk |].
  cbn [app blocked]. destruct (full ++ [k]) eqn:Hl.
  - destruct full; discriminate.
  - split; assumption.
Qed.

Lemma chunkStep_chunksSoFar (n : Z) (done : QString) (chunks : list QString) (c : QChar) :
  1 <= n -> chunksSoFar n done chunks -> chunksSoFar n (done ++ [c]) (chunkStep n chunks c).
Proof.
  intros Hn [[-> ->] | (full & k & -> & Hfull & Hk & Hcat)].
  - right. exists [], [c]. cbn. repeat split; [constructor | lia | lia].
  - right. unfold chunkStep.
    replace (isEmpty (full ++ [k])) with false by (destruct full; reflexivity).
    rewrite last_last. cbn [orb].
    destruct (size k >=? n) eqn:Hfullk.
    + rewrite Z.geb_leb in Hfullk. apply Z.leb_le in Hfullk.
      rewrite appendToLast_snoc. exists (full ++ [k]), [c].
      split; [reflexivity |]. split.
      * apply Forall_app. split; [exact Hfull |]. constructor; [lia | constructor].
      * split; [unfold size; simpl; lia |].
        rewrite concat_app, Hcat. reflexivity.
    + rewrite Z.geb_leb in Hfullk. apply Z.leb_gt in Hfullk.
      rewrite appendToLast_snoc. exists full, (k ++ [c]).
      split; [reflexivity |]. split; [exact Hfull |]. split.
      * unfold size in *. rewrite length_app. simpl. lia.
      * rewrite concat_app in Hcat |- *. cbn [concat] in Hcat |- *.
        rewrite !app_nil_r in *. now rewrite app_assoc, Hcat.
Qed.

Lemma chunkStep_fold_chunksSoFar (n : Z) (text : QString) :
  1 <= n ->
  forall done chunks,
    chunksSoFar n done chunks ->
    chunksSoFar n (done ++ text) (fold_left (chunkStep n) text chunks).
Proof.
  intros Hn. induction text as [| c text IH]; intros done chunks Hinv.
  - cbn. now rewrite app_nil_r.
  - cbn [fold_left].
    replace (done ++ c :: text) with ((done ++ [c]) ++ text) by now rewrite <- app_assoc.
    apply IH, chunkStep_chunksSoFar; assumption.
Qed.

Lemma pn_splitTextIntoChunks_concat_blocked (text : QString) (maxChunkSize : Z) :
  concat (pn_splitTextIntoChunks text maxChunkSize) = text
  /\ (0 < maxChunkSize -> blocked maxChunkSize (pn_splitTextIntoChunks text maxChunkSize)).
Proof.
  unfold pn_splitTextIntoChunks. destruct text as [| c text].
  - cbn. split; [reflexivity | intros _; exact I].
  - cbn [isEmpty].
    destruct ((maxChunkSize <=? 0) || (maxChunkSize >=? size (c :: text))) eqn:Hwhole.
    + split; [cbn; now rewrite app_nil_r |]. intros Hpos. cbn [blocked].
      apply orb_true_iff in Hwhole. destruct Hwhole as [H | H].
      * apply Z.leb_le in H. lia.
      * rewrite Z.geb_leb in H. now apply Z.leb_le in H.
    + apply orb_false_iff in Hwhole. destruct Hwhole as [Hpos _].
      apply Z.leb_gt in Hpos.
      destruct (chunkStep_fold_chunksSoFar maxChunkSize (c :: text) ltac:(lia) [] [])
        as [[_ Habs] | (full & k & Heq & Hfull & Hk & Hcat)];
        [left; split; reflexivity | discriminate Habs |].
      cbn [app] in Hcat. split; [exact Hcat |]. intros _. rewrite Heq.
      apply blocked_snoc; [exact Hfull | lia].
Qed.

(** The chunks of the code are the consecutive pieces of the text. *)
Lemma piecesFrom_unique (n : nat) (chunks : list QString) :
  forall (s : QString) (fuel : nat),
    (1 <= n)%nat ->
    concat chunks = s ->
    blocked (Z.of_nat n) chunks ->
    Forall (fun piece => piece <> []) chunks ->
    (length s <= fuel)%nat ->
    piecesFrom fuel n s = chunks.
Proof.
  induction chunks as [| c rest IH]; intros s fuel Hn Hcat Hblocked Hne Hfuel.
  - cbn in Hcat. subst s. now destruct fuel.
  - inversion Hne as [| ? ? Hc Hrest]; subst.
    destruct c as [| x c]; [congruence |].
    cbn [concat] in Hfuel |- *. rewrite length_app in Hfuel.
    destruct fuel as [| fuel]; [cbn in Hfuel; lia |].
    change ((x :: c) ++ concat rest) with (x :: (c ++ concat rest)).
    cbn [piecesFrom].
    change (x :: (c ++ concat rest)) with ((x :: c) ++ concat rest).
    cbn [blocked] in Hblocked. unfold size in Hblocked.
    destruct rest as [| r rest].
    + cbn [concat]. rewrite app_nil_r.
      rewrite firstn_all2 by lia. rewrite skipn_all2 by lia.
      now destruct fuel.
    + destruct Hblocked as (Hsize & Hblocked).
      assert (Hlen : n = length (x :: c)) by lia.
      assert (Hfirst : firstn n ((x :: c) ++ concat (r :: rest)) = x :: c).
      { rewrite Hlen, firstn_app, firstn_all, Nat.sub_diag, firstn_0.
        apply app_nil_r. }
      assert (Hskip : skipn n ((x :: c) ++ concat (r :: rest)) = concat (r :: rest)).
      { rewrite Hlen, skipn_app, skipn_all, Nat.sub_diag, skipn_0. reflexivity. }
      rewrite Hfirst, Hskip.
      f_equal. apply IH; try assumption; [reflexivity |]. cbn [length] in Hfuel. lia.
Qed.

Lemma pn_splitTextIntoChunks_pieces (text : QString) (n : Z) :
  text <> [] -> 1 <= n -> pn_splitTextIntoChunks text n = piecesOf n text.
Proof.
  intros Hne Hn. symmetry. unfold piecesOf.
  destruct (pn_splitTextIntoChunks_concat_blocked text n) as (Hcat & Hblocked).
  destruct (pn_splitTextIntoChunks_sizes text n Hne Hn) as (Hsizes & _).
  apply piecesFrom_unique.
  - lia.
  - exact Hcat.
  - rewrite Z2Nat.id by lia. apply Hblocked. lia.
  - eapply Forall_impl; [| exact Hsizes]. intros piece Hp ->. cbn in Hp. lia.
  - apply Nat.le_refl.
Qed.

Lemma iter_ceilHalf_pos (k : nat) (n : Z) : 1 <= n -> 1 <= Nat.iter k ceilHalf n.
Proof.
  intros Hn. induction k as [| k IH]; [exact Hn |].
  change (Nat.iter (S k) ceilHalf n) with (ceilHalf (Nat.iter k ceilHalf n)).
  set (m := Nat.iter k ceilHalf n) in *. unfold ceilHalf.
  Z.div_mod_to_equations. lia.
Qed.

Lemma mimeWordQ_encodedWordQ (piece : QString) : mimeWordQ piece = encodedWordQ piece.
Proof. unfold mimeWordQ, encodedWordQ. now rewrite encodeQuotedPrintable_flat_map. Qed.

Lemma mimeWordB_encodedWordB (piece : QString) : mimeWordB piece = encodedWordB piece.
Proof. reflexivity. Qed.

(** From the outcome in terms of the code's helpers to the outcome in the
    words of the specification. *)
Lemma mimeWordOutcome_halvingOutcome (word spec : QString -> QByteArray)
      (text : QString) (maxWordSize : Z) (out : QByteArray) :
  text <> [] ->
  (forall piece, word piece = spec piece) ->
  mimeWordOutcome word text maxWordSize out ->
  halvingOutcome spec text maxWordSize out.
Proof.
  intros Hne Hword (k & Hout & Hstop & Hsizes & Hearlier). exists k.
  cbn zeta in *. unfold wordsAt in *.
  assert (Hsz : 1 <= size text).
  { destruct text; [congruence | unfold size; simpl length; lia]. }
  pose proof (iter_ceilHalf_pos k (size text) Hsz) as Hn.
  rewrite (pn_splitTextIntoChunks_pieces text _ Hne Hn) in Hout, Hstop, Hsizes.
  rewrite (map_ext word spec Hword) in Hout, Hstop.
  split; [exact Hn |]. split.
  { rewrite <- (pn_splitTextIntoChunks_pieces text _ Hne Hn).
    apply pn_splitTextIntoChunks_concat_blocked. }
  split; [exact Hsizes |]. split; [exact Hout |]. split; [exact Hstop |].
  intros j Hj. destruct (Hearlier j Hj) as (Hbig & Hnofit).
  split; [exact Hbig |].
  assert (Hj1 : 1 <= Nat.iter j ceilHalf (size text)) by lia.
  rewrite (pn_splitTextIntoChunks_pieces text _ Hne Hj1) in Hnofit.
  now rewrite (map_ext word spec Hword) in Hnofit.
Qed.

(** C6. For a non-empty text and any word budget, [encodeMimeWordQ] and
    [encodeMimeWordB] return, and what they return is this: for a chunk size
    [n] that comes from the length of the text by finitely many steps
    n -> ceil(n/2), the text is cut into its consecutive pieces of [n]
    characters (the last with what is left, none empty, together the
    text); each piece becomes the encoded word [=?utf-8?Q?...?=] around its
    quoted-printable encoding, respectively [=?utf-8?B?...?=] around the
    Base64 of its UTF-8 bytes; the words are joined by CRLF and a space;
    all words fit the budget or [n] is 1; and at every earlier chunk size
    some word did not fit. *)
Theorem encodeMimeWord_halving (text : QString) (maxWordSize : Z) :
  text <> [] ->
  halvingOutcome encodedWordQ text maxWordSize (encodeMimeWordQ text maxWordSize)
  /\ halvingOutcome encodedWordB text maxWordSize (encodeMimeWordB text maxWordSize).
Proof.
  intros Hne. unfold encodeMimeWordQ, encodeMimeWordB.
  destruct text as [| c text]; [congruence |]. cbn [isEmpty].
  split.
  - apply (mimeWordOutcome_halvingOutcome mimeWordQ);
      [discriminate | apply mimeWordQ_encodedWordQ |].
    apply encodeMimeWord_outcome. discriminate.
  - apply (mimeWordOutcome_halvingOutcome mimeWordB);
      [discriminate | apply mimeWordB_encodedWordB |].
    apply encodeMimeWord_outcome. discriminate.
Qed.

Lemma encodeMimeWord_halving_witness :
  halvingOutcome encodedWordQ [67; 97; 102; 233]%N 15
    (encodeMimeWordQ [67; 97; 102; 233]%N 15)
  /\ halvingOutcome encodedWordB [67; 97; 102; 233]%N 15
       (encodeMimeWordB [67; 97; 102; 233]%N 15).
Proof.
  apply (encodeMimeWord_halving [67; 97; 102; 233]%N 15). discriminate.
Defined.

(** ** Serialisation of a valid message *)

Section MimePart_induction.

Variable P : MimePart -> Prop.
Hypothesis Htext : forall base t, P (MimeText base t).
Hypothesis Hhtml : forall base t, P (MimeHtml base t).
Hypothesis Hfile : forall base content disp, P (MimeFile base content disp).
Hypothesis Hmulti : forall base ps, Forall P ps -> P (MimeMultiPartMixed base ps).

(** Induction over the part tree, with the hypothesis for all children. *)
Fixpoint MimePart_tree_ind (p : MimePart) : P p :=
  match p with
  | MimeText base t => Htext base t
  | MimeHtml base t => Hhtml base t
  | MimeFile base content disp => Hfile base content disp
  | MimeMultiPartMixed base ps =>
      Hmulti base ps
        ((fix children (ps : list MimePart) : Forall P ps :=
            match ps with
            | [] => Forall_nil P
            | q :: ps' => Forall_cons q (MimePart_tree_ind q) (children ps')
            end) ps)
  end.

End MimePart_induction.

Lemma writeDataToDev_accepting (data : QByteArray) (st : WriterState) :
  accepting st ->
  fst (writeDataToDev data st) = true
  /\ accepting (snd (writeDataToDev data st))
  /\ dev_data (ws_dev (snd (writeDataToDev data st))) = dev_data (ws_dev st) ++ data.
Proof.
  unfold accepting, writeDataToDev, QIODevice_write. intros ->. cbn [fst snd ws_dev dev_room dev_data].
  split; [apply Z.eqb_refl | split; reflexivity].
Qed.

Lemma yields_ret (b : bool) : yields (ret b) b.
Proof.
  intros st Hst. cbn. split; [reflexivity | split; [exact Hst |]].
  exists []. now rewrite app_nil_r.
Qed.

Lemma yields_write (data : QByteArray) : yields (writeDataToDev data) true.
Proof.
  intros st Hst. destruct (writeDataToDev_accepting data st Hst) as (H1 & H2 & H3).
  split; [exact H1 | split; [exact H2 |]]. now exists data.
Qed.

Lemma yields_check (c k : ST WriterState bool) (b1 b2 : bool) :
  yields c b1 -> yields k b2 -> yields (check c ;; k) (b1 && b2).
Proof.
  intros Hc Hk st Hst. unfold bind.
  destruct (Hc st Hst) as (Hb & Hacc & out & Hout). rewrite Hb.
  destruct b1; cbn [andb].
  - destruct (Hk _ Hacc) as (Hb' & Hacc' & out' & Hout').
    split; [exact Hb' | split; [exact Hacc' |]].
    exists (out ++ out'). now rewrite Hout', Hout, app_assoc.
  - cbn. split; [reflexivity | split; [exact Hacc |]]. now exists out.
Qed.

Lemma yields_eq (c : ST WriterState bool) (b b' : bool) :
  yields c b -> b = b' -> yields c b'.
Proof. now intros H <-. Qed.

Lemma yields_newBoundary (E : Env) (k : QByteArray -> ST WriterState bool) (b : bool) :
  (forall boundary, yields (k boundary) b) ->
  yields (boundaryStr <- newBoundary E ;; k boundaryStr) b.
Proof.
  intros Hk st Hst. unfold bind, newBoundary. cbn [fst snd].
  apply (Hk _ {| ws_dev := ws_dev st; ws_uuids := S (ws_uuids st) |}). exact Hst.
Qed.

Lemma writeStdHeadersToDev_yields (base : MimePartData) (boundary : QByteArray) :
  yields (writeStdHeadersToDev base boundary) (negb (isEmpty (d_contentType base))).
Proof.
  unfold writeStdHeadersToDev.
  destruct (isEmpty (d_contentType base)); cbn [negb]; [apply yields_ret |].
  eapply yields_eq.
  - apply yields_check; [apply yields_write |].
    destruct (negb (isEmpty _)).
    + apply yields_check; [apply yields_write | apply yields_ret].
    + apply (yields_ret true).
  - reflexivity.
Qed.

(** On an accepting device the result of serialising a part is decided by
    [partOk]. *)
Lemma MimePart_writeToDev_yields (E : Env) (p : MimePart) :
  yields (MimePart_writeToDev E p) (partOk p).
Proof.
  induction p as [base t | base t | base content disp | base ps IH]
    using MimePart_tree_ind; cbn [MimePart_writeToDev partOk].
  - destruct (isEmpty t); cbn [negb andb]; [apply yields_ret |].
    eapply yields_eq.
    + repeat (apply yields_check;
              [first [apply writeStdHeadersToDev_yields | apply yields_write] |]).
      apply yields_ret.
    + now rewrite !andb_true_r.
  - destruct (isEmpty t); cbn [negb andb]; [apply yields_ret |].
    eapply yields_eq.
    + repeat (apply yields_check;
              [first [apply writeStdHeadersToDev_yields | apply yields_write] |]).
      apply yields_ret.
    + now rewrite !andb_true_r.
  - destruct (isEmpty (d_contentName base) || isEmpty content); cbn [negb andb];
      [apply yields_ret |].
    eapply yields_eq.
    + apply yields_check; [apply writeStdHeadersToDev_yields |].
      apply yields_check.
      * destruct (negb (isEmpty _)); [apply yields_write | apply (yields_ret true)].
      * repeat (apply yields_check; [apply yields_write |]). apply yields_ret.
    + now rewrite !andb_true_r.
  - assert (Heach : forall boundaryPrefix,
              yields
                ((fix each (parts : list MimePart) : ST WriterState bool :=
                    match parts with
                    | [] => ret true
                    | part :: parts' =>
                        check writeDataToDev boundaryPrefix ;;
                        check MimePart_writeToDev E part ;;
                        each parts'
                    end) ps)
                (forallb partOk ps)).
    { intros boundaryPrefix. induction IH as [| r rs Hr _ IHrs].
      - apply yields_ret.
      - cbn [forallb]. eapply yields_eq.
        + apply yields_check; [apply yields_write |].
          apply yields_check; [exact Hr | exact IHrs].
        + reflexivity. }
    destruct ps as [| q [| q2 ps]].
    + apply yields_ret.
    + cbn. inversion IH; subst. assumption.
    + cbn [isEmpty].
      replace (size (q :: q2 :: ps) =? 1) with false
        by (symmetry; apply Z.eqb_neq; unfold size; simpl length; lia).
      apply yields_newBoundary. intros boundary.
      eapply yields_eq.
      * apply yields_check; [apply writeStdHeadersToDev_yields |].
        apply yields_check; [apply yields_write |].
        apply yields_check; [apply Heach |].
        apply yields_check; [apply yields_write | apply yields_ret].
      * now rewrite !andb_true_r.
Qed.

Lemma serialisable_partOk (E : Env) (p : MimePart) :
  serialisable E p -> partOk p = true.
Proof.
  intros H.
  destruct (MimePart_writeToDev_yields E p emptyBuffer eq_refl) as [Hb _].
  rewrite <- Hb. apply H. reflexivity.
Qed.

Lemma withParts_inv (m : MimeMessage) (ps : list MimePart)
  (f : list MimePart -> list MimePart) :
  d_multiPart m = MimeMultiPartMixed (MimePartData_new (ba "multipart/mixed")) ps ->
  withParts (d_multiPart m) f
  = MimeMultiPartMixed (MimePartData_new (ba "multipart/mixed")) (f ps).
Proof. now intros ->. Qed.

Lemma dropBody_inv (m : MimeMessage) :
  MimeMessage_inv m -> MimeMessage_inv (dropBody m) /\ d_messageBody (dropBody m) = None.
Proof.
  intros (ps & Hmp & Hbody). unfold dropBody.
  destruct (d_messageBody m) as [body |] eqn:Hb.
  - split; [| reflexivity]. exists (tl ps). cbn.
    split; [now apply withParts_inv | exact I].
  - split; [| exact Hb]. exists ps. rewrite Hb. split; [exact Hmp | exact I].
Qed.

Lemma setBody_new_inv (m : MimeMessage) (body : MimePart) (t : QString) :
  MimeMessage_inv m -> d_messageBody m = None -> t <> [] ->
  body = MimeText_new t \/ body = MimeHtml_new t ->
  MimeMessage_inv (setBody m (Some body) (withParts (d_multiPart m) (cons body))).
Proof.
  intros (ps & Hmp & _) _ Ht Hbody. exists (body :: ps). cbn.
  split; [now apply withParts_inv |].
  split; [exists t; split; assumption | now exists ps].
Qed.

(** Every message a caller can build satisfies the invariant. *)
Lemma MimeMessage_built_inv (m : MimeMessage) : MimeMessage_built m -> MimeMessage_inv m.
Proof.
  induction 1 as [| m a _ IH | m a _ IH | m l _ IH | m l _ IH | m t _ IH
                  | m t _ IH | m t _ IH | m p _ IH].
  - exists []. split; [reflexivity | exact I].
  - exact IH.
  - exact IH.
  - exact IH.
  - exact IH.
  - exact IH.
  - unfold setMessageBodyText. destruct (dropBody_inv m IH) as [Hinv Hnone].
    destruct t as [| c t]; cbn [isEmpty negb]; [exact Hinv |].
    apply (setBody_new_inv _ _ (c :: t)); [exact Hinv | exact Hnone | discriminate | now left].
  - unfold setMessageBodyHtml. destruct (dropBody_inv m IH) as [Hinv Hnone].
    destruct t as [| c t]; cbn [isEmpty negb]; [exact Hinv |].
    apply (setBody_new_inv _ _ (c :: t)); [exact Hinv | exact Hnone | discriminate | now right].
  - destruct IH as (ps & Hmp & Hbody). exists (ps ++ [p]). cbn.
    split; [exact (withParts_inv m ps (fun ps => ps ++ [p]) Hmp) |].
    destruct (d_messageBody m) as [body |]; [| exact I].
    destruct Hbody as [Ht (rest & ->)]. split; [exact Ht |]. now exists (rest ++ [p]).
Qed.

(** A valid message has a primary body. *)
Lemma MimeMessage_isValid_body (E : Env) (m : MimeMessage) :
  MimeMessage_isValid E m = true -> exists body, d_messageBody m = Some body.
Proof.
  unfold MimeMessage_isValid, messageBodyText, messageBodyHtml.
  destruct (d_messageBody m) as [body |]; [now exists body |].
  cbn [isEmpty andb].
  repeat match goal with |- context [if ?b then _ else _] => destruct b end;
    discriminate.
Qed.

(** The multipart of a valid message whose added parts serialise does so too. *)
Lemma MimeMessage_multiPart_ok (E : Env) (m : MimeMessage) :
  MimeMessage_built m -> MimeMessage_isValid E m = true ->
  Forall (serialisable E) (extraParts m) ->
  partOk (d_multiPart m) = true.
Proof.
  intros Hbuilt Hvalid Hextra.
  destruct (MimeMessage_built_inv m Hbuilt) as (ps & Hmp & Hbody).
  destruct (MimeMessage_isValid_body E m Hvalid) as (body & Hb).
  unfold extraParts in Hextra. rewrite Hb in Hbody, Hextra. rewrite Hmp in Hextra |- *.
  destruct Hbody as [(t & Ht & Hkind) (rest & ->)]. cbn [parts tl] in Hextra.
  assert (Hbok : partOk body = true).
  { destruct t as [| c t]; [congruence |]. destruct Hkind as [-> | ->]; reflexivity. }
  assert (Hrest : forallb partOk rest = true).
  { apply forallb_forall. intros q Hq. apply (serialisable_partOk E).
    rewrite Forall_forall in Hextra. now apply Hextra. }
  cbn [partOk]. destruct rest as [| q rest]; [exact Hbok |].
  cbn [forallb] in *. now rewrite Hbok, Hrest.
Qed.

Lemma sampleMessage_built : MimeMessage_built sampleMessage.
Proof.
  unfold sampleMessage, addToRecipient.
  apply built_text, built_subject, built_to, built_sender, built_new.
Defined.

(** C1, as stated, fails: validity does not look at the added parts. A valid
    message to which an empty multipart was added does not serialise. *)
Lemma valid_message_with_bad_part_fails :
  let m := addMimePart sampleMessage MimeMultiPartMixed_new in
  MimeMessage_built m
  /\ MimeMessage_isValid sampleEnv m = true
  /\ accepting emptyBuffer
  /\ fst (MimeMessage_writeToDev sampleEnv m emptyBuffer) = false.
Proof.
  split; [| split; [| split]].
  - apply built_part. exact sampleMessage_built.
  - vm_compute. reflexivity.
  - reflexivity.
  - vm_compute. reflexivity.
Qed.

(** C1, amended. A valid message whose parts added through [addMimePart] all
    serialise (in particular one without added parts) is written with
    success to a device that accepts every write, and what is written is the
    header block, the multipart, and last the five bytes of the
    dot-terminator. *)
Theorem valid_message_serialises (E : Env) (m : MimeMessage) (st : WriterState) :
  MimeMessage_built m ->
  MimeMessage_isValid E m = true ->
  Forall (serialisable E) (extraParts m) ->
  accepting st ->
  fst (MimeMessage_writeToDev E m st) = true
  /\ exists body,
       dev_data (ws_dev (snd (MimeMessage_writeToDev E m st)))
       = dev_data (ws_dev st) ++ MimeMessage_header E m ++ body ++ dotTerminator.
Proof.
  intros Hbuilt Hvalid Hextra Hst.
  pose proof (MimeMessage_multiPart_ok E m Hbuilt Hvalid Hextra) as Hok.
  unfold MimeMessage_writeToDev. rewrite Hvalid. cbn [negb]. unfold bind.
  destruct (writeDataToDev_accepting (MimeMessage_header E m) st Hst) as (H1 & A1 & D1).
  rewrite H1.
  destruct (MimePart_writeToDev_yields E (d_multiPart m) _ A1) as (H2 & A2 & body & D2).
  rewrite H2, Hok.
  destruct (writeDataToDev_accepting (CRLF ++ ba "." ++ CRLF) _ A2) as (H3 & A3 & D3).
  rewrite H3. cbn [ret fst snd]. split; [reflexivity |].
  exists body. rewrite D3, D2, D1. unfold dotTerminator. now rewrite <- !app_assoc.
Qed.

Lemma valid_message_serialises_witness :
  fst (MimeMessage_writeToDev sampleEnv sampleMessage emptyBuffer) = true.
Proof.
  apply (valid_message_serialises sampleEnv sampleMessage emptyBuffer).
  - exact sampleMessage_built.
  - vm_compute. reflexivity.
  - exact (Forall_nil (serialisable sampleEnv)).
  - reflexivity.
Defined.

(** ** The driver: what reaches the wire *)

Lemma wireStep_refl (w : World) : wireStep w w.
Proof.
  unfold wireStep. destruct (socket (w_d w)); [| exact I].
  exists []. split; [now rewrite app_nil_r | constructor].
Qed.

Lemma wireStep_trans (w1 w2 w3 : World) :
  wireStep w1 w2 -> wireStep w2 w3 -> wireStep w1 w3.
Proof.
  unfold wireStep.
  destruct (socket (w_d w1)), (socket (w_d w2)), (socket (w_d w3)); try tauto.
  intros (ws & -> & H1) (ws' & -> & H2). exists (ws ++ ws').
  split; [now rewrite app_assoc | now apply Forall_app].
Qed.

Lemma wireStep_same_socket (w w' : World) :
  socket (w_d w') = socket (w_d w) -> wireStep w w'.
Proof.
  unfold wireStep. intros ->. destruct (socket (w_d w)); [| exact I].
  exists []. split; [now rewrite app_nil_r | constructor].
Qed.

Lemma wireStep_onlyCleanWrites (w w' : World) : wireStep w w' -> onlyCleanWrites w w'.
Proof.
  unfold wireStep, onlyCleanWrites, written.
  destruct (socket (w_d w)), (socket (w_d w')); try tauto.
  intros _. exists []. split; [reflexivity | constructor].
Qed.

Lemma wireStep_socket (w w' : World) (sk : QTcpSocket) :
  wireStep w w' -> socket (w_d w) = Some sk -> exists sk', socket (w_d w') = Some sk'.
Proof.
  unfold wireStep. intros H Hsk. rewrite Hsk in H.
  destruct (socket (w_d w')) as [sk' |]; [now exists sk' | contradiction].
Qed.

Lemma preserves_ret {A} (a : A) : preserves (ret a).
Proof. intros w. apply wireStep_refl. Qed.

Lemma preserves_bind {A B} (c : ST World A) (k : A -> ST World B) :
  preserves c -> (forall a, preserves (k a)) -> preserves (bind c k).
Proof.
  intros Hc Hk w. unfold bind.
  eapply wireStep_trans; [apply Hc | apply Hk].
Qed.

Lemma preserves_getD : preserves getD.
Proof. intros w. apply wireStep_refl. Qed.

Lemma preserves_set_status (v : Status) : preserves (modifyD (fun d => set_status d v)).
Proof. intros w. apply wireStep_same_socket. reflexivity. Qed.

Lemma preserves_logRecord (r : LogRecord) : preserves (logRecord r).
Proof. intros w. apply wireStep_same_socket. reflexivity. Qed.

(** A socket operation that writes nothing. *)
Lemma preserves_onSocket {A} (op : QTcpSocket -> A * QTcpSocket) (dflt : A) :
  (forall sk, sk_written (snd (op sk)) = sk_written sk) -> preserves (onSocket op dflt).
Proof.
  intros Hop w. unfold wireStep, onSocket.
  destruct (socket (w_d w)) as [sk |] eqn:Hsk; cbn; rewrite ?Hsk; [| exact I].
  exists []. split; [now rewrite app_nil_r, Hop | constructor].
Qed.

Lemma preserves_canReadLine : preserves canReadLine.
Proof. apply preserves_onSocket. reflexivity. Qed.

Lemma preserves_readLine : preserves readLine.
Proof. apply preserves_onSocket. reflexivity. Qed.

Lemma preserves_socketClose : preserves socketClose.
Proof. apply preserves_onSocket. reflexivity. Qed.

Lemma preserves_errorString : preserves errorString.
Proof. apply preserves_onSocket. reflexivity. Qed.

Lemma preserves_readBuffer : preserves readBuffer.
Proof. apply preserves_onSocket. reflexivity. Qed.

Lemma preserves_peerScript : preserves peerScript.
Proof. apply preserves_onSocket. reflexivity. Qed.

Lemma preserves_waitForConnected : preserves (onSocket sk_waitForConnected false).
Proof. apply preserves_onSocket. reflexivity. Qed.

Lemma preserves_waitForEncrypted : preserves (onSocket sk_waitForEncrypted false).
Proof. apply preserves_onSocket. reflexivity. Qed.

Lemma preserves_waitForReadyRead (ev : PeerEvent) (rest : list PeerEvent) :
  preserves (onSocket (sk_waitForReadyRead ev rest) false).
Proof. apply preserves_onSocket. reflexivity. Qed.

Create HintDb pres.

#[local] Hint Resolve preserves_getD preserves_set_status preserves_logRecord
  preserves_canReadLine preserves_readLine preserves_socketClose preserves_errorString
  preserves_readBuffer preserves_peerScript preserves_waitForConnected
  preserves_waitForEncrypted preserves_waitForReadyRead : pres.

(** Composition: binds, returns, and the branches of conditionals. *)
Ltac pres_step :=
  first
    [ solve [auto with pres]
    | apply preserves_ret
    | match goal with
      | |- preserves (if ?b then _ else _) => destruct b
      | |- preserves (match ?x with Some _ => _ | None => _ end) => destruct x
      end
    | apply preserves_bind; [| intros ?] ].

Ltac pres := repeat pres_step.

Lemma preserves_pn_fail (err : QString) : preserves (pn_fail err).
Proof. unfold pn_fail. pres. Qed.

Lemma preserves_pn_closeAndFail : preserves pn_closeAndFail.
Proof. unfold pn_closeAndFail. pres. Qed.

Lemma preserves_pn_logTraffic (E : Env) (who msg : QByteArray) :
  preserves (pn_logTraffic E who msg).
Proof. unfold pn_logTraffic. pres. Qed.

#[local] Hint Resolve preserves_pn_fail preserves_pn_closeAndFail
  preserves_pn_logTraffic : pres.

Lemma preserves_drainLines (E : Env) (buffered : list QByteArray) :
  preserves (drainLines E buffered).
Proof. induction buffered as [| l buffered IH]; cbn [drainLines]; pres. Qed.

#[local] Hint Resolve preserves_drainLines : pres.

Lemma preserves_pn_isAllowedToSend (E : Env) : preserves (pn_isAllowedToSend E).
Proof. unfold pn_isAllowedToSend. pres. Qed.

Lemma preserves_readReplyLines (E : Env) (expectedCode : QByteArray)
  (buffered : list QByteArray) :
  preserves (readReplyLines E expectedCode buffered).
Proof. induction buffered as [| l buffered IH]; cbn [readReplyLines]; pres. Qed.

#[local] Hint Resolve preserves_pn_isAllowedToSend preserves_readReplyLines : pres.

Lemma preserves_waitForReply (E : Env) (expectedCode : QByteArray) (peer : list PeerEvent) :
  preserves (waitForReply E expectedCode peer).
Proof. induction peer as [| ev peer IH]; cbn [waitForReply]; pres. Qed.

#[local] Hint Resolve preserves_waitForReply : pres.

Lemma preserves_pn_waitForResponse (E : Env) (expectedCode : QByteArray) :
  preserves (pn_waitForResponse E expectedCode).
Proof. unfold pn_waitForResponse. pres. Qed.

#[local] Hint Resolve preserves_pn_waitForResponse : pres.

(** When the guard lets a send through, nothing is buffered for reading. *)
Lemma pn_isAllowedToSend_true (E : Env) (w : World) :
  fst (pn_isAllowedToSend E w) = true -> bufferEmpty (snd (pn_isAllowedToSend E w)).
Proof.
  unfold pn_isAllowedToSend, bind, canReadLine, onSocket, bufferEmpty.
  destruct (socket (w_d w)) as [sk |] eqn:Hsk; cbn [fst snd].
  - unfold sk_canReadLine. destruct (sk_readBuffer sk) eqn:Hbuf; cbn [isEmpty negb].
    + intros _. cbn. exact Hbuf.
    + cbn. discriminate.
  - intros _. cbn. now rewrite Hsk.
Qed.

Lemma pn_logTraffic_socket (E : Env) (who msg : QByteArray) (w : World) :
  socket (w_d (snd (pn_logTraffic E who msg w))) = socket (w_d w).
Proof.
  unfold pn_logTraffic, bind, getD. cbn [fst snd].
  destruct (logSocketTraffic (w_d w)); reflexivity.
Qed.

Lemma socketWrite_clean (data : QByteArray) (w : World) :
  bufferEmpty w -> wireStep w (snd (socketWrite data w)).
Proof.
  unfold bufferEmpty, wireStep, socketWrite, onSocket.
  destruct (socket (w_d w)) as [sk |] eqn:Hsk; cbn; rewrite ?Hsk; [| trivial].
  intros Hbuf. eexists. split; [reflexivity |].
  constructor; [exact Hbuf | constructor].
Qed.

Lemma bufferEmpty_same_socket (w w' : World) :
  socket (w_d w') = socket (w_d w) -> bufferEmpty w -> bufferEmpty w'.
Proof. unfold bufferEmpty. now intros ->. Qed.

Lemma preserves_pn_sendMessage (E : Env) (data : QByteArray) :
  preserves (pn_sendMessage E data).
Proof.
  intros w. unfold pn_sendMessage, bind.
  pose proof (preserves_pn_isAllowedToSend E w) as Hstep.
  pose proof (pn_isAllowedToSend_true E w) as Hempty.
  destruct (fst (pn_isAllowedToSend E w)); [| exact Hstep].
  cbn [ret snd]. eapply wireStep_trans; [exact Hstep |].
  eapply wireStep_trans; [apply preserves_pn_logTraffic |].
  apply socketWrite_clean.
  eapply bufferEmpty_same_socket; [apply pn_logTraffic_socket | now apply Hempty].
Qed.

Lemma preserves_pn_sendMimeMessage (E : Env) (msg : MimeMessage) :
  preserves (pn_sendMimeMessage E msg).
Proof.
  intros w. unfold pn_sendMimeMessage, bind.
  pose proof (preserves_pn_isAllowedToSend E w) as Hstep.
  pose proof (pn_isAllowedToSend_true E w) as Hempty.
  destruct (fst (pn_isAllowedToSend E w)); [| exact Hstep].
  set (w1 := snd (pn_isAllowedToSend E w)) in *.
  set (w2 := snd (writeToBuffer E msg w1)).
  assert (Hsock : socket (w_d w2) = socket (w_d w1)) by reflexivity.
  destruct (negb (fst (fst (writeToBuffer E msg w1)))).
  - cbn [ret snd]. eapply wireStep_trans; [exact Hstep |].
    now apply wireStep_same_socket.
  - cbn [ret snd]. eapply wireStep_trans; [exact Hstep |].
    eapply wireStep_trans; [apply wireStep_same_socket; exact Hsock |].
    eapply wireStep_trans; [apply preserves_pn_logTraffic |].
    apply socketWrite_clean.
    eapply bufferEmpty_same_socket; [apply pn_logTraffic_socket |].
    eapply bufferEmpty_same_socket; [exact Hsock | now apply Hempty].
Qed.

#[local] Hint Resolve preserves_pn_sendMessage preserves_pn_sendMimeMessage : pres.

Lemma preserves_pn_sendAndWaitFor (E : Env) (dataToSend expectedResCode : QByteArray) :
  preserves (pn_sendAndWaitFor E dataToSend expectedResCode).
Proof. unfold pn_sendAndWaitFor. pres. Qed.

#[local] Hint Resolve preserves_pn_sendAndWaitFor : pres.

Lemma preserves_authenticate (E : Env) (d : PrivateData) : preserves (authenticate E d).
Proof. unfold authenticate. pres. Qed.

Lemma preserves_upgradeToTls (E : Env) (d : PrivateData) : preserves (upgradeToTls E d).
Proof. unfold upgradeToTls. pres. Qed.

#[local] Hint Resolve preserves_authenticate preserves_upgradeToTls : pres.

Lemma preserves_connectToServer (E : Env) : preserves (connectToServer E).
Proof. unfold connectToServer. pres. Qed.

Lemma preserves_sendRecipients (E : Env) (recipients : list EmailAddress) :
  preserves (sendRecipients E recipients).
Proof. induction recipients as [| to recipients IH]; cbn [sendRecipients]; pres. Qed.

#[local] Hint Resolve preserves_sendRecipients : pres.

Lemma preserves_sendMessage (E : Env) (msg : MimeMessage) : preserves (sendMessage E msg).
Proof. unfold sendMessage, submitMessage. pres. Qed.

(** What the guard logs: one record per pending line, after the heading. *)
Lemma arg_msg_line (x : QString) :
  arg (qs " > msg-line: %1") [x] = qs " > msg-line: " ++ x.
Proof. unfold arg. simpl. now rewrite app_nil_r. Qed.

Lemma onSocket_some {A} (op : QTcpSocket -> A * QTcpSocket) (dflt : A)
  (w : World) (sk : QTcpSocket) :
  socket (w_d w) = Some sk ->
  onSocket op dflt w = (fst (op sk), w_setSocket w (snd (op sk))).
Proof. unfold onSocket. now intros ->. Qed.

Lemma drainLines_cons (E : Env) (l : QByteArray) (buffered : list QByteArray) (w : World) :
  snd (drainLines E (l :: buffered) w)
  = snd (drainLines E buffered
           (w_addLog (snd (readLine w))
              {| rec_type := Warning;
                 rec_msg := arg (qs " > msg-line: %1") [fromUtf8 E (fst (readLine w))] |})).
Proof. reflexivity. Qed.

Lemma drainLines_spec (E : Env) (buffered : list QByteArray) :
  forall (w : World) (sk : QTcpSocket),
    socket (w_d w) = Some sk -> sk_readBuffer sk = buffered ->
    w_log (snd (drainLines E buffered w))
    = w_log w
      ++ map (fun l => {| rec_type := Warning;
                          rec_msg := qs " > msg-line: " ++ fromUtf8 E l |})
             buffered
    /\ exists sk', socket (w_d (snd (drainLines E buffered w))) = Some sk'
                   /\ sk_written sk' = sk_written sk /\ sk_readBuffer sk' = [].
Proof.
  induction buffered as [| l buffered IH]; intros w sk Hsk Hbuf.
  - cbn. split; [now rewrite app_nil_r |]. now exists sk.
  - rewrite drainLines_cons. unfold readLine. rewrite (onSocket_some _ _ w sk Hsk).
    cbn [fst snd].
    assert (Hl : fst (sk_readLine sk) = l) by (unfold sk_readLine; cbn; now rewrite Hbuf).
    rewrite Hl.
    set (sk1 := snd (sk_readLine sk)).
    match goal with
    | |- context [drainLines E buffered ?w1] => set (w0 := w1)
    end.
    assert (H1 : socket (w_d w0) = Some sk1) by reflexivity.
    assert (H2 : sk_readBuffer sk1 = buffered) by (unfold sk1; cbn; now rewrite Hbuf).
    destruct (IH w0 sk1 H1 H2) as (Hlog & sk' & Hs & Hw & Hb).
    split.
    + rewrite Hlog. unfold w0. cbn [w_log w_addLog w_setSocket w_setD map].
      now rewrite arg_msg_line, <- app_assoc.
    + exists sk'. split; [exact Hs | split; [exact Hw | exact Hb]].
Qed.

Lemma pn_isAllowedToSend_run (E : Env) (w : World) (sk : QTcpSocket) :
  socket (w_d w) = Some sk -> sk_canReadLine sk = true ->
  pn_isAllowedToSend E w
  = (false,
     snd (drainLines E (sk_readBuffer sk)
            (w_addLog (w_setSocket w sk)
               {| rec_type := Warning;
                  rec_msg := qs "send fail, found unexpected data available to be read, was:" |}))).
Proof.
  intros Hsk Hcan. unfold pn_isAllowedToSend, bind, canReadLine.
  rewrite (onSocket_some _ _ w sk Hsk). cbn [fst snd]. rewrite Hcan.
  unfold pn_fail, bind, logRecord, readBuffer, onSocket. cbn [fst snd ret].
  reflexivity.
Qed.

(** With a line buffered, the guard refuses: it returns false, logs the
    heading and every pending line, and leaves the wire alone. *)
Lemma pn_isAllowedToSend_refuses (E : Env) (w : World) (sk : QTcpSocket) :
  socket (w_d w) = Some sk -> sk_canReadLine sk = true ->
  fst (pn_isAllowedToSend E w) = false
  /\ written (snd (pn_isAllowedToSend E w)) = written w
  /\ w_log (snd (pn_isAllowedToSend E w))
     = w_log w ++ pendingLineRecords E (sk_readBuffer sk).
Proof.
  intros Hsk Hcan. rewrite (pn_isAllowedToSend_run E w sk Hsk Hcan). cbn [fst snd].
  match goal with
  | |- context [drainLines E (sk_readBuffer sk) ?w1] => set (w0 := w1)
  end.
  destruct (drainLines_spec E (sk_readBuffer sk) w0 sk eq_refl eq_refl)
    as (Hlog & sk' & Hs & Hw & Hb).
  split; [reflexivity |]. split.
  - unfold written. rewrite Hs, Hsk. exact Hw.
  - rewrite Hlog. unfold w0, pendingLineRecords. cbn [w_log w_addLog w_setSocket w_setD].
    now rewrite <- app_assoc.
Qed.

Lemma pn_sendMessage_refused (E : Env) (data : QByteArray) (w : World) :
  fst (pn_isAllowedToSend E w) = false ->
  pn_sendMessage E data w = (false, snd (pn_isAllowedToSend E w)).
Proof. intros H. unfold pn_sendMessage, bind. now rewrite H. Qed.

Lemma pn_sendMimeMessage_refused (E : Env) (msg : MimeMessage) (w : World) :
  fst (pn_isAllowedToSend E w) = false ->
  pn_sendMimeMessage E msg w = (false, snd (pn_isAllowedToSend E w)).
Proof. intros H. unfold pn_sendMimeMessage, bind. now rewrite H. Qed.

(** C2. On a client with a socket: if a line is buffered for reading when a
    send is attempted (a command or the message body), the send returns
    false, nothing is added to what was written, and the log receives the
    heading and one record per pending line; and along [connectToServer] and
    [sendMessage], from any state, every write that is made is made while no
    line is buffered. *)
Theorem no_write_while_line_buffered (E : Env) (w : World) (sk : QTcpSocket) :
  socket (w_d w) = Some sk ->
  (sk_canReadLine sk = true ->
     (forall data,
         fst (pn_sendMessage E data w) = false
         /\ written (snd (pn_sendMessage E data w)) = written w
         /\ w_log (snd (pn_sendMessage E data w))
            = w_log w ++ pendingLineRecords E (sk_readBuffer sk))
     /\ (forall msg,
           fst (pn_sendMimeMessage E msg w) = false
           /\ written (snd (pn_sendMimeMessage E msg w)) = written w
           /\ w_log (snd (pn_sendMimeMessage E msg w))
              = w_log w ++ pendingLineRecords E (sk_readBuffer sk)))
  /\ onlyCleanWrites w (snd (connectToServer E w))
  /\ (forall msg, onlyCleanWrites w (snd (sendMessage E msg w))).
Proof.
  intros Hsk. split; [| split].
  - intros Hcan.
    destruct (pn_isAllowedToSend_refuses E w sk Hsk Hcan) as (Hf & Hw & Hl).
    split.
    + intros data. rewrite (pn_sendMessage_refused E data w Hf). cbn [fst snd].
      split; [reflexivity | split; assumption].
    + intros msg. rewrite (pn_sendMimeMessage_refused E msg w Hf). cbn [fst snd].
      split; [reflexivity | split; assumption].
  - apply wireStep_onlyCleanWrites, preserves_connectToServer.
  - intros msg. apply wireStep_onlyCleanWrites, preserves_sendMessage.
Qed.

Lemma no_write_while_line_buffered_witness :
  fst (pn_sendMessage sampleEnv (ba "MAIL FROM:<a@b.co>") crosstalkWorld) = false
  /\ written (snd (pn_sendMessage sampleEnv (ba "MAIL FROM:<a@b.co>") crosstalkWorld))
     = written crosstalkWorld.
Proof.
  destruct (no_write_while_line_buffered sampleEnv crosstalkWorld crosstalkSocket eq_refl)
    as [Hsend _].
  destruct (Hsend eq_refl) as [Hdata _].
  destruct (Hdata (ba "MAIL FROM:<a@b.co>")) as (Hfalse & Hwritten & _).
  split; [exact Hfalse | exact Hwritten].
Defined.

(** ** The driver: failures during submission *)

Lemma pn_closeAndFail_closed (w : World) : connectionClosed (snd (pn_closeAndFail w)).
Proof.
  unfold pn_closeAndFail, bind, modifyD, socketClose, onSocket, connectionClosed.
  cbn [fst snd w_d w_setD set_status socket].
  destruct (socket (w_d w)) as [sk0 |] eqn:Hsk; cbn.
  - split; [reflexivity |]. intros sk [= <-]. reflexivity.
  - split; [reflexivity |]. rewrite Hsk. discriminate.
Qed.

Lemma failsClosed_pn_closeAndFail : failsClosed pn_closeAndFail.
Proof. intros w _. apply pn_closeAndFail_closed. Qed.

Lemma failsClosed_ret_true : failsClosed (ret true).
Proof. intros w H. discriminate. Qed.

Lemma failsClosed_unless (c k : ST World bool) :
  failsClosed k -> failsClosed (unless c fail pn_closeAndFail ;; k).
Proof.
  intros Hk w. unfold bind. destruct (fst (c w)).
  - apply Hk.
  - intros _. apply pn_closeAndFail_closed.
Qed.

Lemma failsClosed_check (c k : ST World bool) :
  failsClosed c -> failsClosed k -> failsClosed (check c ;; k).
Proof.
  intros Hc Hk w. unfold bind. destruct (fst (c w)) eqn:Hcw.
  - apply Hk.
  - intros _. cbn. now apply Hc.
Qed.

Lemma failsClosed_bind {A} (c : ST World A) (k : A -> ST World bool) :
  (forall a, failsClosed (k a)) -> failsClosed (bind c k).
Proof. intros Hk w. unfold bind. apply Hk. Qed.

Lemma failsClosed_if (b : bool) (c1 c2 : ST World bool) :
  failsClosed c1 -> failsClosed c2 -> failsClosed (if b then c1 else c2).
Proof. now destruct b. Qed.

Lemma failsClosed_sendRecipients (E : Env) (recipients : list EmailAddress) :
  failsClosed (sendRecipients E recipients).
Proof.
  induction recipients as [| to recipients IH]; cbn [sendRecipients].
  - apply failsClosed_ret_true.
  - apply failsClosed_unless, IH.
Qed.

Lemma failsClosed_submitMessage (E : Env) (msg : MimeMessage) :
  failsClosed (submitMessage E msg).
Proof.
  unfold submitMessage.
  apply failsClosed_unless.
  apply failsClosed_check; [apply failsClosed_sendRecipients |].
  apply failsClosed_check; [apply failsClosed_sendRecipients |].
  apply failsClosed_unless.
  apply failsClosed_bind. intros sent. apply failsClosed_if.
  - apply failsClosed_bind. intros _. apply failsClosed_pn_closeAndFail.
  - apply failsClosed_bind. intros ack. apply failsClosed_if.
    + apply failsClosed_pn_closeAndFail.
    + apply failsClosed_ret_true.
Qed.

(** [sendMessage], with its two checks spelled out on the world. *)
Lemma sendMessage_run (E : Env) (msg : MimeMessage) (w : World) :
  sendMessage E msg w
  = if negb (MimeMessage_isValid E msg)
    then pn_fail (qs "unable to send, message is not valid") w
    else if negb (Status_eqb (status (w_d w)) ST_Connected)
         then pn_fail (qs "unable to send, client is not connected") w
         else submitMessage E msg w.
Proof.
  unfold sendMessage. destruct (negb (MimeMessage_isValid E msg)); [reflexivity |].
  unfold bind, getD. cbn [fst snd].
  destruct (negb (Status_eqb (status (w_d w)) ST_Connected)); reflexivity.
Qed.

(** A message that is not valid, or a client that is not connected: the call
    fails and only the log changes. *)
Lemma sendMessage_rejected (E : Env) (msg : MimeMessage) (w : World) :
  MimeMessage_isValid E msg = false \/ status (w_d w) <> ST_Connected ->
  fst (sendMessage E msg w) = false
  /\ w_d (snd (sendMessage E msg w)) = w_d w
  /\ w_uuids (snd (sendMessage E msg w)) = w_uuids w.
Proof.
  intros H. rewrite sendMessage_run.
  destruct (MimeMessage_isValid E msg) eqn:Hv; cbn [negb].
  - destruct H as [H | H]; [discriminate |].
    destruct (Status_eqb (status (w_d w)) ST_Connected) eqn:Hs; cbn [negb].
    + apply Status_eqb_eq in Hs. contradiction.
    + repeat split.
  - repeat split.
Qed.

(** C8. A call of [sendMessage] with a valid message on a Connected client
    that fails (in the MAIL FROM, RCPT TO, DATA or body steps, or waiting
    for the final reply) leaves the status Disconnected and the socket
    closed, and the next [sendMessage] fails without touching the client
    until it is connected again. A call that fails because the message is
    not valid or the client is not connected leaves the client's private
    data, with status and socket, as it was. *)
Theorem sendMessage_failure_policy (E : Env) (msg : MimeMessage) (w : World) :
  (MimeMessage_isValid E msg = false \/ status (w_d w) <> ST_Connected ->
     fst (sendMessage E msg w) = false
     /\ w_d (snd (sendMessage E msg w)) = w_d w)
  /\ (MimeMessage_isValid E msg = true -> status (w_d w) = ST_Connected ->
      fst (sendMessage E msg w) = false ->
        status (w_d (snd (sendMessage E msg w))) = ST_Disconnected
        /\ (forall sk, socket (w_d w) = Some sk ->
              exists sk', socket (w_d (snd (sendMessage E msg w))) = Some sk'
                          /\ sk_open sk' = false)
        /\ (forall msg',
              fst (sendMessage E msg' (snd (sendMessage E msg w))) = false
              /\ w_d (snd (sendMessage E msg' (snd (sendMessage E msg w))))
                 = w_d (snd (sendMessage E msg w)))).
Proof.
  split.
  - intros H. destruct (sendMessage_rejected E msg w H) as (H1 & H2 & _). now split.
  - intros Hvalid Hconn Hfail.
    assert (Hclosed : connectionClosed (snd (sendMessage E msg w))).
    { revert Hfail. rewrite sendMessage_run, Hvalid, Hconn. cbn [Status_eqb negb].
      apply failsClosed_submitMessage. }
    destruct Hclosed as [Hstatus Hsock].
    split; [exact Hstatus |]. split.
    + intros sk Hsk.
      destruct (wireStep_socket _ _ sk (preserves_sendMessage E msg w) Hsk) as (sk' & Hsk').
      exists sk'. split; [exact Hsk' | now apply Hsock].
    + intros msg'.
      destruct (sendMessage_rejected E msg' (snd (sendMessage E msg w))) as (H1 & H2 & _).
      * right. rewrite Hstatus. discriminate.
      * now split.
Qed.

Lemma sendMessage_failure_policy_witness :
  status (w_d (snd (sendMessage sampleEnv sampleMessage crosstalkWorld))) = ST_Disconnected.
Proof.
  apply (sendMessage_failure_policy sampleEnv sampleMessage crosstalkWorld).
  - vm_compute. reflexivity.
  - reflexivity.
  - vm_compute. reflexivity.
Defined.

(** ** The scenarios of the specification, run on the model *)

(** S2: [Café] with a budget of 60 is one word. *)
Example scenario_encoded_word :
  encodeMimeWordQ [67; 97; 102; 233]%N 60 = ba "=?utf-8?Q?Caf=C3=A9?=".
Proof. vm_compute. reflexivity. Qed.

(** S3: address rendering with and without a display name. *)
Example scenario_address :
  encodeEmailAddress sampleEnv {| d_email := qs "a@b.co"; d_name := qs "Ann" |} 60
  = ba "=?utf-8?Q?Ann?=" ++ CRLF ++ ba " <a@b.co>"
  /\ encodeEmailAddress sampleEnv {| d_email := qs "a@b.co"; d_name := [] |} 60
     = ba "a@b.co".
Proof. split; vm_compute; reflexivity. Qed.

(** S5: the happy path. The client connects, sends the message, stays
    Connected, and has written EHLO, MAIL FROM, RCPT TO, DATA and the body,
    each while nothing was buffered. *)
Example scenario_happy_path :
  let w := connectedWorld happyPeer in
  let r := sendMessage sampleEnv sampleMessage w in
  status (w_d w) = ST_Connected
  /\ fst r = true
  /\ status (w_d (snd r)) = ST_Connected
  /\ map ww_data (firstn 4 (written (snd r)))
     = [line "EHLO h"; line "MAIL FROM:<a@b.co>"; line "RCPT TO:<c@d.co>"; line "DATA"]
  /\ length (written (snd r)) = 5%nat
  /\ forallb (fun x => isEmpty (ww_pending x)) (written (snd r)) = true.
Proof. vm_compute. repeat split. Qed.

(** S7: an unsolicited reply line left by the server makes the next MAIL
    FROM fail; nothing is written and the connection is closed. *)
Example scenario_crosstalk :
  let r := sendMessage sampleEnv sampleMessage crosstalkWorld in
  fst r = false
  /\ status (w_d (snd r)) = ST_Disconnected
  /\ written (snd r) = []
  /\ map rec_msg (w_log (snd r))
     = [qs "send fail, found unexpected data available to be read, was:";
        qs " > msg-line: 250 ok" ++ [13; 10]%N].
Proof. vm_compute. repeat split. Qed.

(* ===================================================================== *)
(** * Part IX. Further properties of the sources                           *)
(* ===================================================================== *)

(** ** Quoted-printable: alphabet, size and round trip *)

Lemma qpUnit_alphabet (c : byte) :
  Forall (fun x => isAlnumByte x = true \/ x = "="%byte) (qpUnit c).
Proof.
  destruct c; repeat (apply Forall_cons || apply Forall_nil);
    first [ left; reflexivity | right; reflexivity ].
Qed.

(** X1. What [encodeQuotedPrintable] gives consists of bytes in [0-9A-Za-z]
    and equals signs only (so no control byte, space, CR or LF, and nothing
    above 127), and it has between one and three bytes for each UTF-8 byte
    of the text. *)
Theorem encodeQuotedPrintable_alphabet_and_size (text : QString) :
  Forall (fun x => isAlnumByte x = true \/ x = "="%byte) (encodeQuotedPrintable text)
  /\ size (toUtf8 text) <= size (encodeQuotedPrintable text) <= 3 * size (toUtf8 text).
Proof.
  rewrite encodeQuotedPrintable_flat_map. generalize (toUtf8 text) as bytes.
  induction bytes as [| c bytes [IHa IHs]]; cbn [flat_map].
  - split; [constructor | unfold size; simpl; lia].
  - split.
    + apply Forall_app. split; [apply qpUnit_alphabet | exact IHa].
    + pose proof (qpUnit_size c) as Hc. unfold size in *.
      rewrite length_app. simpl length. lia.
Qed.

Lemma byte_of_N_to_N (c : byte) : byte_of_N (Byte.to_N c) = c.
Proof. destruct c; reflexivity. Qed.

Lemma isAlnumByte_not_equals (c : byte) :
  isAlnumByte c = true -> Byte.eqb c "="%byte = false.
Proof. destruct c; intros H; first [reflexivity | discriminate H]. Qed.

Lemma nibble_cases (k : N) :
  (k < 16)%N -> In k (map N.of_nat (seq 0 16)).
Proof.
  intros H. rewrite <- (N2Nat.id k). apply in_map, in_seq. lia.
Qed.

Lemma hexValue_hexUpper (k : N) :
  (k < 16)%N -> hexValue (hexUpper k) = Some k /\ Byte.eqb (hexUpper k) CR = false.
Proof.
  intros H. apply nibble_cases in H. simpl in H.
  repeat (destruct H as [<- | H]; [split; reflexivity |]). contradiction.
Qed.

Lemma decodeQuotedPrintable_qpUnit (c : byte) (rest : QByteArray) :
  decodeQuotedPrintable (qpUnit c ++ rest) = c :: decodeQuotedPrintable rest.
Proof.
  unfold qpUnit. destruct (isAlnumByte c) eqn:Hc.
  - cbn [app decodeQuotedPrintable]. now rewrite (isAlnumByte_not_equals c Hc).
  - pose proof (Byte.to_N_bounded c) as Hb.
    assert (Hhi : (Byte.to_N c / 16 < 16)%N) by (apply N.Div0.div_lt_upper_bound; lia).
    assert (Hlo : (Byte.to_N c mod 16 < 16)%N) by (apply N.mod_lt; lia).
    destruct (hexValue_hexUpper _ Hhi) as [Hv1 Hcr].
    destruct (hexValue_hexUpper _ Hlo) as [Hv2 _].
    cbn [app decodeQuotedPrintable]. change (Byte.eqb "=" "=") with true. cbv iota.
    rewrite Hcr, Hv1, Hv2. cbn [andb]. f_equal.
    rewrite <- (byte_of_N_to_N c) at 3. f_equal.
    symmetry. apply N.div_mod. lia.
Qed.

Lemma decodeQuotedPrintable_softBreak (rest : QByteArray) :
  decodeQuotedPrintable (softBreak ++ rest) = decodeQuotedPrintable rest.
Proof. reflexivity. Qed.

Lemma decodeQuotedPrintable_foldUnits (maxLine : Z) (bytes : QByteArray) :
  forall last, decodeQuotedPrintable (foldUnits maxLine (map qpUnit bytes) last) = bytes.
Proof.
  induction bytes as [| c bytes IH]; intros last; cbn [map foldUnits]; [reflexivity |].
  destruct (last + size (qpUnit c) >? maxLine - 1).
  - now rewrite decodeQuotedPrintable_softBreak, decodeQuotedPrintable_qpUnit, IH.
  - now rewrite decodeQuotedPrintable_qpUnit, IH.
Qed.

Lemma decodeQuotedPrintable_flat_map (bytes : QByteArray) :
  decodeQuotedPrintable (flat_map qpUnit bytes) = bytes.
Proof.
  induction bytes as [| c bytes IH]; cbn [flat_map]; [reflexivity |].
  now rewrite decodeQuotedPrintable_qpUnit, IH.
Qed.

(** X2. Round trip: for every text and every line size (positive or not), a
    quoted-printable decoder applied to the encoded and folded text gives
    back the UTF-8 bytes of the text. *)
Theorem quotedPrintable_round_trip (text : QString) (maxLineSize : Z) :
  decodeQuotedPrintable
    (formatQuotedPrintableIntoLines (encodeQuotedPrintable text) maxLineSize)
  = toUtf8 text.
Proof.
  rewrite encodeQuotedPrintable_flat_map.
  destruct (Z.ltb_spec 0 maxLineSize) as [Hpos | Hneg].
  - rewrite formatQuotedPrintableIntoLines_foldUnits by assumption.
    apply decodeQuotedPrintable_foldUnits.
  - unfold formatQuotedPrintableIntoLines.
    replace (maxLineSize <=? 0) with true by (symmetry; apply Z.leb_le; lia).
    apply decodeQuotedPrintable_flat_map.
Qed.

(** ** Hard folding of encoded data *)

Lemma formatData_loop_hardFold (maxLineSize : Z) (data : QByteArray) :
  forall (output : QByteArray) (lastLineSize : Z),
    fst (fold_left
           (fun '(output, lastLineSize) byteVal =>
              let overflow := lastLineSize >=? maxLineSize in
              let output := if overflow then output ++ CRLF else output in
              let lastLineSize := if overflow then 0 else lastLineSize in
              (output ++ [byteVal], lastLineSize + 1))
           data (output, lastLineSize))
    = output ++ hardFold maxLineSize data lastLineSize.
Proof.
  induction data as [| c data IH]; intros output lastLineSize; cbn [fold_left hardFold].
  - cbn. now rewrite app_nil_r.
  - rewrite IH. destruct (lastLineSize >=? maxLineSize); cbn [Z.add];
      rewrite <- !app_assoc; reflexivity.
Qed.

Lemma formatDataIntoLines_hardFold (data : QByteArray) (maxLineSize : Z) :
  0 < maxLineSize ->
  formatDataIntoLines data maxLineSize = hardFold maxLineSize data 0.
Proof.
  intros Hpos. unfold formatDataIntoLines.
  replace (maxLineSize <=? 0) with false by (symmetry; apply Z.leb_gt; lia).
  destruct data as [| c data]; [reflexivity |]. cbn [isEmpty].
  now rewrite formatData_loop_hardFold.
Qed.

Lemma list_length_ind {A} (P : list A -> Prop) :
  (forall l, (forall l', (length l' < length l)%nat -> P l') -> P l) ->
  forall l, P l.
Proof.
  intros H l. remember (length l) as n eqn:Hn. revert l Hn.
  induction n as [n IH] using lt_wf_ind. intros l Hn. apply H.
  intros l' Hl'. apply (IH (length l')); [lia | reflexivity].
Qed.

Lemma linesFrom_cons2 (cur : QByteArray) (c c2 : byte) (a : QByteArray) :
  linesFrom cur (c :: c2 :: a)
  = if Byte.eqb c CR && Byte.eqb c2 LF then cur :: linesFrom [] a
    else linesFrom (cur ++ [c]) (c2 :: a).
Proof. reflexivity. Qed.

Lemma linesFrom_nonempty (cur a : QByteArray) : linesFrom cur a <> [].
Proof.
  revert cur. induction a as [a IH] using list_length_ind.
  intros cur. destruct a as [| c [| c2 a]]; [discriminate | discriminate |].
  rewrite linesFrom_cons2.
  destruct (Byte.eqb c CR && Byte.eqb c2 LF); [discriminate |].
  apply IH. simpl. lia.
Qed.

Lemma linesFrom_CRLF (cur rest : QByteArray) :
  linesFrom cur (CRLF ++ rest) = cur :: linesFrom [] rest.
Proof. reflexivity. Qed.

(** The invariant of hard folding on data without CR: the line being written
    has at most [maxLine] bytes, the lines before it exactly [maxLine]. *)
Lemma hardFold_lines (maxLine : Z) (data : QByteArray) :
  1 <= maxLine ->
  Forall (fun x => Byte.eqb x CR = false) data ->
  forall cur : QByteArray,
    size cur <= maxLine ->
    blocked maxLine (linesFrom cur (hardFold maxLine data (size cur)))
    /\ concat (linesFrom cur (hardFold maxLine data (size cur))) = cur ++ data.
Proof.
  intros Hmax. induction data as [| c data IH]; intros Hcr cur Hcur.
  - cbn. split; [exact Hcur | now rewrite app_nil_r].
  - inversion Hcr as [| ? ? Hc Hdata]; subst. cbn [hardFold].
    destruct (size cur >=? maxLine) eqn:Hfull.
    + rewrite linesFrom_CRLF, linesFrom_cons_noCR by exact Hc. cbn [app].
      destruct (IH Hdata [c]) as [Hb Hcat]; [unfold size; simpl; lia |].
      change (size [c]) with 1 in Hb, Hcat.
      pose proof (linesFrom_nonempty [c] (hardFold maxLine data 1)) as Hne.
      destruct (linesFrom [c] (hardFold maxLine data 1)) as [| l ls] eqn:Hl;
        [congruence |].
      split.
      * cbn [blocked]. split; [| exact Hb].
        rewrite Z.geb_leb in Hfull. apply Z.leb_le in Hfull. lia.
      * cbn [concat]. cbn [concat] in Hcat. now rewrite Hcat.
    + rewrite linesFrom_cons_noCR by exact Hc.
      rewrite Z.geb_leb in Hfull. apply Z.leb_gt in Hfull.
      destruct (IH Hdata (cur ++ [c])) as [Hb Hcat].
      * unfold size in *. rewrite length_app. simpl. lia.
      * replace (size (cur ++ [c])) with (size cur + 1) in Hb, Hcat
          by (unfold size; rewrite length_app; simpl; lia).
        split; [exact Hb |]. rewrite Hcat. now rewrite <- app_assoc.
Qed.

(** No character of the Base64 alphabet is a carriage return. *)
Lemma base64Char_noCR (n : N) : Byte.eqb (base64Char n) CR = false.
Proof.
  destruct (N.ltb_spec n 62) as [Hlt | Hge].
  - assert (Hin : In n (map N.of_nat (seq 0 62))).
    { rewrite <- (N2Nat.id n). apply in_map, in_seq. lia. }
    assert (Hall : forallb (fun k => negb (Byte.eqb (base64Char k) CR))
                     (map N.of_nat (seq 0 62)) = true) by (vm_compute; reflexivity).
    rewrite forallb_forall in Hall. apply Hall in Hin.
    now apply negb_true_iff in Hin.
  - unfold base64Char.
    replace (n <? 26)%N with false by (symmetry; apply N.ltb_ge; lia).
    replace (n <? 52)%N with false by (symmetry; apply N.ltb_ge; lia).
    replace (n <? 62)%N with false by (symmetry; apply N.ltb_ge; lia).
    destruct (n =? 62)%N; reflexivity.
Qed.

Lemma toBase64_noCR (a : QByteArray) :
  Forall (fun x => Byte.eqb x CR = false) (toBase64 a).
Proof.
  induction a as [a IH] using list_length_ind.
  destruct a as [| x [| y [| z a]]]; cbn [toBase64].
  - constructor.
  - repeat (apply Forall_cons || apply Forall_nil);
      first [apply base64Char_noCR | reflexivity].
  - repeat (apply Forall_cons || apply Forall_nil);
      first [apply base64Char_noCR | reflexivity].
  - cbn [app]. repeat apply Forall_cons; try apply base64Char_noCR.
    apply IH. simpl. lia.
Qed.

(** X3. Hard folding with a positive line size, on data without carriage
    returns: every line of the result but the last has exactly
    [maxLineSize] bytes, the last has at most that many, and the lines put
    together are the data. This holds in particular for the Base64 body of
    a file part. *)
Theorem formatDataIntoLines_exact_lines (data : QByteArray) (maxLineSize : Z) :
  0 < maxLineSize ->
  (Forall (fun x => Byte.eqb x CR = false) data ->
     blocked maxLineSize (linesOf (formatDataIntoLines data maxLineSize))
     /\ concat (linesOf (formatDataIntoLines data maxLineSize)) = data)
  /\ blocked maxLineSize
       (linesOf (formatDataIntoLines (toBase64 data) maxLineSize))
  /\ concat (linesOf (formatDataIntoLines (toBase64 data) maxLineSize)) = toBase64 data.
Proof.
  intros Hpos.
  assert (Hgen : forall d, Forall (fun x => Byte.eqb x CR = false) d ->
            blocked maxLineSize (linesOf (formatDataIntoLines d maxLineSize))
            /\ concat (linesOf (formatDataIntoLines d maxLineSize)) = d).
  { intros d Hd. rewrite formatDataIntoLines_hardFold by assumption.
    apply (hardFold_lines maxLineSize d ltac:(lia) Hd []). unfold size. simpl. lia. }
  split; [apply Hgen |]. apply Hgen, toBase64_noCR.
Qed.

Lemma formatDataIntoLines_exact_lines_witness :
  blocked 3 (linesOf (formatDataIntoLines (toBase64 (ba "hello")) 3)).
Proof.
  apply (formatDataIntoLines_exact_lines (ba "hello") 3). lia.
Defined.

(** ** Splitting a text into chunks *)

(** X4. [pn_splitTextIntoChunks] loses nothing and keeps the order: for
    every text and every chunk size the chunks put together are the text.
    An empty text has no chunk; a size that is not positive gives the whole
    text as one chunk; for a positive size every chunk but the last has
    exactly that many characters and the last has at most that many. *)
Theorem pn_splitTextIntoChunks_partition (text : QString) (maxChunkSize : Z) :
  concat (pn_splitTextIntoChunks text maxChunkSize) = text
  /\ (text = [] -> pn_splitTextIntoChunks text maxChunkSize = [])
  /\ (text <> [] -> maxChunkSize <= 0 -> pn_splitTextIntoChunks text maxChunkSize = [text])
  /\ (0 < maxChunkSize -> blocked maxChunkSize (pn_splitTextIntoChunks text maxChunkSize)).
Proof.
  destruct (pn_splitTextIntoChunks_concat_blocked text maxChunkSize) as [Hcat Hblk].
  split; [exact Hcat |]. split; [| split; [| exact Hblk]].
  - intros ->. reflexivity.
  - intros Hne Hle. unfold pn_splitTextIntoChunks.
    destruct text as [| c text]; [congruence |]. cbn [isEmpty].
    replace (maxChunkSize <=? 0) with true by (symmetry; apply Z.leb_le; lia).
    reflexivity.
Qed.

Lemma pn_splitTextIntoChunks_partition_witness :
  blocked 3 (pn_splitTextIntoChunks (qs "abcdefgh") 3).
Proof.
  apply (pn_splitTextIntoChunks_partition (qs "abcdefgh") 3). lia.
Defined.

(** ** Encoded words *)

(** X5. A text whose single encoded word fits the budget is encoded as that
    one word, without any line break: [encodeMimeWordQ] gives
    [=?utf-8?Q?...?=] around the quoted-printable text, [encodeMimeWordB]
    gives [=?utf-8?B?...?=] around the Base64 of its UTF-8 bytes. An empty
    text gives the empty byte array. *)
Theorem encodeMimeWord_single_word (text : QString) (maxWordSize : Z) :
  text <> [] ->
  (size (mimeWordQ text) <= maxWordSize ->
     encodeMimeWordQ text maxWordSize
     = ba "=?utf-8?Q?" ++ encodeQuotedPrintable text ++ ba "?=")
  /\ (size (mimeWordB text) <= maxWordSize ->
        encodeMimeWordB text maxWordSize
        = ba "=?utf-8?B?" ++ toBase64 (toUtf8 text) ++ ba "?=")
  /\ encodeMimeWordQ [] maxWordSize = []
  /\ encodeMimeWordB [] maxWordSize = [].
Proof.
  intros Hne.
  assert (Hone : forall word, size (word text) <= maxWordSize ->
            encodeMimeWord_loop word text maxWordSize (size text) = word text).
  { intros word Hfit. rewrite encodeMimeWord_loop_step.
    assert (Hsplit : pn_splitTextIntoChunks text (size text) = [text]).
    { unfold pn_splitTextIntoChunks. destruct text as [| c text]; [congruence |].
      cbn [isEmpty].
      replace (size (c :: text) >=? size (c :: text)) with true
        by (symmetry; rewrite Z.geb_leb; apply Z.leb_refl).
      now rewrite orb_true_r. }
    rewrite Hsplit. cbn [encodeWords fold_left wordStep fst snd app join].
    replace (Z.max 0 (size (word text)) <=? maxWordSize) with true; [reflexivity |].
    symmetry. apply Z.leb_le. unfold size in *. lia. }
  unfold encodeMimeWordQ, encodeMimeWordB.
  destruct text as [| c text]; [congruence |]. cbn [isEmpty].
  split; [intros H; now rewrite (Hone mimeWordQ H) |].
  split; [intros H; now rewrite (Hone mimeWordB H) |].
  split; reflexivity.
Qed.

Lemma encodeMimeWord_single_word_witness :
  encodeMimeWordQ (qs "Hello") 60 = ba "=?utf-8?Q?" ++ encodeQuotedPrintable (qs "Hello") ++ ba "?=".
Proof.
  apply (encodeMimeWord_single_word (qs "Hello") 60).
  - discriminate.
  - vm_compute. discriminate.
Defined.

(** [toUtf8] goes through a concatenation whose first part has no surrogate. *)
Lemma toUtf8_cons_notSurrogate (c : QChar) (s : QString) :
  notSurrogate c -> toUtf8 (c :: s) = toUtf8 [c] ++ toUtf8 s.
Proof.
  intros [Hh Hl]. cbn [toUtf8]. rewrite Hh, Hl.
  destruct (c <? 128)%N; [reflexivity |].
  destruct (c <? 2048)%N; [now rewrite app_nil_r |]. now rewrite app_nil_r.
Qed.

Lemma toUtf8_app_notSurrogate (a b : QString) :
  Forall notSurrogate a -> toUtf8 (a ++ b) = toUtf8 a ++ toUtf8 b.
Proof.
  induction 1 as [| c a Hc _ IH]; [reflexivity |].
  cbn [app]. rewrite (toUtf8_cons_notSurrogate c (a ++ b) Hc), IH.
  rewrite (toUtf8_cons_notSurrogate c a Hc). now rewrite app_assoc.
Qed.

Lemma toUtf8_concat_notSurrogate (chunks : list QString) :
  Forall notSurrogate (concat chunks) ->
  flat_map toUtf8 chunks = toUtf8 (concat chunks).
Proof.
  induction chunks as [| k chunks IH]; intros Hall; [reflexivity |].
  cbn [concat flat_map] in *. apply Forall_app in Hall. destruct Hall as [Hk Hrest].
  now rewrite toUtf8_app_notSurrogate, IH.
Qed.

(** X6. For a text without surrogate code units, splitting into chunks of
    any size loses nothing of the encoding: the UTF-8 bytes of the chunks,
    in order, are the UTF-8 bytes of the text, and so are their
    quoted-printable encodings. With a surrogate pair this fails: chunks of
    one code unit cut the pair, and the two halves no longer encode the
    character. *)
Theorem chunked_encoding_lossless (text : QString) (maxChunkSize : Z) :
  Forall notSurrogate text ->
  flat_map toUtf8 (pn_splitTextIntoChunks text maxChunkSize) = toUtf8 text
  /\ flat_map encodeQuotedPrintable (pn_splitTextIntoChunks text maxChunkSize)
     = encodeQuotedPrintable text
  /\ flat_map toUtf8 (pn_splitTextIntoChunks [55357; 56832]%N 1)
     <> toUtf8 [55357; 56832]%N.
Proof.
  intros Hall.
  destruct (pn_splitTextIntoChunks_concat_blocked text maxChunkSize) as [Hcat _].
  assert (H1 : flat_map toUtf8 (pn_splitTextIntoChunks text maxChunkSize) = toUtf8 text).
  { rewrite toUtf8_concat_notSurrogate; rewrite Hcat; [reflexivity | exact Hall]. }
  split; [exact H1 |]. split; [| vm_compute; discriminate].
  rewrite encodeQuotedPrintable_flat_map, <- H1. clear H1 Hcat.
  induction (pn_splitTextIntoChunks text maxChunkSize) as [| k chunks IH];
    [reflexivity |].
  cbn [flat_map]. rewrite flat_map_app, IH.
  now rewrite encodeQuotedPrintable_flat_map.
Qed.

Lemma chunked_encoding_lossless_witness :
  flat_map toUtf8 (pn_splitTextIntoChunks [67; 97; 102; 233]%N 2)
  = toUtf8 [67; 97; 102; 233]%N.
Proof.
  apply (chunked_encoding_lossless [67; 97; 102; 233]%N 2).
  repeat constructor.
Defined.

(** ** Address lists *)

Lemma join_cons_flat_map (sep : QByteArray) (w : QByteArray) (l : list QByteArray) :
  join sep (w :: l) = w ++ flat_map (fun x => sep ++ x) l.
Proof.
  revert w. induction l as [| x l IH]; intros w.
  - cbn. now rewrite app_nil_r.
  - change (join sep (w :: x :: l)) with (w ++ sep ++ join sep (x :: l)).
    rewrite IH. cbn [flat_map]. now rewrite <- app_assoc.
Qed.

Lemma encodeEmailAddresses_loop (E : Env) (maxWordSize : Z) (emails : list EmailAddress) :
  forall (ix : Z) (encoded : QByteArray),
    1 <= ix ->
    snd (fold_left
           (fun '(ix, encoded) email =>
              let encoded := if ix >=? 1 then encoded ++ ba "," ++ CRLF ++ ba " " else encoded in
              (ix + 1, encoded ++ encodeEmailAddress E email maxWordSize))
           emails (ix, encoded))
    = encoded
      ++ flat_map (fun x => (ba "," ++ CRLF ++ ba " ") ++ x)
           (map (fun email => encodeEmailAddress E email maxWordSize) emails).
Proof.
  induction emails as [| e emails IH]; intros ix encoded Hix.
  - cbn. now rewrite app_nil_r.
  - cbn [fold_left map flat_map].
    replace (ix >=? 1) with true by (symmetry; rewrite Z.geb_leb; apply Z.leb_le; lia).
    rewrite IH by lia. now rewrite <- !app_assoc.
Qed.

(** X7. [encodeEmailAddresses] gives the empty byte array for an empty list
    and for a list with an address that is not valid; for a non-empty list
    of valid addresses it gives the renderings of the addresses, in order,
    joined by a comma, CRLF and a space. *)
Theorem encodeEmailAddresses_join (E : Env) (emails : list EmailAddress) (maxWordSize : Z) :
  (emails = [] \/ forallb (EmailAddress_isValid E) emails = false ->
     encodeEmailAddresses E emails maxWordSize = [])
  /\ (emails <> [] -> forallb (EmailAddress_isValid E) emails = true ->
      encodeEmailAddresses E emails maxWordSize
      = join (ba "," ++ CRLF ++ ba " ")
          (map (fun email => encodeEmailAddress E email maxWordSize) emails)).
Proof.
  unfold encodeEmailAddresses. split.
  - intros [-> | Hinv]; [reflexivity |].
    destruct emails; [reflexivity |]. cbn [isEmpty]. now rewrite Hinv.
  - intros Hne Hall. destruct emails as [| e emails]; [congruence |].
    cbn [isEmpty]. rewrite Hall. cbn [negb fold_left map].
    change (0 >=? 1) with false. cbv iota. cbn [Z.add app].
    rewrite encodeEmailAddresses_loop by lia.
    now rewrite join_cons_flat_map.
Qed.

Lemma encodeEmailAddresses_join_witness :
  encodeEmailAddresses sampleEnv
    [{| d_email := qs "a@b.co"; d_name := [] |}; {| d_email := qs "c@d.co"; d_name := [] |}] 60
  = join (ba "," ++ CRLF ++ ba " ")
      (map (fun email => encodeEmailAddress sampleEnv email 60)
         [{| d_email := qs "a@b.co"; d_name := [] |};
          {| d_email := qs "c@d.co"; d_name := [] |}]).
Proof.
  apply (encodeEmailAddresses_join sampleEnv
           [{| d_email := qs "a@b.co"; d_name := [] |};
            {| d_email := qs "c@d.co"; d_name := [] |}] 60).
  - discriminate.
  - vm_compute. reflexivity.
Defined.

(** ** Content names and file parts *)

Lemma isNameChar_ascii (c : QChar) :
  isNameChar c = true -> (c <? 128)%N = true /\ isNameByte (byte_of_N c) = true.
Proof.
  intros H.
  assert (Hlt : (c < 128)%N).
  { unfold isNameChar in H.
    repeat match type of H with
           | (_ || _)%bool = true => apply orb_true_iff in H; destruct H as [H | H]
           | (_ && _)%bool = true => apply andb_true_iff in H; destruct H as [H ?]
           end;
      repeat match goal with
             | Hx : (_ <=? _)%N = true |- _ => apply N.leb_le in Hx
             | Hx : (_ =? _)%N = true |- _ => apply N.eqb_eq in Hx
             end; lia. }
  split; [now apply N.ltb_lt |].
  assert (Hin : In c (map N.of_nat (seq 0 128))).
  { rewrite <- (N2Nat.id c). apply in_map, in_seq. lia. }
  assert (Hall : forallb (fun k => implb (isNameChar k) (isNameByte (byte_of_N k)))
                   (map N.of_nat (seq 0 128)) = true) by (vm_compute; reflexivity).
  rewrite forallb_forall in Hall. apply Hall in Hin. now rewrite H in Hin.
Qed.

Lemma toUtf8_nameChars (s : QString) :
  Forall (fun c => isNameChar c = true) s ->
  toUtf8 s = map byte_of_N s /\ Forall (fun b => isNameByte b = true) (map byte_of_N s).
Proof.
  induction 1 as [| c s Hc _ [IH1 IH2]]; [split; [reflexivity | constructor] |].
  destruct (isNameChar_ascii c Hc) as [Hlt Hb].
  cbn [toUtf8 map]. rewrite Hlt, IH1. split; [reflexivity | now constructor].
Qed.

Lemma replaceSpaceRuns_length (ws : QChar -> bool) (s : QString) :
  forall inRun, (length (replaceSpaceRuns ws s inRun) <= length s)%nat.
Proof.
  induction s as [| c s IH]; intros inRun; cbn [replaceSpaceRuns]; [lia |].
  pose proof (IH true). pose proof (IH false).
  destruct (inClassS ws c); [destruct inRun |]; cbn [length]; lia.
Qed.

(** Replacing white space keeps a well-formed name well-formed, so the
    second expression finds a subject it accepts. *)
Lemma replaceSpaceRuns_valid (ws : QChar -> bool) (s : QString) :
  forall expectLow inRun,
    validUtf16From s expectLow = true ->
    validUtf16From (replaceSpaceRuns ws s inRun) expectLow = true.
Proof.
  induction s as [| c s IH]; intros expectLow inRun Hv; [exact Hv |].
  cbn [replaceSpaceRuns]. unfold inClassS.
  destruct (isHighSurrogate c) eqn:Hhi; cbn [orb negb andb].
  - cbn [validUtf16From] in Hv |- *. rewrite Hhi in *.
    destruct expectLow.
    + apply andb_true_iff in Hv as (Hlo & Hv). rewrite Hlo. cbn [andb]. now apply IH.
    + now apply IH.
  - destruct (isLowSurrogate c) eqn:Hlo; cbn [negb andb].
    + cbn [validUtf16From] in Hv |- *. rewrite Hhi, Hlo in *.
      destruct expectLow; [| discriminate]. cbn [andb] in *. now apply IH.
    + cbn [validUtf16From] in Hv. rewrite Hhi, Hlo in Hv.
      destruct expectLow; [discriminate |].
      destruct (ws c).
      * destruct inRun; [now apply IH |].
        cbn [validUtf16From]. change (isHighSurrogate 95%N) with false.
        change (isLowSurrogate 95%N) with false. cbv iota. now apply IH.
      * cbn [validUtf16From]. rewrite Hhi, Hlo. now apply IH.
Qed.

(** What [setContentName] stores: the sanitised name for a well-formed
    name, and the name as it is for a name that is not well-formed. *)
Lemma sanitiseName_cases (ws : QChar -> bool) (name : QString) :
  sanitiseName ws name
  = if isValidUtf16 name
    then toUtf8 (filter isNameChar (replaceSpaceRuns ws name false))
    else toUtf8 name.
Proof.
  unfold sanitiseName, replaceSpaces, removeUnallowed.
  destruct (isValidUtf16 name) eqn:Hv; [| now rewrite Hv].
  unfold isValidUtf16 in *. now rewrite (replaceSpaceRuns_valid ws name false false Hv).
Qed.

(** X8. For a name that is well-formed UTF-16, and whatever the class [\s]
    of the engine, the content name that [setContentName] stores consists of
    bytes in [[A-Za-z0-9._-]] only; so it holds no double quote, CR or LF,
    and the quoted [name] and [filename] parameters written from it cannot
    be broken out of; it has at most as many bytes as the name had
    characters. For a name that is not well-formed (a surrogate without its
    partner) both regular expressions find nothing and the name is stored as
    it is, double quotes and line breaks included. The other members of the
    part are left alone in both cases. *)
Theorem setContentName_sanitises (ws : QChar -> bool) (b : MimePartData) (name : QString) :
  let b' := setContentName ws b name in
  (isValidUtf16 name = true ->
     Forall (fun c => isNameByte c = true) (d_contentName b')
     /\ ~ In DQUOTE (d_contentName b') /\ ~ In CR (d_contentName b')
     /\ ~ In LF (d_contentName b')
     /\ size (d_contentName b') <= size name)
  /\ (isValidUtf16 name = false -> d_contentName b' = toUtf8 name)
  /\ d_contentType b' = d_contentType b
  /\ d_contentCharset b' = d_contentCharset b
  /\ d_contentEncoding b' = d_contentEncoding b.
Proof.
  cbn zeta. cbn [setContentName d_contentName d_contentType d_contentCharset d_contentEncoding].
  rewrite sanitiseName_cases.
  split; [| split; [now intros -> | repeat split]].
  intros ->.
  assert (Hf : Forall (fun c => isNameChar c = true)
                 (filter isNameChar (replaceSpaceRuns ws name false))).
  { apply Forall_forall. intros c Hc. now apply filter_In in Hc. }
  destruct (toUtf8_nameChars _ Hf) as [Heq Hall]. rewrite Heq.
  assert (Hnot : forall x, isNameByte x = false ->
            ~ In x (map byte_of_N (filter isNameChar (replaceSpaceRuns ws name false)))).
  { intros x Hx Hin. rewrite Forall_forall in Hall. apply Hall in Hin. congruence. }
  split; [exact Hall |].
  split; [now apply Hnot |]. split; [now apply Hnot |]. split; [now apply Hnot |].
  unfold size. rewrite length_map.
  apply Nat2Z.inj_le.
  exact (Nat.le_trans _ _ _
           (filter_length_le isNameChar (replaceSpaceRuns ws name false))
           (replaceSpaceRuns_length ws name false)).
Qed.

Lemma setContentName_sanitises_witness :
  ~ In DQUOTE (d_contentName
                 (setContentName asciiSpace (MimePartData_new (ba "text/plain"))
                    [97; 34; 32; 98; 55357; 56832; 46; 116]%N))
  /\ In DQUOTE (d_contentName
                  (setContentName asciiSpace (MimePartData_new (ba "text/plain"))
                     [97; 34; 32; 98; 55357; 46; 116]%N)).
Proof.
  split.
  - apply (setContentName_sanitises asciiSpace (MimePartData_new (ba "text/plain"))
             [97; 34; 32; 98; 55357; 56832; 46; 116]%N).
    reflexivity.
  - rewrite (proj1 (proj2 (setContentName_sanitises asciiSpace
                             (MimePartData_new (ba "text/plain"))
                             [97; 34; 32; 98; 55357; 46; 116]%N)) eq_refl).
    vm_compute. right. left. reflexivity.
Defined.

(** X9. A file part made by the constructors ([MimeFile], [MimeInlineFile],
    [MimeAttachmentFile]) serialises on an accepting device exactly when
    the content name that [setContentName] stored and its content are both
    non-empty, provided the mime-type database names no type by the empty
    string. The stored name of a well-formed name is the sanitised one, so
    a file whose well-formed name has no character in [[A-Za-z0-9._-]] and
    no white space never serialises; a name that is not well-formed UTF-16
    is stored as it is. *)
Theorem file_part_serialises_iff (E : Env) (ws : QChar -> bool)
  (mimeTypes : QByteArray -> list QByteArray)
  (content : QByteArray) (name : QString) (st : WriterState) :
  accepting st ->
  Forall (fun t => t <> []) (mimeTypes (sanitiseName ws name)) ->
  let ok := negb (isEmpty (sanitiseName ws name)) && negb (isEmpty content) in
  fst (MimePart_writeToDev E (MimeFile_new ws mimeTypes content name) st) = ok
  /\ fst (MimePart_writeToDev E (MimeInlineFile_new ws mimeTypes content name) st) = ok
  /\ fst (MimePart_writeToDev E (MimeAttachmentFile_new ws mimeTypes content name) st) = ok
  /\ sanitiseName ws name
     = (if isValidUtf16 name
        then toUtf8 (filter isNameChar (replaceSpaceRuns ws name false))
        else toUtf8 name).
Proof.
  intros Hst Hdb ok.
  assert (Hok : forall d,
            partOk (setDisposition (MimeFile_new ws mimeTypes content name) d) = ok).
  { intros d. unfold MimeFile_new. cbn [setDisposition partOk].
    set (base0 := setContentTransferEncoding
                    (setContentName ws (MimePartData_new (ba "application/octet-stream")) name)
                    ContentBase64Encoded).
    change (d_contentName base0) with (sanitiseName ws name) in *.
    assert (Hct : forall base,
              base = (if size (mimeTypes (sanitiseName ws name)) =? 1
                      then setContentType base0 (hd [] (mimeTypes (sanitiseName ws name)))
                      else base0) ->
              d_contentName base = sanitiseName ws name
              /\ isEmpty (d_contentType base) = false).
    { intros base ->.
      destruct (mimeTypes (sanitiseName ws name)) as [| t [| t2 ts]].
      - split; reflexivity.
      - inversion Hdb as [| ? ? Ht _]; subst.
        split; [reflexivity |]. cbn. destruct t; [congruence | reflexivity].
      - replace (size (t :: t2 :: ts) =? 1) with false
          by (symmetry; apply Z.eqb_neq; unfold size; simpl length; lia).
        split; reflexivity. }
    destruct (Hct _ eq_refl) as [Hn Hc]. rewrite Hn, Hc. cbn [negb].
    unfold ok. rewrite andb_true_r, negb_orb. reflexivity. }
  pose proof (fun d => proj1 (MimePart_writeToDev_yields E
                 (setDisposition (MimeFile_new ws mimeTypes content name) d) st Hst)) as Hy.
  split; [| split; [| split]].
  - rewrite <- (Hok NoDisposition). apply (Hy NoDisposition).
  - rewrite <- (Hok DisposeInline). apply (Hy DisposeInline).
  - rewrite <- (Hok DisposeAsAttachment). apply (Hy DisposeAsAttachment).
  - apply sanitiseName_cases.
Qed.

Lemma file_part_serialises_iff_witness :
  fst (MimePart_writeToDev sampleEnv
         (MimeAttachmentFile_new asciiSpace (fun _ => [ba "text/plain"]) (ba "data")
            (qs "my notes.txt"))
         emptyBuffer)
  = true
  /\ fst (MimePart_writeToDev sampleEnv
            (MimeFile_new asciiSpace (fun _ => []) (ba "data") [233; 8364]%N)
            emptyBuffer)
     = false
  /\ fst (MimePart_writeToDev sampleEnv
            (MimeFile_new asciiSpace (fun _ => []) (ba "data") [233; 55357]%N)
            emptyBuffer)
     = true.
Proof.
  split; [| split].
  - apply (file_part_serialises_iff sampleEnv asciiSpace (fun _ => [ba "text/plain"])
             (ba "data") (qs "my notes.txt") emptyBuffer).
    + reflexivity.
    + repeat constructor. discriminate.
  - apply (file_part_serialises_iff sampleEnv asciiSpace (fun _ => [])
             (ba "data") [233; 8364]%N emptyBuffer).
    + reflexivity.
    + constructor.
  - apply (file_part_serialises_iff sampleEnv asciiSpace (fun _ => [])
             (ba "data") [233; 55357]%N emptyBuffer).
    + reflexivity.
    + constructor.
Defined.

(** ** Serialisation on any device *)

Lemma sound_ret (b : bool) : sound (ret b) b.
Proof.
  intros st. cbn. split; [exists []; now rewrite app_nil_r | split; [lia | trivial]].
Qed.

Lemma sound_write (data : QByteArray) : sound (writeDataToDev data) true.
Proof.
  intros st. unfold writeDataToDev, QIODevice_write.
  destruct (dev_room (ws_dev st)); cbn [fst snd ws_dev ws_uuids dev_data];
    (split; [eexists; reflexivity | split; [lia | trivial]]).
Qed.

Lemma writeDataToDev_true (data : QByteArray) (st : WriterState) :
  fst (writeDataToDev data st) = true ->
  dev_data (ws_dev (snd (writeDataToDev data st))) = dev_data (ws_dev st) ++ data.
Proof.
  unfold writeDataToDev, QIODevice_write.
  destruct (dev_room (ws_dev st)) as [room |]; cbn [fst snd ws_dev dev_data];
    [| reflexivity].
  intros Hw. apply Z.eqb_eq in Hw. unfold size in Hw. apply Nat2Z.inj in Hw.
  rewrite length_firstn in Hw. now rewrite firstn_all2 by lia.
Qed.

Lemma sound_check (c k : ST WriterState bool) (b1 b2 : bool) :
  sound c b1 -> sound k b2 -> sound (check c ;; k) (b1 && b2).
Proof.
  intros Hc Hk st. unfold bind.
  destruct (Hc st) as ((out & Hout) & Hu & Hb).
  destruct (fst (c st)).
  - destruct (Hk (snd (c st))) as ((out' & Hout') & Hu' & Hb').
    split; [exists (out ++ out'); now rewrite Hout', Hout, app_assoc |].
    split; [lia |]. intros Ht. now rewrite Hb, Hb'.
  - cbn. split; [now exists out | split; [exact Hu | discriminate]].
Qed.

Lemma sound_eq (c : ST WriterState bool) (b b' : bool) : sound c b -> b = b' -> sound c b'.
Proof. now intros H <-. Qed.

Lemma sound_newBoundary (E : Env) (k : QByteArray -> ST WriterState bool) (b : bool) :
  (forall boundary, sound (k boundary) b) ->
  sound (boundaryStr <- newBoundary E ;; k boundaryStr) b.
Proof.
  intros Hk st. unfold bind, newBoundary. cbn [fst snd].
  destruct (Hk (toHex (createUuid E (ws_uuids st)))
              {| ws_dev := ws_dev st; ws_uuids := S (ws_uuids st) |})
    as (Hout & Hu & Hb).
  cbn [ws_dev ws_uuids] in *. split; [exact Hout | split; [lia | exact Hb]].
Qed.

Lemma writeStdHeadersToDev_sound (base : MimePartData) (boundary : QByteArray) :
  sound (writeStdHeadersToDev base boundary) (negb (isEmpty (d_contentType base))).
Proof.
  unfold writeStdHeadersToDev.
  destruct (isEmpty (d_contentType base)); cbn [negb]; [apply sound_ret |].
  eapply sound_eq.
  - apply sound_check; [apply sound_write |].
    destruct (negb (isEmpty _)).
    + apply sound_check; [apply sound_write | apply sound_ret].
    + apply (sound_ret true).
  - reflexivity.
Qed.

Lemma MimePart_writeToDev_sound (E : Env) (p : MimePart) :
  sound (MimePart_writeToDev E p) (partOk p).
Proof.
  induction p as [base t | base t | base content disp | base ps IH]
    using MimePart_tree_ind; cbn [MimePart_writeToDev partOk].
  - destruct (isEmpty t); cbn [negb andb]; [apply sound_ret |].
    eapply sound_eq.
    + repeat (apply sound_check;
              [first [apply writeStdHeadersToDev_sound | apply sound_write] |]).
      apply sound_ret.
    + now rewrite !andb_true_r.
  - destruct (isEmpty t); cbn [negb andb]; [apply sound_ret |].
    eapply sound_eq.
    + repeat (apply sound_check;
              [first [apply writeStdHeadersToDev_sound | apply sound_write] |]).
      apply sound_ret.
    + now rewrite !andb_true_r.
  - destruct (isEmpty (d_contentName base) || isEmpty content); cbn [negb andb];
      [apply sound_ret |].
    eapply sound_eq.
    + apply sound_check; [apply writeStdHeadersToDev_sound |].
      apply sound_check.
      * destruct (negb (isEmpty _)); [apply sound_write | apply (sound_ret true)].
      * repeat (apply sound_check; [apply sound_write |]). apply sound_ret.
    + now rewrite !andb_true_r.
  - assert (Heach : forall boundaryPrefix,
              sound
                ((fix each (parts : list MimePart) : ST WriterState bool :=
                    match parts with
                    | [] => ret true
                    | part :: parts' =>
                        check writeDataToDev boundaryPrefix ;;
                        check MimePart_writeToDev E part ;;
                        each parts'
                    end) ps)
                (forallb partOk ps)).
    { intros boundaryPrefix. induction IH as [| r rs Hr _ IHrs].
      - apply sound_ret.
      - cbn [forallb]. eapply sound_eq.
        + apply sound_check; [apply sound_write |].
          apply sound_check; [exact Hr | exact IHrs].
        + reflexivity. }
    destruct ps as [| q [| q2 ps]].
    + apply sound_ret.
    + cbn. inversion IH; subst. assumption.
    + cbn [isEmpty].
      replace (size (q :: q2 :: ps) =? 1) with false
        by (symmetry; apply Z.eqb_neq; unfold size; simpl length; lia).
      apply sound_newBoundary. intros boundary.
      eapply sound_eq.
      * apply sound_check; [apply writeStdHeadersToDev_sound |].
        apply sound_check; [apply sound_write |].
        apply sound_check; [apply Heach |].
        apply sound_check; [apply sound_write | apply sound_ret].
      * now rewrite !andb_true_r.
Qed.

(** X10. On every device, accepting or not, serialising a part only appends
    to what the device holds, and it returns true only for a part that is
    complete all the way down: a content type wherever headers are written,
    a non-empty text, a file with name and content, a multipart with at
    least one part. A message is written with success only if it is valid,
    and then what was appended ends with the dot-terminator. *)
Theorem writeToDev_appends_and_succeeds_only_if (E : Env) (st : WriterState) :
  (forall p : MimePart,
      (exists out, dev_data (ws_dev (snd (MimePart_writeToDev E p st)))
                   = dev_data (ws_dev st) ++ out)
      /\ (fst (MimePart_writeToDev E p st) = true -> partOk p = true))
  /\ (forall m : MimeMessage,
        (exists out, dev_data (ws_dev (snd (MimeMessage_writeToDev E m st)))
                     = dev_data (ws_dev st) ++ out)
        /\ (fst (MimeMessage_writeToDev E m st) = true ->
            MimeMessage_isValid E m = true
            /\ partOk (d_multiPart m) = true
            /\ exists body,
                 dev_data (ws_dev (snd (MimeMessage_writeToDev E m st)))
                 = dev_data (ws_dev st) ++ MimeMessage_header E m ++ body ++ dotTerminator)).
Proof.
  split.
  - intros p. destruct (MimePart_writeToDev_sound E p st) as (Hout & _ & Hb).
    split; assumption.
  - intros m. unfold MimeMessage_writeToDev.
    destruct (MimeMessage_isValid E m); cbn [negb].
    + unfold bind.
      set (st1 := snd (writeDataToDev (MimeMessage_header E m) st)).
      pose proof (writeDataToDev_true (MimeMessage_header E m) st) as H1. fold st1 in H1.
      destruct (sound_write (MimeMessage_header E m) st) as ((o1 & Ho1) & _ & _).
      fold st1 in Ho1.
      destruct (fst (writeDataToDev (MimeMessage_header E m) st));
        [| cbn; split; [now exists o1 | discriminate]].
      destruct (MimePart_writeToDev_sound E (d_multiPart m) st1) as ((body & Hbody) & _ & Hok).
      set (st2 := snd (MimePart_writeToDev E (d_multiPart m) st1)) in *.
      destruct (fst (MimePart_writeToDev E (d_multiPart m) st1));
        [| cbn; split; [exists (o1 ++ body); now rewrite Hbody, Ho1, app_assoc
                       | discriminate]].
      set (st3 := snd (writeDataToDev (CRLF ++ ba "." ++ CRLF) st2)).
      pose proof (writeDataToDev_true (CRLF ++ ba "." ++ CRLF) st2) as H3. fold st3 in H3.
      change (CRLF ++ ba "." ++ CRLF) with dotTerminator in *.
      destruct (sound_write dotTerminator st2) as ((o3 & Ho3) & _ & _).
      fold st3 in Ho3.
      destruct (fst (writeDataToDev dotTerminator st2)); cbn [ret fst snd].
      * split; [exists (o1 ++ body ++ o3);
                now rewrite Ho3, Hbody, Ho1, <- !app_assoc |].
        intros _. split; [reflexivity |]. split; [now apply Hok |].
        exists body. rewrite (H3 eq_refl), Hbody, (H1 eq_refl). now rewrite <- !app_assoc.
      * split; [exists (o1 ++ body ++ o3);
                now rewrite Ho3, Hbody, Ho1, <- !app_assoc | discriminate].
    + cbn. split; [exists []; now rewrite app_nil_r | discriminate].
Qed.

(** ** The wire format of a part, and what a device with little room gets *)

Lemma renders_ret : renders (ret true) (fun n => ([], n)).
Proof.
  intros st. cbn. destruct (dev_room (ws_dev st)) as [room |].
  - rewrite firstn_nil, app_nil_r, Nat.sub_0_r. auto.
  - rewrite app_nil_r. auto.
Qed.

Lemma renders_write (data : QByteArray) : renders (writeDataToDev data) (fun n => (data, n)).
Proof.
  intros st. unfold writeDataToDev, QIODevice_write. cbn [fst snd].
  destruct (dev_room (ws_dev st)) as [room |]; cbn [fst snd ws_dev ws_uuids dev_data dev_room].
  - rewrite length_firstn. split; [| split; [reflexivity | split; [| reflexivity]]].
    + unfold size. rewrite length_firstn.
      destruct (Nat.leb_spec (length data) room) as [Hle | Hgt].
      * apply Z.eqb_eq. f_equal. lia.
      * apply Z.eqb_neq. lia.
    + f_equal. lia.
  - split; [apply Z.eqb_refl | auto].
Qed.

Lemma renders_check (c k : ST WriterState bool) (f g : nat -> QByteArray * nat) :
  renders c f -> renders k g ->
  renders (check c ;; k)
          (fun n => (fst (f n) ++ fst (g (snd (f n))), snd (g (snd (f n))))).
Proof.
  intros Hc Hk st. specialize (Hc st). cbn zeta in Hc. cbn zeta. cbn [fst snd].
  unfold bind.
  destruct (dev_room (ws_dev st)) as [room |] eqn:Hroom.
  - destruct Hc as (Hr & Hd & Hroom' & Hu).
    rewrite Hr. destruct (Nat.leb_spec (length (fst (f (ws_uuids st)))) room) as [Hle | Hgt].
    + specialize (Hk (snd (c st))). cbn zeta in Hk. rewrite Hroom' in Hk.
      rewrite (Hu Hr) in Hk. destruct Hk as (Hr2 & Hd2 & Hroom2 & Hu2).
      split; [| split; [| split; [| exact Hu2]]].
      * rewrite Hr2, length_app.
        destruct (Nat.leb_spec (length (fst (g (snd (f (ws_uuids st))))))
                               (room - length (fst (f (ws_uuids st))))) as [H1 | H1];
          symmetry; [apply Nat.leb_le | apply Nat.leb_gt]; lia.
      * rewrite Hd2, Hd, firstn_app, <- app_assoc.
        now rewrite (firstn_all2 (n := room)) by lia.
      * rewrite Hroom2, length_app. f_equal. lia.
    + cbn [ret fst snd]. rewrite Hd, Hroom', length_app, firstn_app.
      replace (room - length (fst (f (ws_uuids st))))%nat with 0%nat by lia.
      rewrite firstn_0, app_nil_r.
      split; [symmetry; apply Nat.leb_gt; lia |].
      split; [reflexivity | split; [f_equal; lia | discriminate]].
  - destruct Hc as (Hr & Hd & Hroom' & Hu). rewrite Hr.
    specialize (Hk (snd (c st))). cbn zeta in Hk. rewrite Hroom', Hu in Hk.
    destruct Hk as (Hr2 & Hd2 & Hroom2 & Hu2).
    rewrite Hr2, Hd2, Hd, <- app_assoc. auto.
Qed.

Lemma renders_ext (c : ST WriterState bool) (f g : nat -> QByteArray * nat) :
  renders c f -> (forall n, f n = g n) -> renders c g.
Proof. intros Hc Heq st. rewrite <- Heq. exact (Hc st). Qed.

Lemma renders_newBoundary (E : Env) (k : QByteArray -> ST WriterState bool)
      (h : QByteArray -> nat -> QByteArray * nat) :
  (forall boundary, renders (k boundary) (h boundary)) ->
  renders (boundaryStr <- newBoundary E ;; k boundaryStr)
          (fun n => h (toHex (createUuid E n)) (S n)).
Proof.
  intros Hk st. unfold bind, newBoundary. cbn [fst snd].
  exact (Hk (toHex (createUuid E (ws_uuids st)))
            {| ws_dev := ws_dev st; ws_uuids := S (ws_uuids st) |}).
Qed.

Lemma writeStdHeadersToDev_renders (base : MimePartData) (boundary : QByteArray) :
  isEmpty (d_contentType base) = false ->
  renders (writeStdHeadersToDev base boundary) (fun n => (stdHeaderBytes base boundary, n)).
Proof.
  intros Hct. unfold writeStdHeadersToDev. rewrite Hct.
  eapply renders_ext.
  - apply renders_check; [apply renders_write |].
    instantiate (1 := fun n =>
      (match d_contentEncoding base with
       | ContentBase64Encoded => ba "Content-Transfer-Encoding: base64" ++ CRLF
       | ContentQuotedPrintableEncoded =>
           ba "Content-Transfer-Encoding: quoted-printable" ++ CRLF
       | ContentNotEncoded => []
       end, n)).
    destruct (d_contentEncoding base); cbn [isEmpty negb app].
    + apply renders_ret.
    + eapply renders_ext; [apply renders_check; [apply renders_write | apply renders_ret] |].
      intros n. cbn [fst snd]. now rewrite app_nil_r.
    + eapply renders_ext; [apply renders_check; [apply renders_write | apply renders_ret] |].
      intros n. cbn [fst snd]. now rewrite app_nil_r.
  - intros n. cbn [fst snd]. unfold stdHeaderBytes. f_equal.
    destruct (isEmpty (d_contentName base)), (isEmpty (d_contentCharset base)),
      (isEmpty boundary); cbn [negb]; now rewrite <- ?app_assoc, ?app_nil_r.
Qed.

Lemma MimePart_writeToDev_renders (E : Env) (p : MimePart) :
  partOk p = true -> renders (MimePart_writeToDev E p) (partBytes E p).
Proof.
  induction p as [base t | base t | base content disp | base ps IH]
    using MimePart_tree_ind; cbn [MimePart_writeToDev partOk partBytes]; intros Hok.
  - apply andb_true_iff in Hok as (Ht & Hct). apply negb_true_iff in Ht, Hct. rewrite Ht.
    eapply renders_ext.
    + apply renders_check; [now apply writeStdHeadersToDev_renders |].
      repeat (apply renders_check; [apply renders_write |]). apply renders_ret.
    + intros n. cbn [fst snd]. now rewrite app_nil_r.
  - apply andb_true_iff in Hok as (Ht & Hct). apply negb_true_iff in Ht, Hct. rewrite Ht.
    eapply renders_ext.
    + apply renders_check; [now apply writeStdHeadersToDev_renders |].
      repeat (apply renders_check; [apply renders_write |]). apply renders_ret.
    + intros n. cbn [fst snd]. now rewrite app_nil_r.
  - apply andb_true_iff in Hok as (Hf & Hct). apply negb_true_iff in Hf, Hct. rewrite Hf.
    eapply renders_ext.
    + apply renders_check; [now apply writeStdHeadersToDev_renders |].
      apply renders_check.
      * instantiate (1 := fun n => (dispositionBytes base disp, n)).
        destruct disp; cbn [dispositionBytes isEmpty negb app];
          first [apply renders_ret | apply renders_write].
      * repeat (apply renders_check; [apply renders_write |]). apply renders_ret.
    + intros n. cbn [fst snd]. now rewrite app_nil_r.
  - destruct ps as [| q [| q2 ps]].
    + discriminate.
    + cbn. inversion IH; subst. auto.
    + apply andb_true_iff in Hok as (Hct & Hall). apply negb_true_iff in Hct.
      cbn [isEmpty].
      replace (size (q :: q2 :: ps) =? 1) with false
        by (symmetry; apply Z.eqb_neq; unfold size; simpl length; lia).
      remember (q :: q2 :: ps) as parts eqn:Hparts.
      assert (Heach : forall boundary,
                renders
                  ((fix each (parts : list MimePart) : ST WriterState bool :=
                      match parts with
                      | [] => ret true
                      | part :: parts' =>
                          check writeDataToDev (ba "--" ++ boundary ++ CRLF) ;;
                          check MimePart_writeToDev E part ;;
                          each parts'
                      end) parts)
                  ((fix each (ps : list MimePart) (k : nat) : QByteArray * nat :=
                      match ps with
                      | [] => ([], k)
                      | q :: ps' =>
                          let r := partBytes E q k in
                          let r' := each ps' (snd r) in
                          (ba "--" ++ boundary ++ CRLF ++ fst r ++ fst r', snd r')
                      end) parts)).
      { intros boundary. clear Hparts. induction IH as [| r rs Hr _ IHrs].
        - apply renders_ret.
        - cbn [forallb] in Hall. apply andb_true_iff in Hall as (Hr1 & Hrs).
          eapply renders_ext.
          + apply renders_check; [apply renders_write |].
            apply renders_check; [exact (Hr Hr1) | exact (IHrs Hrs)].
          + intros n. cbn [fst snd]. now rewrite <- !app_assoc. }
      subst parts. eapply renders_ext.
      * apply renders_newBoundary. intros boundary.
        apply renders_check; [now apply writeStdHeadersToDev_renders |].
        apply renders_check; [apply renders_write |].
        apply renders_check; [exact (Heach boundary) |].
        apply renders_check; [apply renders_write | apply renders_ret].
      * intros n. cbn [fst snd]. cbn zeta.
        now rewrite app_nil_r, <- !app_assoc.
Qed.

Lemma MimeMessage_writeToDev_renders (E : Env) (m : MimeMessage) :
  MimeMessage_isValid E m = true -> partOk (d_multiPart m) = true ->
  renders (MimeMessage_writeToDev E m)
          (fun n => (messageBytes E m n, snd (partBytes E (d_multiPart m) n))).
Proof.
  intros Hv Hok. unfold MimeMessage_writeToDev. rewrite Hv. cbn [negb].
  eapply renders_ext.
  - apply renders_check; [apply renders_write |].
    apply renders_check; [now apply MimePart_writeToDev_renders |].
    apply renders_check; [apply renders_write | apply renders_ret].
  - intros n. cbn [fst snd]. unfold messageBytes, dotTerminator.
    now rewrite app_nil_r.
Qed.

(** X11. The wire format. On a device that takes everything, a complete part
    arrives as one string: its headers (content type with name, charset and
    boundary where present, then the transfer encoding), a blank line and
    its folded content; a multipart of two parts or more draws one UUID for
    its boundary before its parts draw theirs, writes each part behind
    [--boundary] and closes with [--boundary--]. A valid message arrives as
    its header block, the part tree and the dot-terminator. *)
Theorem writeToDev_wire_format (E : Env) (st : WriterState) :
  accepting st ->
  (forall p : MimePart,
      partOk p = true ->
      fst (MimePart_writeToDev E p st) = true
      /\ dev_data (ws_dev (snd (MimePart_writeToDev E p st)))
         = dev_data (ws_dev st) ++ fst (partBytes E p (ws_uuids st))
      /\ ws_uuids (snd (MimePart_writeToDev E p st)) = snd (partBytes E p (ws_uuids st)))
  /\ (forall m : MimeMessage,
        MimeMessage_isValid E m = true -> partOk (d_multiPart m) = true ->
        fst (MimeMessage_writeToDev E m st) = true
        /\ dev_data (ws_dev (snd (MimeMessage_writeToDev E m st)))
           = dev_data (ws_dev st) ++ messageBytes E m (ws_uuids st)).
Proof.
  unfold accepting. intros Hst. split.
  - intros p Hok. pose proof (MimePart_writeToDev_renders E p Hok st) as H.
    cbn zeta in H. rewrite Hst in H. destruct H as (H1 & H2 & _ & H4). auto.
  - intros m Hv Hok. pose proof (MimeMessage_writeToDev_renders E m Hv Hok st) as H.
    cbn zeta in H. rewrite Hst in H. destruct H as (H1 & H2 & _). auto.
Qed.

Lemma writeToDev_wire_format_witness :
  dev_data (ws_dev (snd (MimePart_writeToDev sampleEnv sampleMixed emptyBuffer)))
  = fst (partBytes sampleEnv sampleMixed 0)
  /\ ws_uuids (snd (MimePart_writeToDev sampleEnv sampleMixed emptyBuffer)) = 1%nat
  /\ dev_data (ws_dev (snd (MimeMessage_writeToDev sampleEnv sampleMixedMessage emptyBuffer)))
     = messageBytes sampleEnv sampleMixedMessage 0.
Proof.
  destruct (writeToDev_wire_format sampleEnv emptyBuffer eq_refl) as (Hp & Hm).
  destruct (Hp sampleMixed eq_refl) as (_ & H2 & H3).
  destruct (Hm sampleMixedMessage) as (_ & H5); [vm_compute; reflexivity | reflexivity |].
  split; [exact H2 | split; [exact H3 | exact H5]].
Defined.



(** ** The body of a message and the parts added to it *)

(** X13. A message has one primary body at a time. After
    [setMessageBodyText] the text getter returns the text given and the HTML
    getter the empty string, and the other way round after
    [setMessageBodyHtml]; either setter replaces the body that was there,
    puts the new one first among the parts and leaves the parts that came in
    through [addMimePart] as they were and in their order; [addMimePart]
    appends behind them. *)
Theorem MimeMessage_body_and_parts (m : MimeMessage) (t : QString) (p : MimePart) :
  MimeMessage_built m ->
  messageBodyText (setMessageBodyText m t) = t
  /\ messageBodyHtml (setMessageBodyText m t) = []
  /\ messageBodyHtml (setMessageBodyHtml m t) = t
  /\ messageBodyText (setMessageBodyHtml m t) = []
  /\ parts (d_multiPart (setMessageBodyText m t))
     = (if isEmpty t then [] else [MimeText_new t]) ++ extraParts m
  /\ parts (d_multiPart (setMessageBodyHtml m t))
     = (if isEmpty t then [] else [MimeHtml_new t]) ++ extraParts m
  /\ extraParts (setMessageBodyText m t) = extraParts m
  /\ extraParts (setMessageBodyHtml m t) = extraParts m
  /\ extraParts (addMimePart m p) = extraParts m ++ [p].
Proof.
  intros Hb. destruct (MimeMessage_built_inv m Hb) as (ps & Hmp & Hbody).
  unfold setMessageBodyText, setMessageBodyHtml, addMimePart, dropBody, messageBodyText,
    messageBodyHtml, extraParts.
  destruct (d_messageBody m) as [body |] eqn:Hd.
  - destruct Hbody as (_ & rest & ->). rewrite Hmp.
    destruct t as [| c t]; cbn; repeat split; reflexivity.
  - rewrite Hmp. destruct t as [| c t]; cbn; rewrite ?Hd, ?Hmp; repeat split; reflexivity.
Qed.

Lemma MimeMessage_body_and_parts_witness :
  messageBodyText (setMessageBodyText sampleMixedMessage (qs "new")) = qs "new"
  /\ extraParts (setMessageBodyHtml sampleMixedMessage (qs "new")) = [sampleMixed].
Proof.
  assert (Hb : MimeMessage_built sampleMixedMessage).
  { apply built_part, built_text, built_subject, built_to, built_sender, built_new. }
  destruct (MimeMessage_body_and_parts sampleMixedMessage (qs "new") sampleMixed Hb)
    as (H1 & _ & _ & _ & _ & _ & _ & H8 & _).
  split; [exact H1 | exact H8].
Defined.

(** ** Logging: when repeated replacement is a single pass *)

Lemma markerAt_other (c : QChar) (s : QString) : c <> 37%N -> markerAt (c :: s) = None.
Proof.
  intros Hc. unfold markerAt.
  destruct c as [| q]; [reflexivity |].
  repeat (match goal with q : positive |- _ => destruct q end;
          try reflexivity; try congruence).
Qed.

Lemma startsWith_nil (s : QString) : startsWith s [] = true.
Proof. now destruct s. Qed.

Lemma number_digit (j : nat) :
  (j < 9)%nat -> number (Z.of_nat j + 1) = [N.of_nat (49 + j)].
Proof.
  intros Hj.
  do 9 (destruct j as [| j]; [reflexivity |]). lia.
Qed.

Lemma replace_from_app_noPercent (after b rest tail : QString) :
  noPercent b = true ->
  replace_from (37%N :: tail) after (b ++ rest) 0
  = b ++ replace_from (37%N :: tail) after rest 0.
Proof.
  induction b as [| c b IH]; intros Hb; [reflexivity |].
  cbn [noPercent forallb] in Hb. apply andb_true_iff in Hb as (Hc & Hb).
  apply negb_true_iff in Hc.
  cbn [app replace_from startsWith].
  replace (37 =? c)%N with false by (symmetry; rewrite N.eqb_sym; exact Hc).
  cbn [andb]. now rewrite (IH Hb).
Qed.

Lemma replace_arg_step (tpl a : QString) (done : list QString) :
  wellMarked tpl = true ->
  (length done < 9)%nat ->
  forallb noPercent done = true ->
  replace_from [37%N; N.of_nat (49 + length done)] a (arg_from tpl done 0) 0
  = arg_from tpl (done ++ [a]) 0.
Proof.
  intros Hw Hlen Hdone. revert Hw.
  induction tpl as [tpl IH] using list_length_ind. intros Hw.
  destruct tpl as [| c t']; [reflexivity |].
  cbn [wellMarked] in Hw.
  destruct (N.eqb_spec c 37) as [-> | Hc].
  - destruct t' as [| d t'']; [discriminate |].
    apply andb_true_iff in Hw as (Hd & Hw). apply andb_true_iff in Hd as (Hd1 & Hd2).
    apply N.leb_le in Hd1, Hd2.
    assert (Hd37 : d <> 37%N) by lia.
    assert (Hm : markerAt (@cons QChar 37%N (d :: t'')) = Some (N.to_nat (d - 48), t'')).
    { unfold markerAt.
      replace ((49 <=? d)%N && (d <=? 57)%N) with true; [reflexivity |].
      symmetry. apply andb_true_iff. split; now apply N.leb_le. }
    assert (IHt : replace_from [37%N; N.of_nat (49 + length done)] a (arg_from t'' done 0) 0
                  = arg_from t'' (done ++ [a]) 0).
    { apply IH; [cbn [length]; lia | exact Hw]. }
    cbn [arg_from]. rewrite Hm.
    destruct (nth_error done (N.to_nat (d - 48) - 1)) as [b |] eqn:Hnth.
    + rewrite (nth_error_app1 done [a]) by (apply nth_error_Some; congruence).
      rewrite Hnth. rewrite replace_from_app_noPercent, IHt; [reflexivity |].
      apply nth_error_In in Hnth.
      rewrite forallb_forall in Hdone. now apply Hdone.
    + apply nth_error_None in Hnth.
      rewrite (markerAt_other d t'') by exact Hd37.
      cbn [replace_from startsWith]. rewrite N.eqb_refl. cbn [andb].
      destruct (N.eqb_spec (N.of_nat (49 + length done)) d) as [Heq | Hne].
      * rewrite startsWith_nil. cbn [andb length Nat.sub]. rewrite IHt.
        rewrite (nth_error_app2 done [a]) by lia.
        replace (N.to_nat (d - 48) - 1 - length done)%nat with 0%nat by lia.
        reflexivity.
      * replace (37 =? d)%N with false by (symmetry; apply N.eqb_neq; congruence).
        cbn [andb]. rewrite IHt.
        assert (Hgt : (length (done ++ [a]) <= N.to_nat (d - 48) - 1)%nat).
        { rewrite length_app. cbn [length]. lia. }
        apply nth_error_None in Hgt. now rewrite Hgt.
  - assert (IHt : replace_from [37%N; N.of_nat (49 + length done)] a (arg_from t' done 0) 0
                  = arg_from t' (done ++ [a]) 0).
    { apply IH; [cbn [length]; lia | exact Hw]. }
    cbn [arg_from]. rewrite (markerAt_other c t') by exact Hc.
    cbn [replace_from startsWith].
    replace (37 =? c)%N with false by (symmetry; apply N.eqb_neq; congruence).
    cbn [andb]. now rewrite IHt.
Qed.

Lemma RTLogHandler_args_from (tpl : QString) (rest done : list QString) (h : RTLogHandler) :
  wellMarked tpl = true ->
  (length (done ++ rest) <= 9)%nat ->
  forallb noPercent (done ++ rest) = true ->
  log_msg h = arg tpl done ->
  log_index h = Z.of_nat (length done) ->
  log_msg (RTLogHandler_args h rest) = arg tpl (done ++ rest)
  /\ log_index (RTLogHandler_args h rest) = Z.of_nat (length (done ++ rest))
  /\ log_type (RTLogHandler_args h rest) = log_type h.
Proof.
  intros Hw. revert done h.
  induction rest as [| a rest IH]; intros done h Hlen Hall Hmsg Hidx.
  - rewrite app_nil_r. auto.
  - unfold RTLogHandler_args. cbn [fold_left].
    replace (done ++ a :: rest) with ((done ++ [a]) ++ rest) in *
      by (now rewrite <- app_assoc).
    rewrite !length_app in Hlen. cbn [length] in Hlen.
    rewrite !forallb_app in Hall. cbn [forallb] in Hall.
    apply andb_true_iff in Hall as (Hall1 & Hrest).
    apply andb_true_iff in Hall1 as (Hdone & Ha).
    destruct (IH (done ++ [a]) (RTLogHandler_arg h a)) as (H1 & H2 & H3).
    + rewrite !length_app. cbn [length]. lia.
    + rewrite !forallb_app. cbn [forallb]. now rewrite Hdone, Ha, Hrest.
    + unfold RTLogHandler_arg. cbn [log_msg]. rewrite Hmsg, Hidx.
      rewrite number_digit by lia. unfold replace, arg.
      apply replace_arg_step; [exact Hw | lia | exact Hdone].
    + unfold RTLogHandler_arg. cbn [log_index]. rewrite Hidx, length_app.
      cbn [length]. lia.
    + auto.
Qed.

(** X14. When every percent sign of the template begins a marker [%1] ..
    [%9], there are at most nine arguments and no argument has a percent
    sign, the replacements that [operator%] makes one after another give
    what a single pass over the template gives: marker [%k] becomes the k-th
    argument, a marker without an argument stays, and the index ends at the
    number of arguments. *)
Theorem RTLogHandler_args_single_pass (t : RTLogType) (tpl : QString) (args : list QString) :
  wellMarked tpl = true ->
  (length args <= 9)%nat ->
  forallb noPercent args = true ->
  RTLogHandler_emit (RTLogHandler_args (RTLogHandler_new t tpl) args)
  = {| rec_type := t; rec_msg := arg tpl args |}
  /\ log_index (RTLogHandler_args (RTLogHandler_new t tpl) args) = Z.of_nat (length args).
Proof.
  intros Hw Hlen Hall.
  destruct (RTLogHandler_args_from tpl args [] (RTLogHandler_new t tpl)) as (H1 & H2 & H3);
    try assumption.
  - cbn [RTLogHandler_new log_msg]. unfold arg.
    clear Hlen Hall. revert Hw.
    induction tpl as [tpl IH] using list_length_ind. intros Hw.
    destruct tpl as [| c t']; [reflexivity |].
    cbn [wellMarked] in Hw. cbn [arg_from].
    destruct (N.eqb_spec c 37) as [-> | Hc].
    + destruct t' as [| d t'']; [discriminate |].
      apply andb_true_iff in Hw as (Hd & Hw). apply andb_true_iff in Hd as (Hd1 & Hd2).
      apply N.leb_le in Hd1, Hd2.
      unfold markerAt. rewrite (proj2 (N.leb_le _ _) Hd1), (proj2 (N.leb_le _ _) Hd2).
      cbn [andb]. replace (nth_error [] (N.to_nat (d - 48) - 1)) with (@None QString)
        by (now destruct (N.to_nat (d - 48) - 1)%nat).
      cbn [arg_from]. rewrite (markerAt_other d t'') by lia.
      f_equal. f_equal. apply IH; [cbn [length]; lia | exact Hw].
    + rewrite (markerAt_other c t') by exact Hc. f_equal.
      apply IH; [cbn [length]; lia | exact Hw].
  - reflexivity.
  - cbn [app] in *. unfold RTLogHandler_emit. rewrite H1, H3. auto.
Qed.

Lemma RTLogHandler_args_single_pass_witness :
  RTLogHandler_emit
    (RTLogHandler_args (RTLogHandler_new Debug (qs "log-traffic > %1: %2"))
                       [qs "C"; qs "EHLO localhost"])
  = {| rec_type := Debug; rec_msg := qs "log-traffic > C: EHLO localhost" |}.
Proof.
  exact (proj1 (RTLogHandler_args_single_pass Debug (qs "log-traffic > %1: %2")
                  [qs "C"; qs "EHLO localhost"] eq_refl
                  (le_S _ _ (le_S _ _ (le_S _ _ (le_S _ _ (le_S _ _ (le_S _ _ (le_S _ _ (le_n 2))))))))
                  eq_refl)).
Defined.

(** ** ScopedPtrList: moving items between two lists *)

Lemma importLoop_firstn {A} (n : nat) (d other : list A) :
  ScopedPtrList.importLoop n d other = (d ++ firstn n other, skipn n other).
Proof.
  revert d other. induction n as [| n IH]; intros d other.
  - cbn. now rewrite app_nil_r.
  - destruct other as [| x other]; cbn [ScopedPtrList.importLoop ScopedPtrList.takeFirst].
    + cbn. now rewrite app_nil_r.
    + rewrite IH. unfold ScopedPtrList.append. cbn [firstn skipn].
      now rewrite <- app_assoc.
Qed.

Lemma setList_same {A} (h : nat -> list A) (p : nat) (d : list A) :
  ScopedPtrList.setList h p d p = d.
Proof. unfold ScopedPtrList.setList. now rewrite Nat.eqb_refl. Qed.

Lemma setList_other {A} (h : nat -> list A) (p q : nat) (d : list A) :
  q <> p -> ScopedPtrList.setList h p d q = h q.
Proof.
  intros Hq. unfold ScopedPtrList.setList.
  now replace (q =? p)%nat with false by (symmetry; now apply Nat.eqb_neq).
Qed.

(** Between two different lists both functions move the first
    [movedCount] items. *)
Lemma ScopedPtrList_moves {A} (h : nat -> list A) (this other : nat) (upTo : Z) :
  this <> other ->
  (ScopedPtrList.appendFrom h this other upTo this
   = h this ++ firstn (movedCount (h other) upTo) (h other)
   /\ ScopedPtrList.appendFrom h this other upTo other
      = skipn (movedCount (h other) upTo) (h other)
   /\ forall p, p <> this -> p <> other ->
                ScopedPtrList.appendFrom h this other upTo p = h p)
  /\ (ScopedPtrList.prependFrom h this other upTo this
      = firstn (movedCount (h other) upTo) (h other) ++ h this
      /\ ScopedPtrList.prependFrom h this other upTo other
         = skipn (movedCount (h other) upTo) (h other)
      /\ forall p, p <> this -> p <> other ->
                   ScopedPtrList.prependFrom h this other upTo p = h p).
Proof.
  intros Hdiff.
  assert (Hdiff' : other <> this) by congruence.
  unfold ScopedPtrList.appendFrom, ScopedPtrList.prependFrom, ScopedPtrList.swap,
    movedCount.
  replace (this =? other)%nat with false by (symmetry; now apply Nat.eqb_neq).
  rewrite !orb_false_r.
  destruct (Z.eqb_spec upTo 0) as [-> | Hz]; cbn [orb].
  { cbn. rewrite app_nil_r. repeat split; reflexivity. }
  destruct (h other) as [| x o] eqn:Ho; cbn [isEmpty].
  { rewrite !firstn_nil, !skipn_nil, app_nil_r, Ho.
    destruct (upTo <? 0); repeat split; reflexivity. }
  assert (Hall : h this ++ firstn (length (x :: o)) (x :: o) = h this ++ x :: o
                 /\ firstn (length (x :: o)) (x :: o) ++ h this = (x :: o) ++ h this
                 /\ skipn (length (x :: o)) (x :: o) = []).
  { now rewrite firstn_all, skipn_all. }
  destruct Hall as (Hall1 & Hall2 & Hall3).
  assert (Hwhole :
            (upTo <? 0) || (upTo >=? size (x :: o)) = true ->
            (if upTo <? 0 then length (x :: o)
             else Nat.min (Z.to_nat upTo) (length (x :: o))) = length (x :: o)).
  { intros H. destruct (Z.ltb_spec upTo 0); [reflexivity |]. cbn [orb] in H.
    rewrite Z.geb_leb in H. apply Z.leb_le in H. unfold size in H. lia. }
  destruct ((upTo <? 0) || (upTo >=? size (x :: o))) eqn:Hw.
  - rewrite (Hwhole eq_refl), Hall1, Hall2, Hall3.
    destruct (h this) as [| y d] eqn:Hd; cbn [isEmpty].
    + rewrite !setList_same, !(setList_other _ other this) by exact Hdiff.
      rewrite !setList_same, ?Ho, ?Hd, ?app_nil_r.
      repeat split; try reflexivity;
        intros p Hp1 Hp2; now rewrite !setList_other by assumption.
    + rewrite !setList_same, !(setList_other _ other this) by exact Hdiff.
      rewrite !setList_same, ?(setList_other _ this other) by exact Hdiff'.
      rewrite ?setList_same, ?Ho, ?Hd.
      repeat split; try reflexivity;
        intros p Hp1 Hp2; now rewrite !setList_other by assumption.
  - apply orb_false_iff in Hw as (Hneg & Hge).
    rewrite Hneg. rewrite Z.geb_leb in Hge. apply Z.leb_gt in Hge.
    apply Z.ltb_ge in Hneg. unfold size in Hge |- *.
    replace (Z.to_nat (Z.min (Z.of_nat (length (x :: o))) upTo))
      with (Nat.min (Z.to_nat upTo) (length (x :: o))) by lia.
    cbn zeta. rewrite !importLoop_firstn. cbn [fst snd app].
    rewrite !setList_same, !(setList_other _ other this) by exact Hdiff.
    rewrite !setList_same, ?(setList_other _ this other) by exact Hdiff'.
    rewrite ?setList_same.
    repeat split; try reflexivity;
      intros p Hp1 Hp2; now rewrite !setList_other by assumption.
Qed.

(** X15. [appendFrom] and [prependFrom], called on two different lists, move
    a prefix of the other list: the first [upTo] items, or all of them when
    [upTo] is negative or not below the size. The items moved keep their
    order and land behind, respectively in front of, the items of this
    list; the other list keeps the rest; every third list is untouched; no
    item is lost or duplicated, whichever of the three branches of the code
    runs. Called with a list as its own source ([this == &other]) both
    return at once and change nothing. [appendTo] and [prependTo] are the
    same with the roles of the two lists exchanged. *)
Theorem ScopedPtrList_moves_prefix {A} (h : nat -> list A) (this other : nat) (upTo : Z) :
  this <> other ->
  let k := movedCount (h other) upTo in
  (ScopedPtrList.appendFrom h this other upTo this = h this ++ firstn k (h other)
   /\ ScopedPtrList.appendFrom h this other upTo other = skipn k (h other)
   /\ forall p, p <> this -> p <> other ->
                ScopedPtrList.appendFrom h this other upTo p = h p)
  /\ (ScopedPtrList.prependFrom h this other upTo this = firstn k (h other) ++ h this
      /\ ScopedPtrList.prependFrom h this other upTo other = skipn k (h other)
      /\ forall p, p <> this -> p <> other ->
                   ScopedPtrList.prependFrom h this other upTo p = h p)
  /\ (length (ScopedPtrList.appendFrom h this other upTo this)
      + length (ScopedPtrList.appendFrom h this other upTo other)
      = length (h this) + length (h other))%nat
  /\ ScopedPtrList.appendFrom h this this upTo = h
  /\ ScopedPtrList.prependFrom h this this upTo = h
  /\ ScopedPtrList.appendTo h other this upTo = ScopedPtrList.appendFrom h this other upTo
  /\ ScopedPtrList.prependTo h other this upTo = ScopedPtrList.prependFrom h this other upTo.
Proof.
  intros Hdiff. cbn zeta.
  destruct (ScopedPtrList_moves h this other upTo Hdiff) as ((A1 & A2 & A3) & P).
  split; [auto |]. split; [exact P |]. split.
  { rewrite A1, A2, length_app, length_firstn, length_skipn. lia. }
  unfold ScopedPtrList.appendFrom, ScopedPtrList.prependFrom.
  rewrite Nat.eqb_refl, !orb_true_r. auto.
Qed.

Lemma ScopedPtrList_moves_prefix_witness :
  ScopedPtrList.appendFrom sampleLists 0 1 2 0%nat = [1; 2; 3; 4]%nat
  /\ ScopedPtrList.appendFrom sampleLists 0 1 2 1%nat = [5]%nat
  /\ ScopedPtrList.prependFrom sampleLists 0 1 (-1) 0%nat = [3; 4; 5; 1; 2]%nat
  /\ ScopedPtrList.appendFrom sampleLists 1 1 2 1%nat = [3; 4; 5]%nat.
Proof.
  assert (Hdiff : 0%nat <> 1%nat) by discriminate.
  destruct (ScopedPtrList_moves_prefix sampleLists 0 1 2 Hdiff)
    as ((A1 & A2 & _) & _ & _ & _ & _).
  destruct (ScopedPtrList_moves_prefix sampleLists 0 1 (-1) Hdiff)
    as (_ & (P1 & _) & _).
  destruct (ScopedPtrList_moves_prefix sampleLists 1 0 2 (not_eq_sym Hdiff))
    as (_ & _ & _ & S1 & _).
  split; [exact A1 | split; [exact A2 | split; [exact P1 |]]].
  now rewrite S1.
Defined.

(** ** The driver: configuration, status and the commands on the wire *)

Lemma quietStep_refl (w : World) : quietStep w w.
Proof. unfold quietStep. tauto. Qed.

Lemma quietStep_trans (w1 w2 w3 : World) :
  quietStep w1 w2 -> quietStep w2 w3 -> quietStep w1 w3.
Proof.
  unfold quietStep. intros (A1 & A2 & A3 & A4) (B1 & B2 & B3 & B4).
  repeat split; try congruence; tauto.
Qed.

Lemma quietly_ret {A} (a : A) : quietly (ret a).
Proof. intros w. apply quietStep_refl. Qed.

Lemma quietly_bind {A B} (c : ST World A) (k : A -> ST World B) :
  quietly c -> (forall a, quietly (k a)) -> quietly (bind c k).
Proof.
  intros Hc Hk w. unfold bind. eapply quietStep_trans; [apply Hc | apply Hk].
Qed.

Lemma quietly_getD : quietly getD.
Proof. intros w. apply quietStep_refl. Qed.

Lemma quietly_logRecord (r : LogRecord) : quietly (logRecord r).
Proof. intros w. unfold quietStep. cbn. tauto. Qed.

Lemma quietly_onSocket {A} (op : QTcpSocket -> A * QTcpSocket) (dflt : A) :
  (forall sk, sk_written (snd (op sk)) = sk_written sk) -> quietly (onSocket op dflt).
Proof.
  intros Hop w. unfold quietStep, onSocket, written.
  destruct (socket (w_d w)) as [sk |] eqn:Hsk; cbn; rewrite ?Hsk.
  - repeat split; try reflexivity; try apply Hop; discriminate.
  - tauto.
Qed.

Create HintDb quiet.

#[local] Hint Resolve quietly_getD quietly_logRecord : quiet.

Ltac quiet_step :=
  first
    [ solve [auto with quiet]
    | apply quietly_ret
    | apply quietly_onSocket; reflexivity
    | match goal with
      | |- quietly (if ?b then _ else _) => destruct b
      | |- quietly (match ?x with Some _ => _ | None => _ end) => destruct x
      end
    | apply quietly_bind; [| intros ?] ].

Ltac quiet := repeat quiet_step.

Lemma quietly_pn_fail (err : QString) : quietly (pn_fail err).
Proof. unfold pn_fail. quiet. Qed.

Lemma quietly_pn_logTraffic (E : Env) (who msg : QByteArray) :
  quietly (pn_logTraffic E who msg).
Proof. unfold pn_logTraffic. quiet. Qed.

#[local] Hint Resolve quietly_pn_fail quietly_pn_logTraffic : quiet.

Lemma quietly_drainLines (E : Env) (buffered : list QByteArray) :
  quietly (drainLines E buffered).
Proof.
  induction buffered as [| l buffered IH]; cbn [drainLines]; unfold readLine; quiet.
Qed.

#[local] Hint Resolve quietly_drainLines : quiet.

Lemma quietly_pn_isAllowedToSend (E : Env) : quietly (pn_isAllowedToSend E).
Proof. unfold pn_isAllowedToSend, canReadLine, readBuffer. quiet. Qed.

Lemma quietly_readReplyLines (E : Env) (expectedCode : QByteArray)
  (buffered : list QByteArray) :
  quietly (readReplyLines E expectedCode buffered).
Proof.
  induction buffered as [| l buffered IH]; cbn [readReplyLines]; unfold readLine; quiet.
Qed.

#[local] Hint Resolve quietly_pn_isAllowedToSend quietly_readReplyLines : quiet.

Lemma quietly_waitForReply (E : Env) (expectedCode : QByteArray) (peer : list PeerEvent) :
  quietly (waitForReply E expectedCode peer).
Proof.
  induction peer as [| ev peer IH]; cbn [waitForReply]; unfold readBuffer; quiet.
Qed.

#[local] Hint Resolve quietly_waitForReply : quiet.

Lemma quietly_pn_waitForResponse (E : Env) (expectedCode : QByteArray) :
  quietly (pn_waitForResponse E expectedCode).
Proof. unfold pn_waitForResponse, peerScript. quiet. Qed.

#[local] Hint Resolve quietly_pn_waitForResponse : quiet.

Lemma quietStep_wireData (w w' : World) : quietStep w w' -> wireData w' = wireData w.
Proof. unfold wireData. now intros (_ & _ & -> & _). Qed.

Lemma sendsTo_weaken (S : Status -> Status -> Prop) (c : ST World bool)
      (P Q : list QByteArray -> Prop) :
  sendsTo S c P -> (forall out, P out -> Q out) -> sendsTo S c Q.
Proof.
  intros Hc HPQ w Hsk. destruct (Hc w Hsk) as (H1 & H2 & out & H3 & H4).
  split; [exact H1 | split; [exact H2 |]]. exists out. split; [exact H3 |].
  destruct (fst (c w)); [| exact H4]. destruct H4 as (H4 & H5). auto.
Qed.

(** A quiet step that yields a boolean. *)
Lemma sendsTo_quietly (c : ST World bool) : quietly c -> sendsTo eq c (eq []).
Proof.
  intros Hc w Hsk. destruct (Hc w) as (H1 & H2 & H3 & H4).
  split; [exact H1 | split; [tauto |]]. exists [].
  split; [rewrite app_nil_r; unfold wireData; now rewrite H3 |].
  destruct (fst (c w)); auto.
Qed.

Lemma sendsTo_quietly_bind {A} (S : Status -> Status -> Prop) (c : ST World A)
      (k : A -> ST World bool) (P : list QByteArray -> Prop) :
  quietly c -> (forall a, sendsTo S (k a) P) -> sendsTo S (bind c k) P.
Proof.
  intros Hc Hk w Hsk. unfold bind.
  pose proof (Hc w) as Hq. pose proof (quietStep_wireData _ _ Hq) as Hwire.
  destruct Hq as (H1 & H2 & H3 & H4).
  destruct (Hk (fst (c w)) (snd (c w))) as (K1 & K2 & out & K3 & K4); [tauto |].
  split; [congruence | split; [exact K2 |]]. exists out.
  rewrite <- Hwire, <- H2. auto.
Qed.

Lemma sendsTo_check (S : Status -> Status -> Prop) (c k : ST World bool)
      (P Q : list QByteArray -> Prop) :
  sendsTo eq c P -> sendsTo S k Q -> sendsTo S (check c ;; k) (thenP P Q).
Proof.
  intros Hc Hk w Hsk. unfold bind.
  destruct (Hc w Hsk) as (H1 & H2 & o1 & H3 & H4).
  destruct (fst (c w)).
  - destruct H4 as (H4 & H5).
    destruct (Hk (snd (c w)) H2) as (K1 & K2 & o2 & K3 & K4).
    split; [congruence | split; [exact K2 |]]. exists (o1 ++ o2).
    split; [now rewrite K3, H3, app_assoc |].
    rewrite H4. destruct (fst (k (snd (c w)))).
    + destruct K4 as (K4 & K5). split; [exact K4 |]. now exists o1, o2.
    + exact K4.
  - cbn [ret fst snd]. split; [exact H1 | split; [exact H2 |]]. now exists o1.
Qed.

(** [unless c fail f ;; k], for a failure handler that never yields true. *)
Lemma sendsTo_unless (S : Status -> Status -> Prop) (c f k : ST World bool)
      (P Q : list QByteArray -> Prop) :
  sendsTo eq c P -> sendsTo eq f (fun _ => False) -> sendsTo S k Q ->
  sendsTo S (unless c fail f ;; k) (thenP P Q).
Proof.
  intros Hc Hf Hk w Hsk. unfold bind.
  destruct (Hc w Hsk) as (H1 & H2 & o1 & H3 & H4).
  destruct (fst (c w)).
  - destruct H4 as (H4 & H5).
    destruct (Hk (snd (c w)) H2) as (K1 & K2 & o2 & K3 & K4).
    split; [congruence | split; [exact K2 |]]. exists (o1 ++ o2).
    split; [now rewrite K3, H3, app_assoc |].
    rewrite H4. destruct (fst (k (snd (c w)))).
    + destruct K4 as (K4 & K5). split; [exact K4 |]. now exists o1, o2.
    + exact K4.
  - destruct (Hf (snd (c w)) H2) as (K1 & K2 & o2 & K3 & K4).
    split; [congruence | split; [exact K2 |]]. exists (o1 ++ o2).
    split; [now rewrite K3, H3, app_assoc |].
    destruct (fst (f (snd (c w)))); [tauto |].
    destruct H4 as [H4 | H4], K4 as [K4 | K4]; rewrite ?K4, ?H4; auto.
Qed.

Lemma sendsTo_ret (b : bool) : sendsTo eq (ret b) (eq []).
Proof. apply sendsTo_quietly, quietly_ret. Qed.

Lemma sendsTo_never (S : Status -> Status -> Prop) (c : ST World bool)
      (P : list QByteArray -> Prop) :
  sendsTo eq c (fun _ => False) -> sendsTo S c P.
Proof.
  intros Hc w Hsk. destruct (Hc w Hsk) as (H1 & H2 & out & H3 & H4).
  split; [exact H1 | split; [exact H2 |]]. exists out. split; [exact H3 |].
  destruct (fst (c w)); [tauto | exact H4].
Qed.

Lemma sendsTo_pn_closeAndFail : sendsTo eq pn_closeAndFail (fun _ => False).
Proof.
  intros w Hsk. unfold pn_closeAndFail, bind, modifyD, socketClose, onSocket, wireData,
    written.
  cbn [fst snd ret w_setD w_d]. cbn [set_status socket].
  destruct (socket (w_d w)) as [sk |] eqn:Hs; [| congruence].
  cbn. split; [reflexivity | split; [discriminate |]].
  exists []. rewrite app_nil_r. auto.
Qed.

Lemma sendsTo_pn_fail_closeAndFail (err : QString) :
  sendsTo eq (pn_fail err ;; pn_closeAndFail) (fun _ => False).
Proof.
  apply sendsTo_quietly_bind; [apply quietly_pn_fail | intros _].
  apply sendsTo_pn_closeAndFail.
Qed.

Lemma sendsTo_socketWrite (data : QByteArray) :
  sendsTo eq (socketWrite data ;; ret true) (eq [data]).
Proof.
  intros w Hsk. unfold bind, socketWrite, onSocket, wireData, written.
  destruct (socket (w_d w)) as [sk |] eqn:Hs; [| congruence].
  cbn. split; [reflexivity | split; [discriminate |]].
  exists [data]. rewrite map_app. cbn. auto.
Qed.

Lemma sendsTo_pn_sendMessage (E : Env) (data : QByteArray) :
  sendsTo eq (pn_sendMessage E data) (eq [data ++ CRLF]).
Proof.
  unfold pn_sendMessage. eapply sendsTo_weaken.
  - apply sendsTo_check; [apply sendsTo_quietly, quietly_pn_isAllowedToSend |].
    apply sendsTo_quietly_bind; [apply quietly_pn_logTraffic | intros _].
    apply sendsTo_socketWrite.
  - intros out (o1 & o2 & -> & <- & <-). reflexivity.
Qed.

Lemma sendsTo_pn_sendAndWaitFor (E : Env) (dataToSend expectedResCode : QByteArray) :
  sendsTo eq (pn_sendAndWaitFor E dataToSend expectedResCode) (eq [dataToSend ++ CRLF]).
Proof.
  unfold pn_sendAndWaitFor. eapply sendsTo_weaken.
  - apply sendsTo_check; [apply sendsTo_pn_sendMessage |].
    apply sendsTo_quietly_bind; [apply quietly_pn_waitForResponse | intros r].
    apply sendsTo_ret.
  - intros out (o1 & o2 & -> & <- & <-). reflexivity.
Qed.

Lemma sendsTo_ext (S : Status -> Status -> Prop) (c c' : ST World bool)
      (P : list QByteArray -> Prop) :
  (forall w, c w = c' w) -> sendsTo S c P -> sendsTo S c' P.
Proof. intros Heq Hc w Hsk. rewrite <- Heq. exact (Hc w Hsk). Qed.

Lemma sendsTo_pn_fail (err : QString) : sendsTo eq (pn_fail err) (fun _ => False).
Proof.
  intros w Hsk. pose proof (quietly_pn_fail err w) as Hq.
  pose proof (quietStep_wireData _ _ Hq) as Hwire. destruct Hq as (H1 & H2 & H3 & H4).
  split; [exact H1 | split; [tauto |]]. exists [].
  rewrite app_nil_r. split; [exact Hwire |]. cbn. auto.
Qed.

Lemma arg_mail_from (x : QString) :
  arg (qs "MAIL FROM:<%1>") [x] = qs "MAIL FROM:<" ++ x ++ qs ">".
Proof. unfold arg. simpl. reflexivity. Qed.

Lemma arg_rcpt_to (x : QString) :
  arg (qs "RCPT TO:<%1>") [x] = qs "RCPT TO:<" ++ x ++ qs ">".
Proof. unfold arg. simpl. reflexivity. Qed.

Lemma sendsTo_sendRecipients (E : Env) (recipients : list EmailAddress) :
  sendsTo eq (sendRecipients E recipients) (eq (map rcptToCommand recipients)).
Proof.
  induction recipients as [| to recipients IH]; cbn [sendRecipients map].
  - apply sendsTo_ret.
  - eapply sendsTo_weaken.
    + apply sendsTo_unless;
        [apply sendsTo_pn_sendAndWaitFor | apply sendsTo_pn_closeAndFail | exact IH].
    + intros out (o1 & o2 & -> & <- & <-). rewrite arg_rcpt_to. reflexivity.
Qed.

Lemma sendsTo_pn_sendMimeMessage (E : Env) (msg : MimeMessage) :
  sendsTo eq (pn_sendMimeMessage E msg)
          (fun out => exists data, out = [data] /\ serialisationOf E msg data).
Proof.
  unfold pn_sendMimeMessage. eapply sendsTo_weaken.
  - apply sendsTo_check; [apply sendsTo_quietly, quietly_pn_isAllowedToSend |].
    instantiate (1 := fun out => exists data, out = [data] /\ serialisationOf E msg data).
    intros w Hsk. unfold bind. cbn beta zeta.
    set (r := writeToBuffer E msg w).
    assert (Hd : w_d (snd r) = w_d w) by reflexivity.
    destruct (fst (fst r)) eqn:Hok; cbn [negb].
    + assert (Hstep : sendsTo eq (pn_logTraffic E (ba "C") (toBase64 (snd (fst r))) ;;
                                  socketWrite (snd (fst r)) ;; ret true)
                              (eq [snd (fst r)])).
      { apply sendsTo_quietly_bind; [apply quietly_pn_logTraffic | intros _].
        apply sendsTo_socketWrite. }
      destruct (Hstep (snd r)) as (K1 & K2 & out & K3 & K4); [now rewrite Hd |].
      unfold bind in K1, K2, K3, K4. cbn [ret fst snd] in K1, K2, K3, K4 |- *.
      rewrite Hd in K1, K4. unfold wireData, written in K3 |- *. rewrite Hd in K3.
      destruct K4 as (K4 & <-).
      split; [exact K1 | split; [exact K2 |]]. exists [snd (fst r)]. split; [exact K3 |].
      split; [exact K4 |]. exists (snd (fst r)). split; [reflexivity |].
      exists (w_uuids w). cbn zeta. split; [exact Hok | reflexivity].
    + cbn [ret fst snd]. rewrite Hd. split; [reflexivity | split; [exact Hsk |]].
      exists []. rewrite app_nil_r. unfold wireData, written. rewrite Hd. auto.
  - intros out (o1 & o2 & -> & <- & data & -> & Hdata). now exists data.
Qed.

Lemma sendsTo_submitMessage (E : Env) (msg : MimeMessage) :
  sendsTo eq (submitMessage E msg)
    (fun out => exists data,
         serialisationOf E msg data
         /\ out = mailFromCommand (d_senderAddress msg)
                  :: map rcptToCommand (d_toAddresses msg ++ d_ccAddresses msg)
                  ++ [ba "DATA" ++ CRLF; data]).
Proof.
  unfold submitMessage. eapply sendsTo_weaken.
  - apply sendsTo_unless;
      [apply sendsTo_pn_sendAndWaitFor | apply sendsTo_pn_closeAndFail |].
    apply sendsTo_check; [apply sendsTo_sendRecipients |].
    apply sendsTo_check; [apply sendsTo_sendRecipients |].
    apply sendsTo_unless;
      [apply sendsTo_pn_sendAndWaitFor | apply sendsTo_pn_closeAndFail |].
    eapply sendsTo_ext;
      [| apply (sendsTo_unless eq (pn_sendMimeMessage E msg)
                  (pn_fail (qs "unexpected error, unable to write msg to socket") ;;
                   pn_closeAndFail)
                  (ack <- pn_waitForResponse E (ba "250") ;;
                   if negb (fst ack) then pn_closeAndFail else ret true));
         [apply sendsTo_pn_sendMimeMessage
         | apply sendsTo_pn_fail_closeAndFail
         | apply sendsTo_quietly_bind; [apply quietly_pn_waitForResponse | intros ack];
           destruct (negb (fst ack));
           [apply sendsTo_never, sendsTo_pn_closeAndFail | apply sendsTo_ret]]].
    intros w. unfold bind. cbn beta.
    destruct (fst (pn_sendMimeMessage E msg w)); reflexivity.
  - intros out (o1 & o2 & -> & <- & o3 & o4 & -> & <- & o5 & o6 & -> & <- & o7 & o8
                & -> & <- & o9 & o10 & -> & (data & -> & Hdata) & <-).
    exists data. split; [exact Hdata |]. rewrite arg_mail_from, map_app.
    cbn [app]. unfold mailFromCommand. f_equal. rewrite <- !app_assoc. reflexivity.
Qed.

(** X16. A successful [sendMessage]. When [sendMessage] returns true the
    message is valid, the client was Connected and still is, its
    configuration is untouched, and what went on the wire is exactly: MAIL
    FROM with the sender's address, one RCPT TO for each To recipient and
    then for each Cc recipient in their order, DATA, and one string that is
    a serialisation of the message. The names of the addresses, the
    Reply-To address and the subject reach the wire only inside that
    string. *)
Theorem sendMessage_success_trace (E : Env) (msg : MimeMessage) (w : World) :
  socket (w_d w) <> None ->
  fst (sendMessage E msg w) = true ->
  MimeMessage_isValid E msg = true
  /\ status (w_d w) = ST_Connected
  /\ status (w_d (snd (sendMessage E msg w))) = ST_Connected
  /\ configOf (w_d (snd (sendMessage E msg w))) = configOf (w_d w)
  /\ exists data,
       serialisationOf E msg data
       /\ wireData (snd (sendMessage E msg w))
          = wireData w
            ++ mailFromCommand (d_senderAddress msg)
            :: map rcptToCommand (d_toAddresses msg ++ d_ccAddresses msg)
            ++ [ba "DATA" ++ CRLF; data].
Proof.
  intros Hsk. rewrite sendMessage_run.
  destruct (MimeMessage_isValid E msg); cbn [negb]; [| discriminate].
  destruct (status (w_d w)) eqn:Hst; cbn [Status_eqb negb]; [discriminate |].
  intros Hres.
  destruct (sendsTo_submitMessage E msg w Hsk) as (H1 & H2 & out & H3 & H4).
  rewrite Hres in H4. destruct H4 as (H4 & data & Hdata & ->).
  rewrite <- H4, Hst. repeat split; try assumption.
  exists data. split; [exact Hdata | exact H3].
Qed.

Lemma sendMessage_success_trace_witness :
  status (w_d (snd (sendMessage sampleEnv sampleMessage (connectedWorld happyPeer))))
  = ST_Connected.
Proof.
  assert (Hsk : socket (w_d (connectedWorld happyPeer)) <> None)
    by (vm_compute; discriminate).
  assert (Hres : fst (sendMessage sampleEnv sampleMessage (connectedWorld happyPeer)) = true)
    by (vm_compute; reflexivity).
  exact (proj1 (proj2 (proj2
           (sendMessage_success_trace sampleEnv sampleMessage (connectedWorld happyPeer)
              Hsk Hres)))).
Defined.

Lemma sendsTo_upgradeToTls (E : Env) (d : PrivateData) :
  sendsTo eq (upgradeToTls E d) (eq (tlsCommands d)).
Proof.
  unfold upgradeToTls, tlsCommands.
  destruct (ConnectionType_eqb (connectionType d) TlsConnection); [| apply sendsTo_ret].
  eapply sendsTo_weaken.
  - apply sendsTo_unless;
      [apply sendsTo_pn_sendAndWaitFor | apply sendsTo_pn_closeAndFail |].
    apply sendsTo_quietly_bind; [apply quietly_onSocket; reflexivity | intros encrypted].
    instantiate (1 := eq [ehloCommand d]).
    destruct (negb encrypted).
    + apply sendsTo_never.
      apply sendsTo_quietly_bind; [apply quietly_onSocket; reflexivity | intros err].
      apply sendsTo_pn_fail_closeAndFail.
    + eapply sendsTo_weaken.
      * apply sendsTo_unless;
          [apply sendsTo_pn_sendAndWaitFor | apply sendsTo_pn_closeAndFail
          | apply sendsTo_ret].
      * intros out (o1 & o2 & -> & <- & <-). unfold ehloCommand.
        now rewrite <- !app_assoc.
  - intros out (o1 & o2 & -> & <- & <-). reflexivity.
Qed.

Lemma sendsTo_authenticate (E : Env) (d : PrivateData) :
  sendsTo eq (authenticate E d) (authCommands E d).
Proof.
  unfold authenticate, authCommands.
  destruct (authMethod d); cbn [AuthMethod_eqb].
  - eapply sendsTo_weaken; [apply sendsTo_ret | now intros out <-].
  - eapply sendsTo_weaken.
    + apply sendsTo_unless;
        [apply sendsTo_pn_sendAndWaitFor | apply sendsTo_pn_closeAndFail
        | apply sendsTo_ret].
    + intros out (o1 & o2 & -> & <- & <-). now rewrite <- !app_assoc.
  - eapply sendsTo_weaken.
    + apply sendsTo_unless;
        [apply sendsTo_pn_sendAndWaitFor | apply sendsTo_pn_closeAndFail |].
      apply sendsTo_unless;
        [apply sendsTo_pn_sendAndWaitFor | apply sendsTo_pn_closeAndFail |].
      apply sendsTo_unless;
        [apply sendsTo_pn_sendAndWaitFor | apply sendsTo_pn_closeAndFail
        | apply sendsTo_ret].
    + intros out (o1 & o2 & -> & <- & o3 & o4 & -> & <- & o5 & o6 & -> & <- & <-).
      reflexivity.
  - eapply sendsTo_weaken.
    + apply sendsTo_unless;
        [apply sendsTo_pn_sendMessage | apply sendsTo_pn_closeAndFail |].
      apply sendsTo_quietly_bind; [apply quietly_pn_waitForResponse | intros challenge].
      instantiate
        (1 := fun out => exists body,
                  out = [toBase64 (toLatin1 (accountUsername d) ++ ba " "
                                     ++ toHex (hmac_md5 E (toLatin1 (accountPassword d))
                                                  (fromBase64 E body)))
                           ++ CRLF]).
      destruct (negb (fst challenge)).
      * apply sendsTo_never, sendsTo_pn_closeAndFail.
      * eapply sendsTo_weaken.
        -- apply sendsTo_unless;
             [apply sendsTo_pn_sendAndWaitFor | apply sendsTo_pn_closeAndFail
             | apply sendsTo_ret].
        -- intros out (o1 & o2 & -> & <- & <-). now exists (snd challenge).
    + intros out (o1 & o2 & -> & <- & body & ->). now exists body.
Qed.

Lemma sendsTo_connected : sendsTo becomesConnected
                            (modifyD (fun d => set_status d ST_Connected) ;; ret true)
                            (eq []).
Proof.
  intros w Hsk. unfold bind, modifyD, wireData, written. cbn.
  split; [reflexivity | split; [exact Hsk |]]. exists [].
  rewrite app_nil_r. unfold becomesConnected. auto.
Qed.

(** [connectToServer] behind its five checks. *)
Lemma sendsTo_connect_body (E : Env) (d : PrivateData) :
  sendsTo becomesConnected
    (connected <- onSocket sk_waitForConnected false ;;
     if negb connected then
       err <- errorString ;;
       pn_fail (arg (qs "unable to connect, connection timeout with error: %1") [err])
     else
       greeting <- pn_waitForResponse E (ba "220") ;;
       if negb (fst greeting) then pn_closeAndFail
       else
         unless pn_sendAndWaitFor E (ba "EHLO " ++ toLatin1 (clientHost d)) (ba "250")
           fail pn_closeAndFail ;;
         check upgradeToTls E d ;;
         check authenticate E d ;;
         modifyD (fun d => set_status d ST_Connected) ;;
         ret true)
    (fun out => exists authOut,
         authCommands E d authOut
         /\ out = ehloCommand d :: tlsCommands d ++ authOut).
Proof.
  apply sendsTo_quietly_bind; [apply quietly_onSocket; reflexivity | intros connected].
  destruct (negb connected).
  - apply sendsTo_never.
    apply sendsTo_quietly_bind; [apply quietly_onSocket; reflexivity | intros err].
    apply sendsTo_pn_fail.
  - apply sendsTo_quietly_bind; [apply quietly_pn_waitForResponse | intros greeting].
    destruct (negb (fst greeting)); [apply sendsTo_never, sendsTo_pn_closeAndFail |].
    eapply sendsTo_weaken.
    + apply sendsTo_unless;
        [apply sendsTo_pn_sendAndWaitFor | apply sendsTo_pn_closeAndFail |].
      apply sendsTo_check; [apply sendsTo_upgradeToTls |].
      apply sendsTo_check; [apply sendsTo_authenticate | apply sendsTo_connected].
    + intros out (o1 & o2 & -> & <- & o3 & o4 & -> & <- & o5 & o6 & -> & Hauth & <-).
      exists o5. split; [exact Hauth |]. unfold ehloCommand.
      rewrite app_nil_r, <- !app_assoc. reflexivity.
Qed.

Lemma connectToServer_not_ready (E : Env) (w : World) :
  notReadyToConnect (w_d w) = true ->
  exists err, connectToServer E w = pn_fail err w.
Proof.
  unfold notReadyToConnect, connectToServer, bind, getD. cbn [fst snd].
  destruct (negb (Status_eqb (status (w_d w)) ST_Disconnected));
    [intros _; eexists; reflexivity |].
  destruct (socket (w_d w)); [| intros _; eexists; reflexivity].
  destruct (isEmpty (serverHost (w_d w))); [intros _; eexists; reflexivity |].
  destruct (serverPort (w_d w) =? 0); [intros _; eexists; reflexivity |].
  destruct (isEmpty (clientHost (w_d w))); [intros _; eexists; reflexivity |].
  destruct (negb (AuthMethod_eqb (authMethod (w_d w)) AuthNone)
            && (isEmpty (accountUsername (w_d w)) || isEmpty (accountPassword (w_d w))));
    [intros _; eexists; reflexivity | cbn; discriminate].
Qed.

Lemma connectToServer_ready (E : Env) (w : World) :
  notReadyToConnect (w_d w) = false ->
  status (w_d w) = ST_Disconnected
  /\ socket (w_d w) <> None
  /\ connectToServer E w
     = (connected <- onSocket sk_waitForConnected false ;;
        if negb connected then
          err <- errorString ;;
          pn_fail (arg (qs "unable to connect, connection timeout with error: %1") [err])
        else
          greeting <- pn_waitForResponse E (ba "220") ;;
          if negb (fst greeting) then pn_closeAndFail
          else
            unless pn_sendAndWaitFor E (ba "EHLO " ++ toLatin1 (clientHost (w_d w)))
                     (ba "250")
              fail pn_closeAndFail ;;
            check upgradeToTls E (w_d w) ;;
            check authenticate E (w_d w) ;;
            modifyD (fun d => set_status d ST_Connected) ;;
            ret true) w.
Proof.
  unfold notReadyToConnect, connectToServer. unfold bind at 1. unfold getD. cbn [fst snd].
  destruct (status (w_d w)); cbn [Status_eqb negb orb]; [| discriminate].
  destruct (socket (w_d w)); cbn [orb]; [| discriminate].
  destruct (isEmpty (serverHost (w_d w))); cbn [orb]; [discriminate |].
  destruct (serverPort (w_d w) =? 0); cbn [orb]; [discriminate |].
  destruct (isEmpty (clientHost (w_d w))); cbn [orb]; [discriminate |].
  destruct (negb (AuthMethod_eqb (authMethod (w_d w)) AuthNone)
            && (isEmpty (accountUsername (w_d w)) || isEmpty (accountPassword (w_d w))));
    [discriminate |].
  intros _. split; [reflexivity | split; [discriminate | reflexivity]].
Qed.

(** X17. What [connectToServer] refuses without touching the socket. When
    the client is already connected, has no socket yet, lacks the server
    host, the port or the client host, or has an authentication method but
    not both credentials, the call returns false, leaves the private data
    (and so the socket) exactly as it was, and hands one warning to the
    log. *)
Theorem connectToServer_refuses (E : Env) (w : World) :
  notReadyToConnect (w_d w) = true ->
  fst (connectToServer E w) = false
  /\ w_d (snd (connectToServer E w)) = w_d w
  /\ w_uuids (snd (connectToServer E w)) = w_uuids w
  /\ exists err,
       w_log (snd (connectToServer E w))
       = w_log w ++ [{| rec_type := Warning; rec_msg := err |}].
Proof.
  intros H. destruct (connectToServer_not_ready E w H) as (err & ->).
  cbn. repeat split. now exists err.
Qed.

Lemma connectToServer_refuses_witness :
  fst (connectToServer sampleEnv (connectedWorld happyPeer)) = false
  /\ w_d (snd (connectToServer sampleEnv (connectedWorld happyPeer)))
     = w_d (connectedWorld happyPeer).
Proof.
  assert (H : notReadyToConnect (w_d (connectedWorld happyPeer)) = true)
    by (vm_compute; reflexivity).
  destruct (connectToServer_refuses sampleEnv (connectedWorld happyPeer) H)
    as (H1 & H2 & _).
  split; [exact H1 | exact H2].
Defined.

(** X19. After [connectToServer] on a Disconnected client the status tells
    the result: it is Connected exactly if the call returned true, and
    Disconnected otherwise; the configuration is as before in both cases. *)
Theorem connectToServer_status (E : Env) (w : World) :
  status (w_d w) = ST_Disconnected ->
  (fst (connectToServer E w) = true
   <-> status (w_d (snd (connectToServer E w))) = ST_Connected)
  /\ (fst (connectToServer E w) = false
      <-> status (w_d (snd (connectToServer E w))) = ST_Disconnected)
  /\ configOf (w_d (snd (connectToServer E w))) = configOf (w_d w).
Proof.
  intros Hst. destruct (notReadyToConnect (w_d w)) eqn:Hready.
  - destruct (connectToServer_not_ready E w Hready) as (err & ->). cbn.
    rewrite Hst. repeat split; congruence.
  - destruct (connectToServer_ready E w Hready) as (_ & Hsk & ->).
    destruct (sendsTo_connect_body E (w_d w) w Hsk) as (H1 & H2 & out & H3 & H4).
    destruct (fst _).
    + destruct H4 as (H4 & _). unfold becomesConnected in H4. rewrite H4.
      repeat split; congruence.
    + rewrite Hst in H4. assert (H5 : status (w_d (snd
        ((connected <- onSocket sk_waitForConnected false ;;
          if negb connected then
            err <- errorString ;;
            pn_fail (arg (qs "unable to connect, connection timeout with error: %1") [err])
          else
            greeting <- pn_waitForResponse E (ba "220") ;;
            if negb (fst greeting) then pn_closeAndFail
            else
              unless pn_sendAndWaitFor E (ba "EHLO " ++ toLatin1 (clientHost (w_d w)))
                       (ba "250")
                fail pn_closeAndFail ;;
              check upgradeToTls E (w_d w) ;;
              check authenticate E (w_d w) ;;
              modifyD (fun d => set_status d ST_Connected) ;;
              ret true) w))) = ST_Disconnected) by tauto.
      rewrite H5. repeat split; congruence.
Qed.

Lemma connectToServer_status_witness :
  status (w_d (snd (connectToServer sampleEnv (sampleWorld [TimesOut])))) = ST_Disconnected.
Proof.
  apply (proj1 (proj2 (connectToServer_status sampleEnv (sampleWorld [TimesOut])
                         eq_refl))).
  vm_compute. reflexivity.
Defined.

(** ** Closing, and reading a reply *)

(** X20. [closeConnection] always leaves the client Disconnected with its
    configuration untouched, and it is silent: nothing is written to the
    socket (no QUIT command) and nothing is logged. On a Connected client it
    closes the socket, which drops the lines still buffered; on a
    Disconnected client it changes nothing; calling it twice is calling it
    once. *)
Theorem closeConnection_silent (w : World) :
  status (w_d (snd (closeConnection w))) = ST_Disconnected
  /\ configOf (w_d (snd (closeConnection w))) = configOf (w_d w)
  /\ written (snd (closeConnection w)) = written w
  /\ w_log (snd (closeConnection w)) = w_log w
  /\ (status (w_d w) = ST_Connected ->
      connectionClosed (snd (closeConnection w)) /\ bufferEmpty (snd (closeConnection w)))
  /\ (status (w_d w) = ST_Disconnected -> snd (closeConnection w) = w)
  /\ snd (closeConnection (snd (closeConnection w))) = snd (closeConnection w).
Proof.
  unfold closeConnection, bind, getD, pn_closeAndFail, modifyD, socketClose, onSocket,
    connectionClosed, bufferEmpty, written.
  cbn [fst snd ret w_setD w_d set_status status socket].
  destruct (status (w_d w)) eqn:Hst; cbn [Status_eqb negb fst snd ret].
  - rewrite Hst. cbn [Status_eqb negb fst snd ret].
    repeat split; try reflexivity; try congruence.
  - destruct (socket (w_d w)) as [sk |] eqn:Hsk; cbn; rewrite ?Hsk;
      repeat split; cbn; rewrite ?Hsk; try reflexivity; try congruence.
    intros sk' [= <-]. reflexivity.
Qed.

Lemma readReplyLines_cons (E : Env) (expectedCode x : QByteArray)
      (buffered : list QByteArray) (w : World) :
  readReplyLines E expectedCode (x :: buffered) w
  = let l := trimmed (fst (readLine w)) in
    let w2 := snd (pn_logTraffic E (ba "S") l (snd (readLine w))) in
    if bytes_eqb (mid l 3 1) (ba " ") then
      if negb (bytes_eqb (left l 3) expectedCode) then
        (Some (false, []),
         snd (pn_fail (arg (qs "invalid response, expected %1, received: %2")
                         [fromUtf8 E expectedCode; fromUtf8 E l]) w2))
      else (Some (true, skipn 4 l), w2)
    else readReplyLines E expectedCode buffered w2.
Proof.
  cbn [readReplyLines]. unfold bind. cbn zeta.
  destruct (bytes_eqb (mid (trimmed (fst (readLine w))) 3 1) (ba " ")); [| reflexivity].
  destruct (negb (bytes_eqb (left (trimmed (fst (readLine w))) 3) expectedCode));
    reflexivity.
Qed.

Lemma readReplyLines_run (E : Env) (expectedCode : QByteArray)
      (buffered : list QByteArray) :
  forall (w : World) (sk : QTcpSocket),
    socket (w_d w) = Some sk -> sk_readBuffer sk = buffered ->
    match firstTerminal buffered with
    | Some (l, after) =>
        fst (readReplyLines E expectedCode buffered w) = Some (replyVerdict expectedCode l)
        /\ socket (w_d (snd (readReplyLines E expectedCode buffered w)))
           = Some (withInput sk after (sk_peer sk))
    | None =>
        fst (readReplyLines E expectedCode buffered w) = None
        /\ socket (w_d (snd (readReplyLines E expectedCode buffered w)))
           = Some (withInput sk [] (sk_peer sk))
    end.
Proof.
  induction buffered as [| raw buffered IH]; intros w sk Hsk Hbuf.
  - cbn. split; [reflexivity |]. rewrite Hsk. f_equal.
    destruct sk. cbn in Hbuf |- *. now rewrite Hbuf.
  - rewrite readReplyLines_cons. unfold readLine. rewrite (onSocket_some _ _ w sk Hsk).
    cbn [fst snd].
    assert (Hl : fst (sk_readLine sk) = raw) by (unfold sk_readLine; cbn; now rewrite Hbuf).
    rewrite Hl. cbn zeta. cbn [firstTerminal].
    set (sk1 := snd (sk_readLine sk)).
    set (w2 := snd (pn_logTraffic E (ba "S") (trimmed raw) (w_setSocket w sk1))).
    assert (H1 : socket (w_d w2) = Some sk1).
    { unfold w2. now rewrite pn_logTraffic_socket. }
    assert (H2 : sk_readBuffer sk1 = buffered) by (unfold sk1; cbn; now rewrite Hbuf).
    destruct (bytes_eqb (mid (trimmed raw) 3 1) (ba " ")).
    + unfold replyVerdict.
      destruct (bytes_eqb (left (trimmed raw) 3) expectedCode); cbn [negb fst snd].
      * split; [reflexivity |]. rewrite H1. f_equal. unfold withInput, sk1. cbn.
        now rewrite Hbuf.
      * split; [reflexivity |]. cbn. rewrite H1. f_equal. unfold withInput, sk1. cbn.
        now rewrite Hbuf.
    + specialize (IH w2 sk1 H1 H2).
      destruct (firstTerminal buffered) as [[l after] |]; exact IH.
Qed.

Lemma waitForReply_run (E : Env) (expectedCode : QByteArray) (peer : list PeerEvent) :
  forall (w : World) (sk : QTcpSocket),
    socket (w_d w) = Some sk ->
    match replyFrom (sk_readBuffer sk) peer with
    | Some (l, after, rest) =>
        fst (waitForReply E expectedCode peer w) = replyVerdict expectedCode l
        /\ socket (w_d (snd (waitForReply E expectedCode peer w)))
           = Some (withInput sk after rest)
    | None => fst (waitForReply E expectedCode peer w) = (false, [])
    end.
Proof.
  induction peer as [| ev peer IH]; intros w sk Hsk; [reflexivity |].
  destruct ev as [lines |]; cbn [replyFrom].
  - set (sk1 := {| sk_open := sk_open sk; sk_connects := sk_connects sk;
                   sk_encrypts := sk_encrypts sk; sk_errorString := sk_errorString sk;
                   sk_readBuffer := sk_readBuffer sk ++ lines; sk_peer := peer;
                   sk_written := sk_written sk |}).
    set (w1 := w_setSocket w sk1).
    assert (H1 : socket (w_d w1) = Some sk1) by reflexivity.
    assert (Hrun : waitForReply E expectedCode (Arrives lines :: peer) w
                   = match fst (readReplyLines E expectedCode (sk_readBuffer sk1) w1) with
                     | Some r => (r, snd (readReplyLines E expectedCode (sk_readBuffer sk1) w1))
                     | None =>
                         waitForReply E expectedCode peer
                           (snd (readReplyLines E expectedCode (sk_readBuffer sk1) w1))
                     end).
    { cbn [waitForReply]. unfold bind, readBuffer.
      rewrite (onSocket_some _ _ w sk Hsk). cbn [fst snd sk_waitForReadyRead negb].
      fold sk1. fold w1. rewrite (onSocket_some _ _ w1 sk1 H1). cbn [fst snd].
      change (w_setSocket w1 sk1) with w1.
      destruct (fst (readReplyLines E expectedCode (sk_readBuffer sk1) w1)); reflexivity. }
    rewrite Hrun.
    pose proof (readReplyLines_run E expectedCode (sk_readBuffer sk1) w1 sk1 H1 eq_refl)
      as Hr.
    change (firstTerminal (sk_readBuffer sk1))
      with (firstTerminal (sk_readBuffer sk ++ lines)) in Hr.
    destruct (firstTerminal (sk_readBuffer sk ++ lines)) as [[l after] |].
    + destruct Hr as (Hr1 & Hr2). rewrite Hr1. cbn [fst snd].
      split; [reflexivity | exact Hr2].
    + destruct Hr as (Hr1 & Hr2). rewrite Hr1.
      exact (IH (snd (readReplyLines E expectedCode (sk_readBuffer sk1) w1))
                (withInput sk1 [] (sk_peer sk1)) Hr2).
  - cbn [waitForReply]. unfold bind. rewrite (onSocket_some _ _ w sk Hsk). reflexivity.
Qed.

(** X21. Reading a reply. [pn_waitForResponse] first waits for the peer,
    then reads the buffered lines in order: a line whose fourth byte (after
    trimming) is not a space is a continuation line and is skipped; the
    first line with a space there ends the reply. The result is true,
    together with the text behind the code, exactly if the three bytes of
    its code are the expected ones. The lines behind the terminal line stay
    in the buffer. When a wait brings no terminal line the next move of
    the peer is awaited; a timeout gives false, even while a complete reply
    is buffered. Nothing is written. *)
Theorem pn_waitForResponse_reads_reply (E : Env) (expectedCode : QByteArray)
        (w : World) (sk : QTcpSocket) :
  socket (w_d w) = Some sk ->
  written (snd (pn_waitForResponse E expectedCode w)) = written w
  /\ match replyFrom (sk_readBuffer sk) (sk_peer sk) with
     | Some (l, after, rest) =>
         fst (pn_waitForResponse E expectedCode w) = replyVerdict expectedCode l
         /\ socket (w_d (snd (pn_waitForResponse E expectedCode w)))
            = Some (withInput sk after rest)
     | None => fst (pn_waitForResponse E expectedCode w) = (false, [])
     end.
Proof.
  intros Hsk. split.
  - now destruct (quietly_pn_waitForResponse E expectedCode w) as (_ & _ & H & _).
  - unfold pn_waitForResponse, bind, peerScript.
    rewrite (onSocket_some _ _ w sk Hsk). cbn [fst snd].
    exact (waitForReply_run E expectedCode (sk_peer sk) (w_setSocket w sk) sk eq_refl).
Qed.

Lemma pn_waitForResponse_reads_reply_witness :
  fst (pn_waitForResponse sampleEnv (ba "250")
         (sampleWorld [Arrives [line "250-x"]; Arrives [line "250 OK"; line "421 bye"]]))
  = (true, ba "OK")
  /\ fst (pn_waitForResponse sampleEnv (ba "250") crosstalkWorld) = (true, ba "ok").
Proof.
  split.
  - exact (proj1 (proj2
      (pn_waitForResponse_reads_reply sampleEnv (ba "250")
         (sampleWorld [Arrives [line "250-x"]; Arrives [line "250 OK"; line "421 bye"]])
         (QTcpSocket_new true true
            [Arrives [line "250-x"]; Arrives [line "250 OK"; line "421 bye"]])
         eq_refl))).
  - exact (proj1 (proj2
      (pn_waitForResponse_reads_reply sampleEnv (ba "250") crosstalkWorld crosstalkSocket
         eq_refl))).
Defined.

(** X22. [setConnectionType] works once. It succeeds only on a client that
    has no socket yet and for a connection type other than
    [UnknownConnection]; it then stores the type and the new socket and
    changes nothing else, whatever the status. Any later call, with any
    type, fails its check and aborts. *)
Theorem setConnectionType_once (d d' : PrivateData) (t : ConnectionType) (sk : QTcpSocket) :
  setConnectionType d t sk = Some d' ->
  socket d = None
  /\ t <> UnknownConnection
  /\ d' = set_socket (set_connectionType d t) (Some sk)
  /\ status d' = status d
  /\ forall t' sk', setConnectionType d' t' sk' = None.
Proof.
  unfold setConnectionType. destruct (socket d) eqn:Hsk; [discriminate |].
  destruct t; [discriminate | | |]; intros [= <-];
    (split; [reflexivity | split; [discriminate | split; [reflexivity |]]];
     split; [reflexivity | intros t' sk'; reflexivity]).
Qed.

Lemma setConnectionType_once_witness :
  setConnectionType
    (set_socket (set_connectionType (PrivateData_new (qs "h")) SslConnection)
                (Some (QTcpSocket_new true true [])))
    TcpConnection (QTcpSocket_new true true []) = None.
Proof.
  exact (proj2 (proj2 (proj2 (proj2
    (setConnectionType_once (PrivateData_new (qs "h")) _ SslConnection
       (QTcpSocket_new true true []) eq_refl))))
    TcpConnection (QTcpSocket_new true true [])).
Defined.

(** ** Sending with nothing buffered *)

Lemma pn_isAllowedToSend_clean (E : Env) (w : World) (sk : QTcpSocket) :
  socket (w_d w) = Some sk -> sk_readBuffer sk = [] ->
  pn_isAllowedToSend E w = (true, w_setSocket w sk).
Proof.
  intros Hsk Hbuf. unfold pn_isAllowedToSend, bind, canReadLine.
  rewrite (onSocket_some _ _ w sk Hsk). cbn [fst snd]. unfold sk_canReadLine.
  rewrite Hbuf. reflexivity.
Qed.

Lemma pn_logTraffic_run (E : Env) (who msg : QByteArray) (w : World) :
  snd (pn_logTraffic E who msg w)
  = if logSocketTraffic (w_d w) then w_addLog w (trafficRecord E who msg) else w.
Proof.
  unfold pn_logTraffic, bind, getD. cbn [fst snd].
  destruct (logSocketTraffic (w_d w)); reflexivity.
Qed.

(** X23. With a socket on which nothing is buffered for reading, a command
    always goes out: [pn_sendMessage] returns true, writes the data followed
    by CRLF as one write, and logs one debug record if traffic logging is on
    and nothing otherwise. The message overload returns what serialising the
    message into a fresh buffer returns; on success it writes the buffer's
    content as one write, without CRLF added, and the traffic log gets the
    content in Base64; on failure it writes and logs nothing. *)
Theorem send_on_clean_buffer (E : Env) (w : World) (sk : QTcpSocket) :
  socket (w_d w) = Some sk -> sk_readBuffer sk = [] ->
  (forall data,
      fst (pn_sendMessage E data w) = true
      /\ written (snd (pn_sendMessage E data w))
         = written w ++ [{| ww_data := data ++ CRLF; ww_pending := [] |}]
      /\ w_log (snd (pn_sendMessage E data w))
         = w_log w ++ (if logSocketTraffic (w_d w)
                       then [trafficRecord E (ba "C") data] else []))
  /\ (forall msg,
        let r := MimeMessage_writeToDev E msg (freshBuffer (w_uuids w)) in
        let data := dev_data (ws_dev (snd r)) in
        fst (pn_sendMimeMessage E msg w) = fst r
        /\ written (snd (pn_sendMimeMessage E msg w))
           = written w ++ (if fst r then [{| ww_data := data; ww_pending := [] |}] else [])
        /\ w_log (snd (pn_sendMimeMessage E msg w))
           = w_log w ++ (if fst r && logSocketTraffic (w_d w)
                         then [trafficRecord E (ba "C") (toBase64 data)] else [])).
Proof.
  intros Hsk Hbuf. split.
  - intros data.
    assert (Hrun : pn_sendMessage E data w
                   = (true, snd (socketWrite (data ++ CRLF)
                                   (snd (pn_logTraffic E (ba "C") data (w_setSocket w sk)))))).
    { unfold pn_sendMessage, bind.
      now rewrite (pn_isAllowedToSend_clean E w sk Hsk Hbuf). }
    rewrite Hrun, pn_logTraffic_run. cbn [fst snd].
    unfold socketWrite, onSocket, written.
    cbn [w_setSocket w_setD w_d set_socket socket logSocketTraffic].
    destruct (logSocketTraffic (w_d w)); cbn; rewrite Hsk, Hbuf, ?app_nil_r;
      repeat split; reflexivity.
  - intros msg. cbn zeta.
    set (r := MimeMessage_writeToDev E msg (freshBuffer (w_uuids w))).
    set (w1 := {| w_d := w_d (w_setSocket w sk); w_log := w_log w;
                  w_uuids := ws_uuids (snd r) |}).
    assert (Hrun : pn_sendMimeMessage E msg w
                   = if fst r
                     then (true,
                           snd (socketWrite (dev_data (ws_dev (snd r)))
                                  (snd (pn_logTraffic E (ba "C")
                                          (toBase64 (dev_data (ws_dev (snd r)))) w1))))
                     else (false, w1)).
    { unfold pn_sendMimeMessage, bind.
      rewrite (pn_isAllowedToSend_clean E w sk Hsk Hbuf). cbn [fst snd].
      unfold writeToBuffer. cbn [fst snd w_uuids w_setSocket w_setD].
      fold (freshBuffer (w_uuids w)). fold r.
      destruct (fst r); reflexivity. }
    rewrite Hrun. destruct (fst r); cbn [andb fst snd].
    + rewrite pn_logTraffic_run. unfold socketWrite, onSocket, written, w1.
      cbn [w_setSocket w_setD w_d set_socket socket logSocketTraffic].
      destruct (logSocketTraffic (w_d w)); cbn; rewrite Hsk, Hbuf, ?app_nil_r;
        repeat split; reflexivity.
    + unfold written, w1. cbn. rewrite Hsk, !app_nil_r. repeat split; reflexivity.
Qed.

Lemma send_on_clean_buffer_witness :
  fst (pn_sendMessage sampleEnv (ba "NOOP") (connectedWorld happyPeer)) = true.
Proof.
  destruct (send_on_clean_buffer sampleEnv (connectedWorld happyPeer)
              {| sk_open := true; sk_connects := true; sk_encrypts := true;
                 sk_errorString := []; sk_readBuffer := [];
                 sk_peer := skipn 2 happyPeer;
                 sk_written := [{| ww_data := line "EHLO h"; ww_pending := [] |}] |})
    as (Hdata & _); [vm_compute; reflexivity | reflexivity |].
  exact (proj1 (Hdata (ba "NOOP"))).
Defined.

(** ** The dialogue of a successful connect *)

Lemma bytes_eqb_eq (a b : QByteArray) : bytes_eqb a b = true -> a = b.
Proof.
  revert b. induction a as [| x a IH]; intros [| y b] H; try discriminate; [reflexivity |].
  cbn [bytes_eqb] in H. apply andb_true_iff in H as (Hxy & Hab).
  apply Byte.byte_dec_bl in Hxy. subst y. f_equal. now apply IH.
Qed.

Lemma dialogue_app (t1 t2 t3 : Traffic) (e1 e2 : list Event) :
  dialogue t1 e1 t2 -> dialogue t2 e2 t3 -> dialogue t1 (e1 ++ e2) t3.
Proof.
  revert t1. induction e1 as [| [data | l] e1 IH]; intros t1 H1 H2; cbn [app dialogue] in *.
  - now subst t2.
  - destruct H1 as (Hbuf & H1). split; [exact Hbuf | now apply IH].
  - destruct H1 as (after & rest & Hr & H1). exists after, rest.
    split; [exact Hr | now apply IH].
Qed.

Lemma dialogue_written (t t' : Traffic) (events : list Event) :
  dialogue t events t' -> t_written t' = t_written t ++ sentData events.
Proof.
  revert t. induction events as [| [data | l] events IH]; intros t H; cbn [dialogue] in H.
  - subst t'. cbn. now rewrite app_nil_r.
  - destruct H as (_ & H). apply IH in H. cbn [t_written] in H.
    rewrite H. unfold sentData. cbn [flat_map app]. now rewrite <- app_assoc.
  - destruct H as (after & rest & _ & H). apply IH in H. exact H.
Qed.

Lemma keepsTraffic_ret {A} (a : A) : keepsTraffic (ret a).
Proof. intros w sk Hsk. now exists sk. Qed.

Lemma keepsTraffic_bind {A B} (c : ST World A) (k : A -> ST World B) :
  keepsTraffic c -> (forall a, keepsTraffic (k a)) -> keepsTraffic (bind c k).
Proof.
  intros Hc Hk w sk Hsk. unfold bind.
  destruct (Hc w sk Hsk) as (sk1 & H1 & T1).
  destruct (Hk (fst (c w)) (snd (c w)) sk1 H1) as (sk2 & H2 & T2).
  exists sk2. split; [exact H2 | congruence].
Qed.

Lemma keepsTraffic_same_socket {A} (c : ST World A) :
  (forall w, socket (w_d (snd (c w))) = socket (w_d w)) -> keepsTraffic c.
Proof. intros H w sk Hsk. exists sk. now rewrite H. Qed.

Lemma keepsTraffic_onSocket {A} (op : QTcpSocket -> A * QTcpSocket) (dflt : A) :
  (forall sk, trafficOf (snd (op sk)) = trafficOf sk) -> keepsTraffic (onSocket op dflt).
Proof.
  intros Hop w sk Hsk. rewrite (onSocket_some _ _ w sk Hsk). cbn [fst snd].
  exists (snd (op sk)). split; [reflexivity | apply Hop].
Qed.

Lemma keepsTraffic_pn_fail (err : QString) : keepsTraffic (pn_fail err).
Proof. apply keepsTraffic_same_socket. reflexivity. Qed.

Lemma keepsTraffic_pn_logTraffic (E : Env) (who msg : QByteArray) :
  keepsTraffic (pn_logTraffic E who msg).
Proof. apply keepsTraffic_same_socket. apply pn_logTraffic_socket. Qed.

Lemma talks_weaken (c : ST World bool) (P Q : list Event -> Prop) :
  talks c P -> (forall events, P events -> Q events) -> talks c Q.
Proof.
  intros Hc HPQ w sk Hsk Hres.
  destruct (Hc w sk Hsk Hres) as (sk' & events & H1 & H2 & H3).
  exists sk', events. auto.
Qed.

Lemma talks_never (c : ST World bool) (P : list Event -> Prop) :
  (forall w, fst (c w) = false) -> talks c P.
Proof. intros Hc w sk _ Hres. rewrite Hc in Hres. discriminate. Qed.

Lemma talks_ret_true : talks (ret true) (eq []).
Proof. intros w sk Hsk _. exists sk, []. cbn. auto. Qed.

Lemma talks_keeps_bind {A} (c : ST World A) (k : A -> ST World bool)
      (P : list Event -> Prop) :
  keepsTraffic c -> (forall a, talks (k a) P) -> talks (bind c k) P.
Proof.
  intros Hc Hk w sk Hsk Hres. unfold bind in *.
  destruct (Hc w sk Hsk) as (sk1 & H1 & T1).
  destruct (Hk (fst (c w)) (snd (c w)) sk1 H1 Hres) as (sk' & events & H2 & H3 & H4).
  exists sk', events. rewrite <- T1. auto.
Qed.

Lemma talks_unless (c f k : ST World bool) (P Q : list Event -> Prop) :
  talks c P -> (forall w, fst (f w) = false) -> talks k Q ->
  talks (unless c fail f ;; k) (thenE P Q).
Proof.
  intros Hc Hf Hk w sk Hsk Hres. unfold bind in *.
  destruct (fst (c w)) eqn:Hcw; [| rewrite Hf in Hres; discriminate].
  destruct (Hc w sk Hsk Hcw) as (sk1 & e1 & H1 & D1 & P1).
  destruct (Hk (snd (c w)) sk1 H1 Hres) as (sk2 & e2 & H2 & D2 & Q2).
  exists sk2, (e1 ++ e2). split; [exact H2 |].
  split; [eapply dialogue_app; eassumption | now exists e1, e2].
Qed.

Lemma talks_check (c k : ST World bool) (P Q : list Event -> Prop) :
  talks c P -> talks k Q -> talks (check c ;; k) (thenE P Q).
Proof. intros Hc Hk. apply talks_unless; [exact Hc | reflexivity | exact Hk]. Qed.

(** A command goes out only on a clean buffer, as one string. *)
Lemma talks_pn_sendMessage (E : Env) (data : QByteArray) :
  talks (pn_sendMessage E data) (eq [Sent (data ++ CRLF)]).
Proof.
  intros w sk Hsk Hres.
  destruct (sk_readBuffer sk) as [| x buffer] eqn:Hbuf.
  - assert (Hrun : pn_sendMessage E data w
                   = (true, snd (socketWrite (data ++ CRLF)
                                   (snd (pn_logTraffic E (ba "C") data (w_setSocket w sk)))))).
    { unfold pn_sendMessage, bind.
      now rewrite (pn_isAllowedToSend_clean E w sk Hsk Hbuf). }
    rewrite Hrun. cbn [fst snd].
    set (w1 := snd (pn_logTraffic E (ba "C") data (w_setSocket w sk))).
    assert (H1 : socket (w_d w1) = Some sk).
    { unfold w1. now rewrite pn_logTraffic_socket. }
    unfold socketWrite. rewrite (onSocket_some _ _ w1 sk H1). cbn [fst snd].
    exists (snd (sk_write (data ++ CRLF) sk)), [Sent (data ++ CRLF)].
    split; [reflexivity |]. split; [| reflexivity].
    cbn [dialogue]. unfold trafficOf. cbn. rewrite Hbuf, map_app.
    split; reflexivity.
  - assert (Hcan : sk_canReadLine sk = true) by (unfold sk_canReadLine; now rewrite Hbuf).
    destruct (pn_isAllowedToSend_refuses E w sk Hsk Hcan) as (Hf & _).
    rewrite (pn_sendMessage_refused E data w Hf) in Hres. discriminate.
Qed.

Lemma pn_waitForResponse_run (E : Env) (expectedCode : QByteArray)
      (w : World) (sk : QTcpSocket) :
  socket (w_d w) = Some sk ->
  match replyFrom (sk_readBuffer sk) (sk_peer sk) with
  | Some (l, after, rest) =>
      fst (pn_waitForResponse E expectedCode w) = replyVerdict expectedCode l
      /\ socket (w_d (snd (pn_waitForResponse E expectedCode w)))
         = Some (withInput sk after rest)
  | None => fst (pn_waitForResponse E expectedCode w) = (false, [])
  end.
Proof.
  intros Hsk. unfold pn_waitForResponse, bind, peerScript.
  rewrite (onSocket_some _ _ w sk Hsk). cbn [fst snd].
  exact (waitForReply_run E expectedCode (sk_peer sk) (w_setSocket w sk) sk eq_refl).
Qed.

(** A wait, and what the driver does with the reply. The reply is the one
    the peer's moves give; its text is handed to the rest. *)
Lemma talks_wait (E : Env) (expectedCode : QByteArray)
      (k : bool * QByteArray -> ST World bool) (Q : QByteArray -> list Event -> Prop) :
  (forall r, fst r = true -> talks (k r) (Q (snd r))) ->
  (forall r w, fst r = false -> fst (k r w) = false) ->
  talks (r <- pn_waitForResponse E expectedCode ;; k r)
        (fun events => exists l rest,
             events = Got l :: rest /\ replied expectedCode l /\ Q (replyText l) rest).
Proof.
  intros Hk Hf w sk Hsk Hres. unfold bind in *.
  pose proof (pn_waitForResponse_run E expectedCode w sk Hsk) as Hrun.
  destruct (replyFrom (sk_readBuffer sk) (sk_peer sk)) as [[[l after] rest] |] eqn:Hreply.
  - destruct Hrun as (Hv & Hs). unfold replyVerdict in Hv.
    destruct (bytes_eqb (left l 3) expectedCode) eqn:Hcode.
    + assert (Hr : fst (fst (pn_waitForResponse E expectedCode w)) = true)
        by now rewrite Hv.
      destruct (Hk _ Hr _ _ Hs Hres) as (sk' & events & H1 & H2 & H3).
      exists sk', (Got l :: events). split; [exact H1 |]. split.
      * cbn [dialogue]. exists after, rest. split; [exact Hreply | exact H2].
      * exists l, events. split; [reflexivity |].
        split; [now apply bytes_eqb_eq |]. rewrite Hv in H3. exact H3.
    + assert (Hr : fst (fst (pn_waitForResponse E expectedCode w)) = false)
        by now rewrite Hv.
      rewrite (Hf _ _ Hr) in Hres. discriminate.
  - assert (Hr : fst (fst (pn_waitForResponse E expectedCode w)) = false)
      by now rewrite Hrun.
    rewrite (Hf _ _ Hr) in Hres. discriminate.
Qed.

Lemma talks_pn_sendAndWaitFor (E : Env) (dataToSend expectedResCode : QByteArray) :
  talks (pn_sendAndWaitFor E dataToSend expectedResCode)
        (exchange dataToSend expectedResCode).
Proof.
  unfold pn_sendAndWaitFor. eapply talks_weaken.
  - apply talks_check; [apply talks_pn_sendMessage |].
    apply (talks_wait E expectedResCode (fun r => ret (fst r)) (fun _ => eq [])).
    + intros r Hr. rewrite Hr. apply talks_ret_true.
    + intros r w Hr. exact Hr.
  - intros events (e1 & e2 & -> & <- & l & rest & -> & Hl & <-).
    exists l. split; [reflexivity | exact Hl].
Qed.

Lemma talks_authenticate (E : Env) (d : PrivateData) :
  talks (authenticate E d) (authTranscript E d).
Proof.
  unfold authenticate, authTranscript.
  destruct (authMethod d); cbn [AuthMethod_eqb].
  - eapply talks_weaken; [apply talks_ret_true | now intros events <-].
  - eapply talks_weaken.
    + apply talks_unless;
        [apply talks_pn_sendAndWaitFor | reflexivity | apply talks_ret_true].
    + intros events (e1 & e2 & -> & H1 & <-). now rewrite app_nil_r.
  - eapply talks_weaken.
    + apply talks_unless; [apply talks_pn_sendAndWaitFor | reflexivity |].
      apply talks_unless; [apply talks_pn_sendAndWaitFor | reflexivity |].
      apply talks_unless;
        [apply talks_pn_sendAndWaitFor | reflexivity | apply talks_ret_true].
    + intros events (e1 & e2 & -> & (l1 & -> & H1) & e3 & e4 & -> & (l2 & -> & H2)
                     & e5 & e6 & -> & (l3 & -> & H3) & <-).
      exists l1, l2, l3. repeat split; assumption.
  - eapply talks_weaken.
    + apply talks_unless; [apply talks_pn_sendMessage | reflexivity |].
      apply (talks_wait E (ba "334")
               (fun challenge =>
                  if negb (fst challenge) then pn_closeAndFail
                  else
                    unless pn_sendAndWaitFor E
                             (toBase64
                                (toLatin1 (accountUsername d) ++ ba " "
                                   ++ toHex (hmac_md5 E (toLatin1 (accountPassword d))
                                               (fromBase64 E (snd challenge)))))
                             (ba "235")
                      fail pn_closeAndFail ;;
                    ret true)
               (fun text => exchange (cramAnswer E d text) (ba "235"))).
      * intros r Hr. rewrite Hr. cbn [negb]. eapply talks_weaken.
        -- apply talks_unless;
             [apply talks_pn_sendAndWaitFor | reflexivity | apply talks_ret_true].
        -- intros events (e1 & e2 & -> & H1 & <-). now rewrite app_nil_r.
      * intros r w Hr. rewrite Hr. reflexivity.
    + intros events (e1 & e2 & -> & <- & challenge & rest & -> & Hc & l & -> & Hl).
      exists challenge, l. repeat split; assumption.
Qed.

Lemma talks_upgradeToTls (E : Env) (d : PrivateData) :
  talks (upgradeToTls E d) (tlsTranscript d).
Proof.
  unfold upgradeToTls, tlsTranscript.
  destruct (ConnectionType_eqb (connectionType d) TlsConnection);
    [| eapply talks_weaken; [apply talks_ret_true | now intros events <-]].
  eapply talks_weaken.
  - apply talks_unless; [apply talks_pn_sendAndWaitFor | reflexivity |].
    apply talks_keeps_bind; [apply keepsTraffic_onSocket; reflexivity | intros encrypted].
    instantiate (1 := exchange (ba "EHLO " ++ toLatin1 (clientHost d)) (ba "250")).
    destruct (negb encrypted).
    + apply talks_never. reflexivity.
    + eapply talks_weaken.
      * apply talks_unless;
          [apply talks_pn_sendAndWaitFor | reflexivity | apply talks_ret_true].
      * intros events (e1 & e2 & -> & H1 & <-). now rewrite app_nil_r.
  - intros events (e1 & e2 & -> & (l1 & -> & H1) & l2 & -> & H2).
    exists l1, l2. unfold ehloCommand. rewrite <- !app_assoc.
    repeat split; assumption.
Qed.

Lemma talks_connect_body (E : Env) (d : PrivateData) :
  talks
    (connected <- onSocket sk_waitForConnected false ;;
     if negb connected then
       err <- errorString ;;
       pn_fail (arg (qs "unable to connect, connection timeout with error: %1") [err])
     else
       greeting <- pn_waitForResponse E (ba "220") ;;
       if negb (fst greeting) then pn_closeAndFail
       else
         unless pn_sendAndWaitFor E (ba "EHLO " ++ toLatin1 (clientHost d)) (ba "250")
           fail pn_closeAndFail ;;
         check upgradeToTls E d ;;
         check authenticate E d ;;
         modifyD (fun d => set_status d ST_Connected) ;;
         ret true)
    (connectTranscript E d).
Proof.
  apply talks_keeps_bind; [apply keepsTraffic_onSocket; reflexivity | intros connected].
  destruct (negb connected); [apply talks_never; reflexivity |].
  eapply talks_weaken.
  - apply (talks_wait E (ba "220")
             (fun greeting =>
                if negb (fst greeting) then pn_closeAndFail
                else
                  unless pn_sendAndWaitFor E (ba "EHLO " ++ toLatin1 (clientHost d))
                           (ba "250")
                    fail pn_closeAndFail ;;
                  check upgradeToTls E d ;;
                  check authenticate E d ;;
                  modifyD (fun d => set_status d ST_Connected) ;;
                  ret true)
             (fun _ => thenE (exchange (ba "EHLO " ++ toLatin1 (clientHost d)) (ba "250"))
                         (thenE (tlsTranscript d) (thenE (authTranscript E d) (eq []))))).
    + intros r Hr. rewrite Hr. cbn [negb].
      apply talks_unless; [apply talks_pn_sendAndWaitFor | reflexivity |].
      apply talks_check; [apply talks_upgradeToTls |].
      apply talks_check; [apply talks_authenticate |].
      apply talks_keeps_bind; [apply keepsTraffic_same_socket; reflexivity | intros _].
      apply talks_ret_true.
    + intros r w Hr. rewrite Hr. reflexivity.
  - intros events (greeting & rest & -> & Hg & e1 & e2 & -> & (hello & -> & Hh)
                   & tls & e3 & -> & Htls & auth & e4 & -> & Hauth & <-).
    exists greeting, hello, tls, auth. rewrite app_nil_r. unfold ehloCommand.
    rewrite <- !app_assoc. repeat split; assumption.
Qed.

(** X18. A successful [connectToServer]. When it returns true the client was
    Disconnected and ready, is Connected now and has its configuration
    untouched; and what passed between it and the server is exactly this
    run of events, each reply being the one the server's moves give at that
    point: the 220 greeting; EHLO with the client host and its 250 reply;
    for a TLS connection STARTTLS with its 220 reply and EHLO again with its
    250 reply; then the events of the authentication method: none, AUTH
    PLAIN with the credentials (235), AUTH LOGIN, user and password in turn
    (334, 334, 235), or AUTH CRAM-MD5, its 334 reply, and the answer
    computed from the text of that very reply (235). Every command went out
    while nothing was buffered, and the strings written are those sent in
    the run. *)
Theorem connectToServer_success_trace (E : Env) (w : World) :
  fst (connectToServer E w) = true ->
  notReadyToConnect (w_d w) = false
  /\ status (w_d w) = ST_Disconnected
  /\ status (w_d (snd (connectToServer E w))) = ST_Connected
  /\ configOf (w_d (snd (connectToServer E w))) = configOf (w_d w)
  /\ exists sk sk' events,
       socket (w_d w) = Some sk
       /\ socket (w_d (snd (connectToServer E w))) = Some sk'
       /\ dialogue (trafficOf sk) events (trafficOf sk')
       /\ connectTranscript E (w_d w) events
       /\ wireData (snd (connectToServer E w)) = wireData w ++ sentData events.
Proof.
  intros Hres. destruct (notReadyToConnect (w_d w)) eqn:Hready.
  - destruct (connectToServer_not_ready E w Hready) as (err & Heq).
    rewrite Heq in Hres. discriminate.
  - destruct (connectToServer_ready E w Hready) as (Hst & Hsk & Heq).
    rewrite Heq in Hres |- *.
    destruct (sendsTo_connect_body E (w_d w) w Hsk) as (H1 & H2 & out & H3 & H4).
    rewrite Hres in H4. destruct H4 as (H4 & _).
    destruct (socket (w_d w)) as [sk |] eqn:Hsock; [| congruence].
    destruct (talks_connect_body E (w_d w) w sk Hsock Hres)
      as (sk' & events & Hs' & Hd & Ht).
    repeat split; try assumption.
    exists sk, sk', events. repeat split; try assumption.
    unfold wireData, written. rewrite Hs', Hsock.
    exact (dialogue_written _ _ _ Hd).
Qed.

Lemma connectToServer_success_trace_witness :
  status (w_d (snd (connectToServer echoEnv cramWorld))) = ST_Connected
  /\ (exists events,
        connectTranscript echoEnv (w_d cramWorld) events
        /\ wireData (snd (connectToServer echoEnv cramWorld)) = sentData events)
  /\ wireData (snd (connectToServer echoEnv cramWorld))
     = [line "EHLO h"; line "AUTH CRAM-MD5";
        toBase64 (ba "u " ++ toHex (ba "abc")) ++ CRLF].
Proof.
  destruct (connectToServer_success_trace echoEnv cramWorld)
    as (_ & _ & Hst & _ & sk & sk' & events & _ & _ & _ & Ht & Hw);
    [vm_compute; reflexivity |].
  assert (Hnone : wireData cramWorld = []) by (vm_compute; reflexivity).
  rewrite Hnone in Hw.
  split; [exact Hst |]. split; [exists events; split; [exact Ht | exact Hw] |].
  vm_compute. reflexivity.
Defined.

(** ** The driver: a failure is always explained in the log *)

Lemma logStep_appended (ok : bool) (w w' : World) : logStep ok w w' -> appended w w'.
Proof. intros (H1 & l & H2 & _). split; [exact H1 | now exists l]. Qed.

Lemma appended_refl (w : World) : appended w w.
Proof. split; [reflexivity | exists []; now rewrite app_nil_r]. Qed.

Lemma appended_trans (w1 w2 w3 : World) : appended w1 w2 -> appended w2 w3 -> appended w1 w3.
Proof.
  intros (A1 & l1 & A2) (B1 & l2 & B2). split; [congruence |].
  exists (l1 ++ l2). now rewrite B2, A2, app_assoc.
Qed.

Lemma logStep_true_then (ok : bool) (w1 w2 w3 : World) :
  logStep true w1 w2 -> logStep ok w2 w3 -> logStep ok w1 w3.
Proof.
  intros (A1 & l1 & A2 & A3 & A4) (B1 & l2 & B2 & B3). split; [congruence |].
  exists (l1 ++ l2). split; [now rewrite B2, A2, app_assoc |].
  destruct ok.
  - destruct B3 as (B3 & B4). split; [now apply Forall_app |].
    intros Hoff. rewrite A4 by exact Hoff. rewrite B4 by congruence. reflexivity.
  - apply Exists_app. now right.
Qed.

Lemma logStep_false_then (w1 w2 w3 : World) :
  logStep false w1 w2 -> appended w2 w3 -> logStep false w1 w3.
Proof.
  intros (A1 & l1 & A2 & A3) (B1 & l2 & B2). split; [congruence |].
  exists (l1 ++ l2). split; [now rewrite B2, A2, app_assoc |].
  apply Exists_app. now left.
Qed.

Lemma appended_then_false (w1 w2 w3 : World) :
  appended w1 w2 -> logStep false w2 w3 -> logStep false w1 w3.
Proof.
  intros (A1 & l1 & A2) (B1 & l2 & B2 & B3). split; [congruence |].
  exists (l1 ++ l2). split; [now rewrite B2, A2, app_assoc |].
  apply Exists_app. now right.
Qed.

Lemma reports_appendsLog {A} (ok : A -> bool) (c : ST World A) :
  reports ok c -> appendsLog c.
Proof. intros H w. eapply logStep_appended, H. Qed.

Lemma appendsLog_bind {A B} (c : ST World A) (k : A -> ST World B) :
  appendsLog c -> (forall a, appendsLog (k a)) -> appendsLog (bind c k).
Proof. intros Hc Hk w. unfold bind. eapply appended_trans; [apply Hc | apply Hk]. Qed.

(** The general composition: the rest runs after a success; after a failure
    what runs only adds to the log and does not turn the result around. *)
Lemma reports_bind {A B} (okA : A -> bool) (okB : B -> bool)
      (c : ST World A) (k : A -> ST World B) :
  reports okA c ->
  (forall a, okA a = true -> reports okB (k a)) ->
  (forall a, okA a = false -> appendsLog (k a) /\ forall w, okB (fst (k a w)) = false) ->
  reports okB (bind c k).
Proof.
  intros Hc Hk Hf w. unfold bind. specialize (Hc w).
  destruct (okA (fst (c w))) eqn:Hok.
  - eapply logStep_true_then; [exact Hc | apply (Hk _ Hok)].
  - destruct (Hf _ Hok) as (Happ & Hres). rewrite Hres.
    eapply logStep_false_then; [exact Hc | apply Happ].
Qed.

(** A step that cannot fail, before the rest. *)
Lemma reports_after {A B} (okB : B -> bool) (c : ST World A) (k : A -> ST World B) :
  reports anyResult c -> (forall a, reports okB (k a)) -> reports okB (bind c k).
Proof.
  intros Hc Hk. apply (reports_bind anyResult okB); [exact Hc | auto |].
  intros a Ha. discriminate.
Qed.

Lemma reports_ret_ok {A} (ok : A -> bool) (a : A) : ok a = true -> reports ok (ret a).
Proof.
  intros Ha w. cbn. rewrite Ha. split; [reflexivity |]. exists [].
  rewrite app_nil_r. auto.
Qed.

Lemma reports_same_log {A} (c : ST World A) :
  (forall w, w_log (snd (c w)) = w_log w
             /\ logSocketTraffic (w_d (snd (c w))) = logSocketTraffic (w_d w)) ->
  reports anyResult c.
Proof.
  intros H w. destruct (H w) as (H1 & H2). split; [exact H2 |]. exists [].
  rewrite app_nil_r. cbn. auto.
Qed.

Lemma reports_getD : reports anyResult getD.
Proof. apply reports_same_log. intros w. split; reflexivity. Qed.

Lemma reports_set_status (v : Status) :
  reports anyResult (modifyD (fun d => set_status d v)).
Proof. apply reports_same_log. intros w. split; reflexivity. Qed.

Lemma reports_onSocket {A} (op : QTcpSocket -> A * QTcpSocket) (dflt : A) :
  reports anyResult (onSocket op dflt).
Proof.
  apply reports_same_log. intros w. unfold onSocket.
  destruct (socket (w_d w)); split; reflexivity.
Qed.

Lemma reports_writeToBuffer (E : Env) (msg : MimeMessage) :
  reports anyResult (writeToBuffer E msg).
Proof. apply reports_same_log. intros w. split; reflexivity. Qed.

Lemma RTLogHandler_args_type (h : RTLogHandler) (args : list QString) :
  log_type (RTLogHandler_args h args) = log_type h.
Proof.
  revert h. induction args as [| a args IH]; intros h; [reflexivity |].
  unfold RTLogHandler_args in *. cbn [fold_left]. now rewrite IH.
Qed.

Lemma reports_pn_logTraffic (E : Env) (who msg : QByteArray) :
  reports anyResult (pn_logTraffic E who msg).
Proof.
  intros w. rewrite pn_logTraffic_run. cbn [anyResult].
  destruct (logSocketTraffic (w_d w)) eqn:Hlog.
  - split; [reflexivity |]. exists [trafficRecord E who msg].
    split; [reflexivity |]. split; [| congruence].
    constructor; [| constructor]. unfold trafficRecord, RTLogHandler_emit.
    cbn [rec_type]. now rewrite RTLogHandler_args_type.
  - split; [reflexivity |]. exists []. rewrite app_nil_r.
    split; [reflexivity | split; [constructor | reflexivity]].
Qed.

Lemma reports_pn_fail (err : QString) : reports noResult (pn_fail err).
Proof.
  intros w. cbn. split; [reflexivity |].
  exists [{| rec_type := Warning; rec_msg := err |}]. split; [reflexivity |].
  now constructor.
Qed.

Lemma pn_fail_false (err : QString) (w : World) : fst (pn_fail err w) = false.
Proof. reflexivity. Qed.

Lemma pn_closeAndFail_appendsFalse :
  appendsLog pn_closeAndFail /\ forall w, fst (pn_closeAndFail w) = false.
Proof.
  split; [| reflexivity]. intros w.
  unfold pn_closeAndFail, bind, modifyD, socketClose, onSocket. cbn.
  destruct (socket (w_d w)); cbn; apply (appended_refl w).
Qed.

Lemma appendsLog_ret {A} (a : A) : appendsLog (ret a).
Proof. intros w. apply appended_refl. Qed.

Lemma reports_check (c k : ST World bool) :
  reports isTrue c -> reports isTrue k -> reports isTrue (check c ;; k).
Proof.
  intros Hc Hk. apply (reports_bind isTrue isTrue); [exact Hc | |].
  - intros a Ha. unfold isTrue in Ha. now subst a.
  - intros a Ha. unfold isTrue in Ha. subst a. split; [apply appendsLog_ret | reflexivity].
Qed.

Lemma reports_unless (c f k : ST World bool) :
  reports isTrue c -> appendsLog f /\ (forall w, fst (f w) = false) ->
  reports isTrue k -> reports isTrue (unless c fail f ;; k).
Proof.
  intros Hc Hf Hk. apply (reports_bind isTrue isTrue); [exact Hc | |].
  - intros a Ha. unfold isTrue in Ha. now subst a.
  - intros a Ha. unfold isTrue in Ha. subst a. exact Hf.
Qed.

(** A warning, and then something that only adds to the log and fails. *)
Lemma reports_fail_then {B} (okB : B -> bool) (err : QString) (k : ST World B) :
  appendsLog k -> (forall w, okB (fst (k w)) = false) ->
  reports okB (pn_fail err ;; k).
Proof.
  intros Hk Hres. apply (reports_bind noResult okB); [apply reports_pn_fail | |].
  - intros a Ha. discriminate.
  - intros a _. split; assumption.
Qed.

Lemma reports_pn_fail_isTrue (err : QString) : reports isTrue (pn_fail err).
Proof. exact (reports_pn_fail err). Qed.

Lemma appendsLog_drainLines (E : Env) (buffered : list QByteArray) :
  appendsLog (drainLines E buffered).
Proof.
  induction buffered as [| l buffered IH]; cbn [drainLines]; [apply appendsLog_ret |].
  apply appendsLog_bind; [eapply reports_appendsLog, reports_onSocket | intros raw].
  apply appendsLog_bind; [eapply reports_appendsLog, reports_pn_fail | intros _].
  exact IH.
Qed.

Lemma reports_pn_isAllowedToSend (E : Env) : reports isTrue (pn_isAllowedToSend E).
Proof.
  unfold pn_isAllowedToSend. apply reports_after; [apply reports_onSocket | intros can].
  destruct can; [| now apply reports_ret_ok].
  apply reports_fail_then; [| reflexivity].
  apply appendsLog_bind; [eapply reports_appendsLog, reports_onSocket | intros buffered].
  apply appendsLog_bind; [apply appendsLog_drainLines | intros _]. apply appendsLog_ret.
Qed.

Lemma reports_send_tail (E : Env) (logged data : QByteArray) :
  reports isTrue (pn_logTraffic E (ba "C") logged ;; socketWrite data ;; ret true).
Proof.
  apply reports_after; [apply reports_pn_logTraffic | intros _].
  apply reports_after; [apply reports_onSocket | intros _]. now apply reports_ret_ok.
Qed.

Lemma reports_pn_sendMessage (E : Env) (data : QByteArray) :
  reports isTrue (pn_sendMessage E data).
Proof.
  unfold pn_sendMessage.
  apply reports_check; [apply reports_pn_isAllowedToSend | apply reports_send_tail].
Qed.

Lemma reports_readReplyLines (E : Env) (expectedCode : QByteArray)
      (buffered : list QByteArray) :
  reports replyOk (readReplyLines E expectedCode buffered).
Proof.
  induction buffered as [| l buffered IH]; cbn [readReplyLines]; [now apply reports_ret_ok |].
  apply reports_after; [apply reports_onSocket | intros raw]. cbn zeta.
  apply reports_after; [apply reports_pn_logTraffic | intros _].
  destruct (bytes_eqb (mid (trimmed raw) 3 1) (ba " ")); [| exact IH].
  destruct (negb (bytes_eqb (left (trimmed raw) 3) expectedCode)).
  - apply reports_fail_then; [apply appendsLog_ret | reflexivity].
  - now apply reports_ret_ok.
Qed.

Lemma reports_waitForReply (E : Env) (expectedCode : QByteArray) (peer : list PeerEvent) :
  reports replyTrue (waitForReply E expectedCode peer).
Proof.
  induction peer as [| ev peer IH]; cbn [waitForReply].
  - apply reports_fail_then; [apply appendsLog_ret | reflexivity].
  - apply reports_after; [apply reports_onSocket | intros ready].
    destruct (negb ready).
    + apply reports_fail_then; [apply appendsLog_ret | reflexivity].
    + apply reports_after; [apply reports_onSocket | intros buffered].
      apply (reports_bind replyOk replyTrue); [apply reports_readReplyLines | |].
      * intros [[[|] body] |] Ha; try discriminate; [now apply reports_ret_ok | exact IH].
      * intros [[[|] body] |] Ha; try discriminate.
        split; [apply appendsLog_ret | reflexivity].
Qed.

Lemma reports_pn_waitForResponse (E : Env) (expectedCode : QByteArray) :
  reports replyTrue (pn_waitForResponse E expectedCode).
Proof.
  unfold pn_waitForResponse. apply reports_after; [apply reports_onSocket | intros peer].
  apply reports_waitForReply.
Qed.

(** A wait, and what follows for a reply that is as expected. *)
Lemma reports_wait_then (E : Env) (expectedCode : QByteArray)
      (k : bool * QByteArray -> ST World bool) :
  (forall r, fst r = true -> reports isTrue (k r)) ->
  (forall r, fst r = false -> appendsLog (k r) /\ forall w, fst (k r w) = false) ->
  reports isTrue (r <- pn_waitForResponse E expectedCode ;; k r).
Proof.
  intros Hk Hf.
  apply (reports_bind replyTrue isTrue); [apply reports_pn_waitForResponse | |];
    assumption.
Qed.

Lemma reports_pn_sendAndWaitFor (E : Env) (dataToSend expectedResCode : QByteArray) :
  reports isTrue (pn_sendAndWaitFor E dataToSend expectedResCode).
Proof.
  unfold pn_sendAndWaitFor. apply reports_check; [apply reports_pn_sendMessage |].
  apply reports_wait_then.
  - intros r Hr. now apply reports_ret_ok.
  - intros r Hr. split; [apply appendsLog_ret | intros w; exact Hr].
Qed.

Lemma reports_authenticate (E : Env) (d : PrivateData) : reports isTrue (authenticate E d).
Proof.
  unfold authenticate.
  destruct (AuthMethod_eqb (authMethod d) AuthPlain).
  { apply reports_unless;
      [apply reports_pn_sendAndWaitFor | apply pn_closeAndFail_appendsFalse
      | now apply reports_ret_ok]. }
  destruct (AuthMethod_eqb (authMethod d) AuthLogin).
  { repeat (apply reports_unless;
            [apply reports_pn_sendAndWaitFor | apply pn_closeAndFail_appendsFalse |]).
    now apply reports_ret_ok. }
  destruct (AuthMethod_eqb (authMethod d) AuthCramMd5); [| now apply reports_ret_ok].
  apply reports_unless;
    [apply reports_pn_sendMessage | apply pn_closeAndFail_appendsFalse |].
  apply reports_wait_then.
  - intros r Hr. rewrite Hr. cbn [negb].
    apply reports_unless;
      [apply reports_pn_sendAndWaitFor | apply pn_closeAndFail_appendsFalse
      | now apply reports_ret_ok].
  - intros r Hr. rewrite Hr. cbn [negb]. apply pn_closeAndFail_appendsFalse.
Qed.

Lemma reports_upgradeToTls (E : Env) (d : PrivateData) : reports isTrue (upgradeToTls E d).
Proof.
  unfold upgradeToTls.
  destruct (ConnectionType_eqb (connectionType d) TlsConnection);
    [| now apply reports_ret_ok].
  apply reports_unless;
    [apply reports_pn_sendAndWaitFor | apply pn_closeAndFail_appendsFalse |].
  apply reports_after; [apply reports_onSocket | intros encrypted].
  destruct (negb encrypted).
  - apply reports_after; [apply reports_onSocket | intros err].
    apply reports_fail_then; apply pn_closeAndFail_appendsFalse.
  - apply reports_unless;
      [apply reports_pn_sendAndWaitFor | apply pn_closeAndFail_appendsFalse
      | now apply reports_ret_ok].
Qed.

Lemma reports_connectToServer (E : Env) : reports isTrue (connectToServer E).
Proof.
  unfold connectToServer. apply reports_after; [apply reports_getD | intros d].
  repeat match goal with
         | |- reports isTrue (if ?b then pn_fail _ else _) =>
             destruct b; [apply reports_pn_fail_isTrue |]
         end.
  apply reports_after; [apply reports_onSocket | intros connected].
  destruct (negb connected).
  { apply reports_after; [apply reports_onSocket | intros err].
    apply reports_pn_fail_isTrue. }
  apply reports_wait_then.
  - intros r Hr. rewrite Hr. cbn [negb].
    apply reports_unless;
      [apply reports_pn_sendAndWaitFor | apply pn_closeAndFail_appendsFalse |].
    apply reports_check; [apply reports_upgradeToTls |].
    apply reports_check; [apply reports_authenticate |].
    apply reports_after; [apply reports_set_status | intros _]. now apply reports_ret_ok.
  - intros r Hr. rewrite Hr. cbn [negb]. apply pn_closeAndFail_appendsFalse.
Qed.

Lemma reports_sendRecipients (E : Env) (recipients : list EmailAddress) :
  reports isTrue (sendRecipients E recipients).
Proof.
  induction recipients as [| to recipients IH]; cbn [sendRecipients];
    [now apply reports_ret_ok |].
  apply reports_unless;
    [apply reports_pn_sendAndWaitFor | apply pn_closeAndFail_appendsFalse | exact IH].
Qed.

Lemma reportsSuccess_pn_sendMimeMessage (E : Env) (msg : MimeMessage) :
  reportsSuccess isTrue (pn_sendMimeMessage E msg).
Proof.
  intros w.
  set (w1 := snd (pn_isAllowedToSend E w)).
  set (r := writeToBuffer E msg w1).
  set (tail := pn_logTraffic E (ba "C") (toBase64 (snd (fst r))) ;;
               socketWrite (snd (fst r)) ;; ret true).
  assert (Hrun : pn_sendMimeMessage E msg w
                 = if fst (pn_isAllowedToSend E w)
                   then if fst (fst r) then (true, snd (tail (snd r))) else (false, snd r)
                   else (false, w1)).
  { unfold pn_sendMimeMessage, bind. fold w1.
    destruct (fst (pn_isAllowedToSend E w)); [| reflexivity].
    cbn beta zeta. fold r. destruct (fst (fst r)); reflexivity. }
  rewrite Hrun.
  pose proof (reports_pn_isAllowedToSend E w) as Hallowed. fold w1 in Hallowed.
  pose proof (reports_writeToBuffer E msg w1) as Hbuf. fold r in Hbuf.
  cbn [anyResult] in Hbuf.
  pose proof (reports_send_tail E (toBase64 (snd (fst r))) (snd (fst r)) (snd r)) as Htail.
  fold tail in Htail.
  assert (Hres : fst (tail (snd r)) = true) by reflexivity.
  rewrite Hres in Htail. cbn [isTrue] in Htail.
  destruct (fst (pn_isAllowedToSend E w)); cbn [isTrue] in Hallowed.
  - destruct (fst (fst r)); cbn [fst snd isTrue].
    + assert (Hall : logStep true w (snd (tail (snd r)))).
      { eapply logStep_true_then; [exact Hallowed |].
        eapply logStep_true_then; [exact Hbuf | exact Htail]. }
      split; [eapply logStep_appended; exact Hall | intros _; exact Hall].
    + split; [| discriminate].
      eapply appended_trans; eapply logStep_appended; eassumption.
  - cbn [fst snd isTrue]. split; [| discriminate].
    eapply logStep_appended; exact Hallowed.
Qed.

Lemma reports_bind_success {A B} (okA : A -> bool) (okB : B -> bool)
      (c : ST World A) (k : A -> ST World B) :
  reportsSuccess okA c ->
  (forall a, okA a = true -> reports okB (k a)) ->
  (forall a, okA a = false ->
             reports noResult (k a) /\ forall w, okB (fst (k a w)) = false) ->
  reports okB (bind c k).
Proof.
  intros Hc Hk Hf w. unfold bind. destruct (Hc w) as (Happ & Hok).
  destruct (okA (fst (c w))) eqn:Hres.
  - eapply logStep_true_then; [now apply Hok | apply (Hk _ Hres)].
  - destruct (Hf _ Hres) as (Hr & Hfalse). rewrite Hfalse.
    eapply appended_then_false; [exact Happ | apply Hr].
Qed.

Lemma reports_submitMessage (E : Env) (msg : MimeMessage) :
  reports isTrue (submitMessage E msg).
Proof.
  unfold submitMessage.
  apply reports_unless;
    [apply reports_pn_sendAndWaitFor | apply pn_closeAndFail_appendsFalse |].
  apply reports_check; [apply reports_sendRecipients |].
  apply reports_check; [apply reports_sendRecipients |].
  apply reports_unless;
    [apply reports_pn_sendAndWaitFor | apply pn_closeAndFail_appendsFalse |].
  apply (reports_bind_success isTrue isTrue);
    [apply reportsSuccess_pn_sendMimeMessage | |].
  - intros sent Hsent. unfold isTrue in Hsent. subst sent. cbn [negb].
    apply reports_wait_then.
    + intros r Hr. rewrite Hr. now apply reports_ret_ok.
    + intros r Hr. rewrite Hr. apply pn_closeAndFail_appendsFalse.
  - intros sent Hsent. unfold isTrue in Hsent. subst sent. cbn [negb].
    split; [| reflexivity].
    apply reports_fail_then; [apply pn_closeAndFail_appendsFalse | reflexivity].
Qed.

Lemma reports_sendMessage (E : Env) (msg : MimeMessage) :
  reports isTrue (sendMessage E msg).
Proof.
  unfold sendMessage.
  destruct (negb (MimeMessage_isValid E msg)); [apply reports_pn_fail_isTrue |].
  apply reports_after; [apply reports_getD | intros d].
  destruct (negb (Status_eqb (status d) ST_Connected)); [apply reports_pn_fail_isTrue |].
  apply reports_submitMessage.
Qed.

(** X24. A failure is always explained, a success never alarms. Whatever the
    state of the client and whatever the server does, [connectToServer] and
    [sendMessage] only add to the log and leave the traffic-log switch
    alone; when they return false at least one warning was added; when they
    return true only debug records of the traffic log were added, and none
    at all when traffic logging is off. *)
Theorem driver_warns_exactly_on_failure (E : Env) (w : World) :
  (exists l,
      w_log (snd (connectToServer E w)) = w_log w ++ l
      /\ (fst (connectToServer E w) = false ->
          Exists (fun r => rec_type r = Warning) l)
      /\ (fst (connectToServer E w) = true ->
          Forall (fun r => rec_type r = Debug) l
          /\ (logSocketTraffic (w_d w) = false -> l = [])))
  /\ (forall msg,
        exists l,
          w_log (snd (sendMessage E msg w)) = w_log w ++ l
          /\ (fst (sendMessage E msg w) = false ->
              Exists (fun r => rec_type r = Warning) l)
          /\ (fst (sendMessage E msg w) = true ->
              Forall (fun r => rec_type r = Debug) l
              /\ (logSocketTraffic (w_d w) = false -> l = []))).
Proof.
  split.
  - destruct (reports_connectToServer E w) as (_ & l & Hl & H). exists l.
    split; [exact Hl |]. unfold isTrue in H.
    destruct (fst (connectToServer E w)); split; try discriminate; auto.
  - intros msg. destruct (reports_sendMessage E msg w) as (_ & l & Hl & H). exists l.
    split; [exact Hl |]. unfold isTrue in H.
    destruct (fst (sendMessage E msg w)); split; try discriminate; auto.
Qed.
